(** * validate-generator: signing and validating a tree of files

    A shallow embedding of [utils.c], [sign.c] and [validate.c].

    - A [char *] is the list of bytes stored from the pointer on; the C
      string it denotes ends at the first NUL byte (or at the end of the
      list, where the terminator sits).  [strlen], [*s] and [s++] are
      written over that list.
    - A buffer given as pointer and length is the list of its bytes.
    - An [int] is a [Z]; a [gboolean] is a [bool].
    - A [GError] is kept as its code in the [G_FILE_ERROR] domain (every
      error raised or matched in these files lives in that domain); the
      message text is not kept.  Where a function propagates an error
      held in a [g_autoptr], the model tells the error handed over from
      the pointer to an error that is freed on return.
    - What the program prints ([g_debug], [g_info], [g_printerr]) and what
      it writes to disk is collected, in order, in a list of events.
    - What the operating system and OpenSSL answer is an input of the
      model: a tree of observations for the file system, functions for
      the signature primitive. *)

From Stdlib Require Import List ZArith Bool Lia Arith.
From Stdlib Require Import Strings.Byte.
From Stdlib Require Strings.String.
Import ListNotations.
Import String.StringSyntax.

Abbreviation string := String.string.
Bind Scope string_scope with String.string.

(** ** libc and GLib on byte lists *)

Module C.

Definition NUL : byte := x00.
Definition SLASH : byte := x2f.

Definition is_nul (c : byte) : bool := Byte.eqb c NUL.
Definition is_slash (c : byte) : bool := Byte.eqb c SLASH.

(** [*s]: the byte under the pointer; the terminator once the list is
    used up. *)
Definition peek (s : list byte) : byte := hd NUL s.

(** [s++] *)
Definition next (s : list byte) : list byte := tl s.

Fixpoint strlen (s : list byte) : nat :=
  match s with
  | [] => 0
  | c :: s' => if is_nul c then 0 else S (strlen s')
  end.

Definition memcpy (src : list byte) (n : nat) : list byte := firstn n src.

(** The bytes of the C string a pointer denotes. *)
Definition c_str (s : list byte) : list byte := memcpy s (strlen s).

Definition nul_free (s : list byte) : Prop := ~ In NUL s.

Fixpoint bytes_eqb (a b : list byte) : bool :=
  match a, b with
  | [], [] => true
  | x :: a', y :: b' => Byte.eqb x y && bytes_eqb a' b'
  | _, _ => false
  end.

(** [memcmp (a, b, n) == 0], for [a] holding at least [n] bytes. *)
Definition memcmp_eq (a b : list byte) (n : nat) : bool :=
  bytes_eqb (firstn n a) (firstn n b).

(** A string literal of the source as bytes. *)
Definition lit (s : string) : list byte := String.list_byte_of_string s.

(** [g_strconcat (a, b, NULL)] *)
Definition g_strconcat (a b : list byte) : list byte := c_str a ++ c_str b.

Fixpoint strip_leading (s : list byte) : list byte :=
  match s with
  | [] => []
  | c :: s' => if is_slash c then strip_leading s' else s
  end.

Definition strip_trailing (s : list byte) : list byte :=
  rev (strip_leading (rev s)).

(** [g_build_filename (a, b, NULL)]: empty elements are left out,
    the separators at the joint are replaced by a single one. *)
Definition g_build_filename (a b : list byte) : list byte :=
  match c_str a, c_str b with
  | [], b' => b'
  | a', [] => a'
  | a', b' => strip_trailing a' ++ [SLASH] ++ strip_leading b'
  end.

(** [g_str_has_suffix]: GLib compares the last [strlen suffix] bytes of
    [str] with [suffix], and answers FALSE when [str] is the shorter. *)
Definition g_str_has_suffix (str suffix : list byte) : bool :=
  let str_len := strlen str in
  let suffix_len := strlen suffix in
  if str_len <? suffix_len then false
  else bytes_eqb (skipn (str_len - suffix_len) (c_str str)) (c_str suffix).

End C.

Import C.

(** ** Error codes *)

(** [GFileError] of GLib. *)
Inductive GFileError : Type :=
| G_FILE_ERROR_EXIST | G_FILE_ERROR_ISDIR | G_FILE_ERROR_ACCES
| G_FILE_ERROR_NAMETOOLONG | G_FILE_ERROR_NOENT | G_FILE_ERROR_NOTDIR
| G_FILE_ERROR_NXIO | G_FILE_ERROR_NODEV | G_FILE_ERROR_ROFS
| G_FILE_ERROR_TXTBSY | G_FILE_ERROR_FAULT | G_FILE_ERROR_LOOP
| G_FILE_ERROR_NOSPC | G_FILE_ERROR_NOMEM | G_FILE_ERROR_MFILE
| G_FILE_ERROR_NFILE | G_FILE_ERROR_BADF | G_FILE_ERROR_INVAL
| G_FILE_ERROR_PIPE | G_FILE_ERROR_AGAIN | G_FILE_ERROR_INTR
| G_FILE_ERROR_IO | G_FILE_ERROR_PERM | G_FILE_ERROR_NOSYS
| G_FILE_ERROR_FAILED.

Definition GError := GFileError.

Definition GFileError_eq_dec (a b : GFileError) : {a = b} + {a <> b}.
Proof. decide equality. Defined.

(** [g_error_matches (error, G_FILE_ERROR, code)] *)
Definition g_error_matches (error : GError) (code : GFileError) : bool :=
  if GFileError_eq_dec error code then true else false.

(** The [errno] values the model tells apart: the ones GLib has a
    [GFileError] code of their own for, but EINTR and ENOSPC, and
    [EOTHER] for a value GLib has no such code for.  An interrupted call
    (EINTR) is a case of its own in the model of the calls that are
    retried, and ENOSPC is what [write_to_fd] sets, with a type of its
    own there; the calls whose [errno] is turned into a [GFileError]
    ([lstat], [fopen] and [open] for reading, [read]) are taken not to
    leave either. *)
Inductive errno : Type :=
| ENOENT | EISDIR | EACCES | ENOTDIR | ELOOP | EMFILE | ENFILE | ENOMEM
| EIO | EPERM | EINVAL | EOTHER
| EEXIST | ENAMETOOLONG | ENXIO | ENODEV | EROFS | ETXTBSY | EFAULT
| EBADF | EPIPE | EAGAIN | ENOSYS.

(** [g_file_error_from_errno] of GLib. *)
Definition g_file_error_from_errno (e : errno) : GFileError :=
  match e with
  | ENOENT => G_FILE_ERROR_NOENT
  | EISDIR => G_FILE_ERROR_ISDIR
  | EACCES => G_FILE_ERROR_ACCES
  | ENOTDIR => G_FILE_ERROR_NOTDIR
  | ELOOP => G_FILE_ERROR_LOOP
  | EMFILE => G_FILE_ERROR_MFILE
  | ENFILE => G_FILE_ERROR_NFILE
  | ENOMEM => G_FILE_ERROR_NOMEM
  | EIO => G_FILE_ERROR_IO
  | EPERM => G_FILE_ERROR_PERM
  | EINVAL => G_FILE_ERROR_INVAL
  | EEXIST => G_FILE_ERROR_EXIST
  | ENAMETOOLONG => G_FILE_ERROR_NAMETOOLONG
  | ENXIO => G_FILE_ERROR_NXIO
  | ENODEV => G_FILE_ERROR_NODEV
  | EROFS => G_FILE_ERROR_ROFS
  | ETXTBSY => G_FILE_ERROR_TXTBSY
  | EFAULT => G_FILE_ERROR_FAULT
  | EBADF => G_FILE_ERROR_BADF
  | EPIPE => G_FILE_ERROR_PIPE
  | EAGAIN => G_FILE_ERROR_AGAIN
  | ENOSYS => G_FILE_ERROR_NOSYS
  | EOTHER => G_FILE_ERROR_FAILED
  end.

(** ** File types of [<sys/stat.h>] *)

(** Octal 0170000, 0040000, 0100000 and 0120000. *)
Definition S_IFMT : Z := 0xF000.
Definition S_IFDIR : Z := 0x4000.
Definition S_IFREG : Z := 0x8000.
Definition S_IFLNK : Z := 0xA000.

Definition EXIT_SUCCESS : Z := 0.
Definition EXIT_FAILURE : Z := 1.

(** ** What the program prints and writes *)

Inductive arg : Type :=
| AStr (s : list byte)        (* a [%s] argument *)
| AInt (z : Z)                (* a [%d] argument *)
| AErr (e : GError)           (* [error->message] *)
| AStrerror.                  (* [strerror (errno)] *)

Inductive event : Type :=
| g_debug (format : string) (args : list arg)
| g_info (format : string) (args : list arg)
| g_printerr (format : string) (args : list arg)
| g_file_set_contents (filename : list byte) (contents : list byte).

(** ** OpenSSL *)

(** An [EVP_PKEY *] is an opaque handle. *)
Definition EVP_PKEY : Type := nat.

(** The answers of the signature engine.  [EVP_MD_CTX_new i] tells whether
    the [i]-th context allocation of a call succeeds; the [Init] functions
    and [EVP_DigestVerify] give the [int] they return; [EVP_DigestSign_size]
    is the call with a NULL buffer ([None] when it returns 0, else the
    length it stores); [EVP_DigestSign key tbs n] is the call with a buffer
    of [n] bytes ([None] when it returns 0, else the signature written). *)
Record OpenSSL : Type := {
  EVP_MD_CTX_new : nat -> bool;
  EVP_DigestVerifyInit : EVP_PKEY -> Z;
  EVP_DigestVerify : EVP_PKEY -> list byte -> list byte -> Z;
  EVP_DigestSignInit : EVP_PKEY -> Z;
  EVP_DigestSign_size : EVP_PKEY -> list byte -> option nat;
  EVP_DigestSign : EVP_PKEY -> list byte -> nat -> option (list byte)
}.

(** ** utils.c *)

Module Utils.

(** The result of [fopen] and [PEM_read_PUBKEY] on one file. *)
Inductive key_file : Type :=
| FopenFails (e : errno)
| PemFails
| PemKey (pkey : EVP_PKEY).

Definition load_pub_key (file : key_file) : GError + EVP_PKEY :=
  match file with
  | FopenFails e => inl (g_file_error_from_errno e)
  | PemFails => inl G_FILE_ERROR_INVAL
  | PemKey pkey => inr pkey
  end.

(** [g_list_prepend] *)
Definition g_list_prepend {A} (l : list A) (data : A) : list A :=
  data :: l.

(** What [load_pub_keys_from_dir] leaves in the caller's [error] when it
    returns FALSE.  [my_error] is a [g_autoptr (GError)], freed when the
    function returns unless the pointer has been stolen from it.
    [Handed e] is an error the caller owns
    ([g_propagate_error (error, g_steal_pointer (&my_error))]);
    [Freed e] is the pointer to [e] that
    [g_propagate_prefixed_error (error, my_error, ...)] stores without
    stealing it: [e] is freed on return and the caller holds a dangling
    pointer. *)
Inductive propagated : Type :=
| Handed (e : GError)
| Freed (e : GError).

(** The [while] loop of [load_pub_keys_from_dir] over the names
    [g_dir_read_name] returns, each with what loading it gives. *)
Fixpoint load_pub_keys_loop (files : list (list byte * key_file))
         (keys : list EVP_PKEY) : propagated + list EVP_PKEY :=
  match files with
  | [] => inr keys
  | (filename, file) :: rest =>
      match load_pub_key file with
      | inl my_error =>
          if negb (g_error_matches my_error G_FILE_ERROR_NOENT)
             && negb (g_error_matches my_error G_FILE_ERROR_ISDIR)
          then inl (Handed my_error)
          else load_pub_keys_loop rest keys
      | inr pkey => load_pub_keys_loop rest (g_list_prepend keys pkey)
      end
  end.

(** [load_pub_keys_from_dir]; [dir] is what [g_dir_open] and the
    enumeration give.  [inl] is the FALSE return with what it leaves in
    [error], [inr] the TRUE return with [*out_keys]. *)
Definition load_pub_keys_from_dir
           (dir : GError + list (list byte * key_file))
  : propagated + list EVP_PKEY :=
  match dir with
  | inl my_error =>
      if g_error_matches my_error G_FILE_ERROR_NOENT then inr []
      else inl (Freed my_error)
  | inr files => load_pub_keys_loop files []
  end.

(** [make_sign_blob]: [inl] is the NULL return with [error] set, [inr]
    the allocated blob, whose length is [*out_size]. *)
Definition make_sign_blob (rel_path : list byte) (type : Z)
           (content : list byte) : GError + list byte :=
  let rel_path_len := strlen rel_path in
  if (type =? S_IFREG)%Z then
    inr ([x00] ++ memcpy rel_path rel_path_len ++ [x00] ++ content)
  else if (type =? S_IFLNK)%Z then
    inr ([x01] ++ memcpy rel_path rel_path_len ++ [x00] ++ content)
  else
    inl G_FILE_ERROR_INVAL.

Definition to_sign_len (rel_path content : list byte) : nat :=
  1 + strlen rel_path + 1 + length content.

(** The [for] loop of [validate_data] over the trusted keys; [i] counts
    the iterations.  The result is the value returned, the error set
    and the debug lines printed. *)
Fixpoint validate_data_loop (ssl : OpenSSL) (i : nat)
         (pub_keys : list EVP_PKEY) (sig to_sign : list byte)
  : bool * option GError * list event :=
  match pub_keys with
  | [] => (false, None, [])
  | key :: l =>
      if negb (EVP_MD_CTX_new ssl i) then
        (false, Some G_FILE_ERROR_FAILED, [])
      else if (EVP_DigestVerifyInit ssl key =? 0)%Z then
        (false, Some G_FILE_ERROR_FAILED, [])
      else
        let res := EVP_DigestVerify ssl key sig to_sign in
        let dbg := g_debug "   Digest validation return code: %d" [AInt res] in
        if (res =? 1)%Z then (true, None, [dbg])
        else if negb (res =? 0)%Z then
          (false, Some G_FILE_ERROR_FAILED, [dbg])
        else
          let '(valid, error, log) :=
            validate_data_loop ssl (S i) l sig to_sign in
          (valid, error, dbg :: log)
  end.

(** [validate_data]; [magic] is VALIDATOR_SIGNATURE_MAGIC of [utils.h],
    and VALIDATOR_SIGNATURE_MAGIC_LEN its length. *)
Definition validate_data (ssl : OpenSSL) (magic : list byte)
           (rel_path : list byte) (type : Z) (content : list byte)
           (sig : list byte) (pub_keys : list EVP_PKEY)
  : bool * option GError * list event :=
  let dbg := g_debug "Validating signature of: %s" [AStr rel_path] in
  let sig_size := length sig in
  if (sig_size <? length magic) || negb (memcmp_eq sig magic (length magic))
  then
    (false, Some G_FILE_ERROR_INVAL,
     [dbg; g_debug "   Invalid signature size or value" []])
  else
    let sig := skipn (length magic) sig in
    match make_sign_blob rel_path type content with
    | inl e => (false, Some e, [dbg; g_debug "   Nothing to sign" []])
    | inr to_sign =>
        let '(valid, error, log) :=
          validate_data_loop ssl 0 pub_keys sig to_sign in
        (valid, error, dbg :: log)
    end.

(** The system calls of [load_file_data_for_sign] and of the leaf
    branches of [sign] and [validate], for one path. *)
Record leaf_obs : Type := {
  last_errno : errno;                 (* [errno] as the visit finds it *)
  sha512_file : GError + list byte;   (* digest of the file *)
  g_file_read_link : GError + list byte;
  sig_exists : bool;      (* [g_file_test (sig_path, G_FILE_TEST_EXISTS)] *)
  set_contents : option GError;  (* [g_file_set_contents (sig_path, ..)] *)
  get_contents : GError + list byte  (* [g_file_get_contents (sig_path)] *)
}.

(** [load_file_data_for_sign]; [lstat] is what [lstat (path)] gives,
    [st] the caller's [struct stat] (its [st_mode]) or NULL.  The
    outputs [type_out] and [fd_out] are NULL at both callers. *)
Definition load_file_data_for_sign (lstat : errno + Z) (st : option Z)
           (leaf : leaf_obs) : GError + list byte :=
  let st' :=
    match st with
    | Some st_mode => inr st_mode
    | None =>
        match lstat with
        | inl e => inl (g_file_error_from_errno e)
        | inr st_mode => inr st_mode
        end
    end in
  match st' with
  | inl e => inl e
  | inr st_mode =>
      let type := Z.land st_mode S_IFMT in
      if negb (type =? S_IFREG)%Z && negb (type =? S_IFLNK)%Z then
        inl (g_file_error_from_errno (last_errno leaf))
      else if (type =? S_IFREG)%Z then sha512_file leaf
      else
        match g_file_read_link leaf with
        | inl e => inl e
        | inr content => inr (memcpy content (strlen content))
        end
  end.

(** [sign_data]: [inl] is the FALSE return with [error] set, [inr] the
    envelope [*signature_out], whose length is [*signature_len_out]. *)
Definition sign_data (ssl : OpenSSL) (magic : list byte) (type : Z)
           (rel_path content : list byte) (pkey : EVP_PKEY)
  : GError + list byte :=
  match make_sign_blob rel_path type content with
  | inl e => inl e
  | inr to_sign =>
      if negb (EVP_MD_CTX_new ssl 0) then inl G_FILE_ERROR_FAILED
      else if (EVP_DigestSignInit ssl pkey =? 0)%Z then
        inl G_FILE_ERROR_FAILED
      else
        match EVP_DigestSign_size ssl pkey to_sign with
        | None => inl G_FILE_ERROR_FAILED
        | Some signature_len =>
            match EVP_DigestSign ssl pkey to_sign signature_len with
            | None => inl G_FILE_ERROR_FAILED
            | Some signature =>
                inr (memcpy magic (length magic) ++ signature)
            end
        end
  end.

(** The two inner [while] loops that skip slashes. *)
Fixpoint skip_slashes (s : list byte) : list byte :=
  match s with
  | [] => []
  | c :: s' => if is_slash c then skip_slashes s' else s
  end.

(** The inner [while] loop that compares one path element: [None] is
    the [return FALSE] inside it, [Some (str, prefix)] the two pointers
    when it ends. *)
Fixpoint compare_element (str prefix : list byte)
  : option (list byte * list byte) :=
  match prefix with
  | [] => Some (str, prefix)
  | p :: prefix' =>
      if negb (is_nul p) && negb (is_slash p) then
        if negb (Byte.eqb (peek str) p) then None
        else compare_element (next str) prefix'
      else Some (str, prefix)
  end.

(** The outer [while (TRUE)] of [has_path_prefix], unrolled at most
    [fuel] times; [None] when that is not enough. *)
Fixpoint has_path_prefix_loop (fuel : nat) (str prefix : list byte)
  : option bool :=
  match fuel with
  | O => None
  | S fuel' =>
      let str := skip_slashes str in
      let prefix := skip_slashes prefix in
      if is_nul (peek prefix) then Some true
      else
        match compare_element str prefix with
        | None => Some false
        | Some (str, prefix) =>
            if negb (is_slash (peek str)) && negb (is_nul (peek str))
            then Some false
            else has_path_prefix_loop fuel' str prefix
        end
  end.

(** Every turn of the outer loop that does not return moves [prefix]
    forward, so one turn more than its length is enough
    ([has_path_prefix_total]). *)
Definition has_path_prefix (str prefix : list byte) : option bool :=
  has_path_prefix_loop (S (length prefix)) str prefix.

End Utils.

(** ** main.h *)

(** The options and helpers [main.h] declares; [main.c] sets and defines
    them.  [opt_get_relative_path path relative_to prefix] is NULL
    ([None]) or the relative path; [help_error] prints its message and
    the usage and ends the process with the status given here. *)
Record Main : Type := {
  opt_force : bool;
  opt_recursive : bool;
  opt_private_key : EVP_PKEY;
  opt_public_keys : list EVP_PKEY;
  opt_path_prefix : option (list byte);
  opt_path_relative : option (list byte);
  opt_get_relative_path :
    list byte -> list byte -> option (list byte) -> option (list byte);
  help_error : string -> Z
}.

(** ** The file system as the walk observes it *)

(** One path: what [lstat] answers, and for an entry that exists the
    answers of the leaf calls, of [g_dir_open] ([Some] error or success)
    and of [g_dir_read_name] (the names in the order they come, each with
    the entry found under it). *)
Unset Elimination Schemes.
Inductive fsnode : Type :=
| LstatFails (e : errno)
| Inode (st_mode : Z) (leaf : Utils.leaf_obs) (dir_error : option GError)
        (children : list (list byte * fsnode)).
Set Elimination Schemes.

(** A command-line argument: its canonical path
    ([g_canonicalize_filename]), [g_file_test (path, G_FILE_TEST_IS_DIR)],
    [g_path_get_dirname (path)] and the entry at the path. *)
Record root : Type := {
  root_path : list byte;
  root_is_dir : bool;
  root_dirname : list byte;
  root_node : fsnode
}.

Definition lstat (n : fsnode) : errno + Z :=
  match n with
  | LstatFails e => inl e
  | Inode st_mode _ _ _ => inr st_mode
  end.

(** ** sign.c *)

Module Sign.

Section WithMain.

Variable ssl : OpenSSL.
Variable magic : list byte.
Variable M : Main.

(** The leaf branch of [sign]. *)
Definition sign_leaf (path relative_to : list byte) (st_mode type : Z)
           (leaf : Utils.leaf_obs) : bool * list event :=
  let sig_path := g_strconcat path (lit ".sig") in
  if negb (opt_force M) && Utils.sig_exists leaf then
    (true, [g_info "File '%s' already signed, ignoring" [AStr path]])
  else
    match Utils.load_file_data_for_sign (inr st_mode) (Some st_mode) leaf
    with
    | inl error =>
        (false,
         [g_printerr "Failed to read file '%s': %s\n" [AStr path; AErr error]])
    | inr content =>
        match opt_get_relative_path M path relative_to (opt_path_prefix M)
        with
        | None =>
            (false,
             [g_printerr "File '%s' not inside relative dir\n" [AStr path]])
        | Some rel_path =>
            match Utils.sign_data ssl magic type rel_path content
                                  (opt_private_key M) with
            | inl error =>
                (false,
                 [g_printerr "Failed to sign file '%s': %s\n"
                             [AStr path; AErr error]])
            | inr signature =>
                match Utils.set_contents leaf with
                | Some error =>
                    (false,
                     [g_printerr "Failed to write file '%s': %s\n"
                                 [AStr sig_path; AErr error]])
                | None =>
                    (true,
                     [g_file_set_contents sig_path signature;
                      g_info "Wrote signature '%s' (for path %s)"
                             [AStr sig_path; AStr rel_path]])
                end
            end
        end
    end.

(** [sign]: the value returned and the events, in order.  The inner
    [fix] is the [while] loop over the directory, [success] the
    variable of that name. *)
Fixpoint sign (path relative_to : list byte) (n : fsnode) {struct n}
  : bool * list event :=
  let dbg := g_debug "Signing %s" [AStr path] in
  match n with
  | LstatFails _ =>
      (false, [dbg; g_printerr "Can't access '%s': %s\n" [AStr path; AStrerror]])
  | Inode st_mode leaf dir_error children =>
      let type := Z.land st_mode S_IFMT in
      if (type =? S_IFREG)%Z || (type =? S_IFLNK)%Z then
        let '(success, log) := sign_leaf path relative_to st_mode type leaf in
        (success, dbg :: log)
      else if (type =? S_IFDIR)%Z then
        match dir_error with
        | Some e =>
            if g_error_matches e G_FILE_ERROR_NOENT then (true, [dbg])
            else
              (false,
               [dbg; g_printerr "Failed to open dir '%s': %s\n"
                                [AStr path; AStrerror]])
        | None =>
            let '(success, log) :=
              (fix loop (entries : list (list byte * fsnode))
                   (success : bool) : bool * list event :=
                 match entries with
                 | [] => (success, [])
                 | (child, cn) :: rest =>
                     if g_str_has_suffix child (lit ".sig") then
                       loop rest success
                     else
                       let child_path := g_build_filename path child in
                       let '(ok, log) := sign child_path relative_to cn in
                       let '(success', log') :=
                         loop rest (if negb ok then false else success) in
                       (success', log ++ log')
                 end) children true in
            (success, dbg :: log)
        end
      else
        (false, [dbg; g_printerr "Unsupported file type for '%s'\n" [AStr path]])
  end.

(** The [for] loop of [cmd_sign] over the arguments; [res] is the
    variable of that name. *)
Fixpoint cmd_sign_loop (roots : list root) (res : bool) : Z * list event :=
  match roots with
  | [] => (if res then EXIT_SUCCESS else EXIT_FAILURE, [])
  | r :: rest =>
      let path := root_path r in
      let dbg := g_debug "Checking %s" [AStr path] in
      if root_is_dir r then
        if negb (opt_recursive M) then
          (EXIT_FAILURE,
           [dbg;
            g_printerr "error: '%s' is a directory and not in recursive mode\n"
                       [AStr path]])
        else
          let relative_to :=
            match opt_path_relative M with Some p => p | None => path end in
          let '(ok, log) := sign path relative_to (root_node r) in
          let '(status, log') :=
            cmd_sign_loop rest (if negb ok then false else res) in
          (status, dbg :: log ++ log')
      else
        let dirname := root_dirname r in
        let relative_to :=
          match opt_path_relative M with Some p => p | None => dirname end in
        let '(ok, log) := sign path relative_to (root_node r) in
        let '(status, log') :=
          cmd_sign_loop rest (if negb ok then false else res) in
        (status, dbg :: log ++ log')
  end.

(** [cmd_sign]; [roots] are [argv[1]] .. [argv[argc - 1]]. *)
Definition cmd_sign (roots : list root) : Z * list event :=
  let dbg := g_debug "Entering cmd_sign" [] in
  match roots with
  | [] => (help_error M "No input files given", [dbg])
  | _ =>
      let '(status, log) := cmd_sign_loop roots true in
      (status, dbg :: log)
  end.

End WithMain.

End Sign.

(** ** validate.c *)

Module Validate.

Section WithMain.

Variable ssl : OpenSSL.
Variable magic : list byte.
Variable M : Main.

(** The leaf branch of [validate]. *)
Definition validate_leaf (path relative_to : list byte) (st_mode type : Z)
           (leaf : Utils.leaf_obs) : bool * list event :=
  let sig_path := g_strconcat path (lit ".sig") in
  match Utils.get_contents leaf with
  | inl error =>
      if g_error_matches error G_FILE_ERROR_NOENT then
        (false, [g_printerr "No signature for '%s'\n" [AStr path]])
      else
        (false,
         [g_printerr "Failed to load '%s': %s\n" [AStr sig_path; AErr error]])
  | inr signature =>
      match Utils.load_file_data_for_sign (inr st_mode) (Some st_mode) leaf
      with
      | inl error =>
          (false,
           [g_printerr "Failed to load '%s': %s\n" [AStr path; AErr error]])
      | inr content =>
          match opt_get_relative_path M path relative_to (opt_path_prefix M)
          with
          | None =>
              (false,
               [g_printerr "File '%s' not inside relative dir\n" [AStr path]])
          | Some rel_path =>
              let '(valid, validate_error, log) :=
                Utils.validate_data ssl magic rel_path type content
                                    signature (opt_public_keys M) in
              if negb valid then
                match validate_error with
                | Some e =>
                    (false,
                     log ++
                     [g_printerr "Signature of '%s' is invalid (as %s): %s\n"
                                 [AStr path; AStr rel_path; AErr e]])
                | None =>
                    (false,
                     log ++
                     [g_printerr "Signature of '%s' is invalid (as %s)\n"
                                 [AStr path; AStr rel_path]])
                end
              else
                (true,
                 log ++ [g_info "%s is valid (as %s)" [AStr path; AStr rel_path]])
          end
      end
  end.

(** [validate]: the value returned and the events, in order. *)
Fixpoint validate (path relative_to : list byte) (n : fsnode) {struct n}
  : bool * list event :=
  let dbg := g_debug "Validating %s" [AStr path] in
  match n with
  | LstatFails _ =>
      (false, [dbg; g_printerr "Can't access '%s': %s\n" [AStr path; AStrerror]])
  | Inode st_mode leaf dir_error children =>
      let type := Z.land st_mode S_IFMT in
      if (type =? S_IFREG)%Z || (type =? S_IFLNK)%Z then
        let '(success, log) :=
          validate_leaf path relative_to st_mode type leaf in
        (success, dbg :: log)
      else if (type =? S_IFDIR)%Z then
        match dir_error with
        | Some e =>
            if g_error_matches e G_FILE_ERROR_NOENT then (true, [dbg])
            else
              (false,
               [dbg; g_printerr "Failed to open dir '%s': %s\n"
                                [AStr path; AStrerror]])
        | None =>
            let '(success, log) :=
              (fix loop (entries : list (list byte * fsnode))
                   (success : bool) : bool * list event :=
                 match entries with
                 | [] => (success, [])
                 | (child, cn) :: rest =>
                     if g_str_has_suffix child (lit ".sig") then
                       loop rest success
                     else
                       let child_path := g_build_filename path child in
                       let '(ok, log) := validate child_path relative_to cn in
                       let '(success', log') :=
                         loop rest (if negb ok then false else success) in
                       (success', log ++ log')
                 end) children true in
            (success, dbg :: log)
        end
      else
        (false,
         [dbg; g_printerr "Can't validate '%s' due to unsupported file type'\n"
                          [AStr path]])
  end.

(** The [for] loop of [cmd_validate] over the arguments. *)
Fixpoint cmd_validate_loop (roots : list root) (res : bool)
  : Z * list event :=
  match roots with
  | [] => (if res then EXIT_SUCCESS else EXIT_FAILURE, [])
  | r :: rest =>
      let path := root_path r in
      let dbg := g_debug "Checking %s" [AStr path] in
      if root_is_dir r then
        if negb (opt_recursive M) then
          (EXIT_FAILURE,
           [dbg;
            g_printerr "error: '%s' is a directory and not in recursive mode\n"
                       [AStr path]])
        else
          let relative_to :=
            match opt_path_relative M with Some p => p | None => path end in
          let '(ok, log) := validate path relative_to (root_node r) in
          let '(status, log') :=
            cmd_validate_loop rest (if negb ok then false else res) in
          (status, dbg :: log ++ log')
      else
        let dirname := root_dirname r in
        let relative_to :=
          match opt_path_relative M with Some p => p | None => dirname end in
        let '(ok, log) := validate path relative_to (root_node r) in
        let '(status, log') :=
          cmd_validate_loop rest (if negb ok then false else res) in
        (status, dbg :: log ++ log')
  end.

(** [cmd_validate]; [roots] are [argv[1]] .. [argv[argc - 1]]. *)
Definition cmd_validate (roots : list root) : Z * list event :=
  let dbg := g_debug "Entering cmd_validate" [] in
  match roots with
  | [] => (help_error M "No input files given", [dbg])
  | _ =>
      let '(status, log) := cmd_validate_loop roots true in
      (status, dbg :: log)
  end.

End WithMain.

End Validate.

(** ** Path segments *)

Module PathSpec.

(** The fields of a path between its slashes, empty ones included. *)
Fixpoint split_slash (s : list byte) : list (list byte) :=
  match s with
  | [] => [[]]
  | c :: s' =>
      if is_slash c then [] :: split_slash s'
      else
        match split_slash s' with
        | field :: rest => (c :: field) :: rest
        | [] => [[c]]
        end
  end.

Definition nonempty (field : list byte) : bool :=
  match field with [] => false | _ :: _ => true end.

(** The path segments of a C string: repeated, leading and trailing
    slashes delimit no segment. *)
Definition segs (s : list byte) : list (list byte) :=
  filter nonempty (split_slash s).

Definition segments (path : list byte) : list (list byte) :=
  segs (c_str path).

(** [l1] is an initial part of [l2]. *)
Definition initial {A : Type} (l1 l2 : list A) : Prop :=
  exists rest, l2 = l1 ++ rest.

Fixpoint initialb (l1 l2 : list (list byte)) : bool :=
  match l1, l2 with
  | [], _ => true
  | _ :: _, [] => false
  | x :: l1', y :: l2' => bytes_eqb x y && initialb l1' l2'
  end.

(** The bytes up to the next slash, and the rest from that slash on. *)
Fixpoint element (s : list byte) : list byte :=
  match s with
  | [] => []
  | c :: s' => if is_slash c then [] else c :: element s'
  end.

Fixpoint after_element (s : list byte) : list byte :=
  match s with
  | [] => []
  | c :: s' => if is_slash c then s else after_element s'
  end.

(** [str] without the leading [e], when it starts with [e]. *)
Fixpoint strip_prefix (e str : list byte) : option (list byte) :=
  match e with
  | [] => Some str
  | a :: e' =>
      match str with
      | [] => None
      | b :: str' => if Byte.eqb b a then strip_prefix e' str' else None
      end
  end.

End PathSpec.

(** ** Key trials *)

Module Trials.

(** What one turn of the loop of [validate_data] meets, for the key
    tried at turn [i]: the key rejects the signature (a plain mismatch),
    accepts it, or the engine fails. *)
Definition rejects (ssl : OpenSSL) (i : nat) (key : EVP_PKEY)
           (sig to_sign : list byte) : Prop :=
  EVP_MD_CTX_new ssl i = true
  /\ EVP_DigestVerifyInit ssl key <> 0%Z
  /\ EVP_DigestVerify ssl key sig to_sign = 0%Z.

Definition accepts (ssl : OpenSSL) (i : nat) (key : EVP_PKEY)
           (sig to_sign : list byte) : Prop :=
  EVP_MD_CTX_new ssl i = true
  /\ EVP_DigestVerifyInit ssl key <> 0%Z
  /\ EVP_DigestVerify ssl key sig to_sign = 1%Z.

Definition engine_fails (ssl : OpenSSL) (i : nat) (key : EVP_PKEY)
           (sig to_sign : list byte) : Prop :=
  EVP_MD_CTX_new ssl i = false
  \/ EVP_DigestVerifyInit ssl key = 0%Z
  \/ (EVP_DigestVerify ssl key sig to_sign <> 1%Z
      /\ EVP_DigestVerify ssl key sig to_sign <> 0%Z).

(** Every key of [keys], tried from turn [i] on, rejects. *)
Fixpoint all_reject (ssl : OpenSSL) (i : nat) (keys : list EVP_PKEY)
         (sig to_sign : list byte) : Prop :=
  match keys with
  | [] => True
  | key :: l =>
      rejects ssl i key sig to_sign /\ all_reject ssl (S i) l sig to_sign
  end.

(** The engine answers the trial of [key] at turn [i] without failing:
    the key accepts or rejects. *)
Definition answers (ssl : OpenSSL) (i : nat) (key : EVP_PKEY)
           (sig to_sign : list byte) : Prop :=
  EVP_MD_CTX_new ssl i = true
  /\ EVP_DigestVerifyInit ssl key <> 0%Z
  /\ (EVP_DigestVerify ssl key sig to_sign = 0%Z
      \/ EVP_DigestVerify ssl key sig to_sign = 1%Z).

Fixpoint all_answer (ssl : OpenSSL) (i : nat) (keys : list EVP_PKEY)
         (sig to_sign : list byte) : Prop :=
  match keys with
  | [] => True
  | key :: l =>
      answers ssl i key sig to_sign /\ all_answer ssl (S i) l sig to_sign
  end.

(** The debug line of a trial that returned [res]. *)
Definition return_code (res : Z) : event :=
  g_debug "   Digest validation return code: %d" [AInt res].

End Trials.

(** ** The key directory *)

Module KeySpec.

(** A file of the key directory that does not stop the load: it gives
    a key, or fails as not found or as a directory. *)
Definition usable (file : Utils.key_file) : Prop :=
  (exists pkey, Utils.load_pub_key file = inr pkey)
  \/ Utils.load_pub_key file = inl G_FILE_ERROR_NOENT
  \/ Utils.load_pub_key file = inl G_FILE_ERROR_ISDIR.

(** The keys of the files that load, in the order of the enumeration. *)
Fixpoint parsed_keys (files : list (list byte * Utils.key_file))
  : list EVP_PKEY :=
  match files with
  | [] => []
  | (_, file) :: rest =>
      match Utils.load_pub_key file with
      | inr pkey => pkey :: parsed_keys rest
      | inl _ => parsed_keys rest
      end
  end.

End KeySpec.

(** ** The walk *)

Module WalkSpec.

(** A directory entry named like an envelope. *)
Definition is_envelope_name (name : list byte) : bool :=
  g_str_has_suffix name (lit ".sig").

(** The entries of a directory the walk goes into. *)
Definition visited (entries : list (list byte * fsnode))
  : list (list byte * fsnode) :=
  filter (fun entry => negb (is_envelope_name (fst entry))) entries.

Section Entries.

Variable visit : list byte -> fsnode -> bool * list event.
Variable path : list byte.

(** The [while] loop over a directory, for any visit of a child. *)
Fixpoint walk_entries (entries : list (list byte * fsnode))
         (success : bool) : bool * list event :=
  match entries with
  | [] => (success, [])
  | (child, cn) :: rest =>
      if g_str_has_suffix child (lit ".sig") then
        walk_entries rest success
      else
        let child_path := g_build_filename path child in
        let '(ok, log) := visit child_path cn in
        let '(success', log') :=
          walk_entries rest (if negb ok then false else success) in
        (success', log ++ log')
  end.

(** The results of the visited children, in order. *)
Definition child_results (entries : list (list byte * fsnode))
  : list (bool * list event) :=
  map (fun entry => visit (g_build_filename path (fst entry)) (snd entry))
      (visited entries).

End Entries.

(** The logical AND of the values, and the events one after the other. *)
Definition all_succeed (results : list (bool * list event)) : bool :=
  forallb fst results.

Definition all_events (results : list (bool * list event)) : list event :=
  concat (map snd results).

(** The tree without the entries named like envelopes, at every depth. *)
Fixpoint prune (n : fsnode) : fsnode :=
  match n with
  | LstatFails e => LstatFails e
  | Inode st_mode leaf dir_error children =>
      Inode st_mode leaf dir_error
            ((fix prune_entries (l : list (list byte * fsnode)) :=
                match l with
                | [] => []
                | (name, c) :: l' =>
                    if is_envelope_name name then prune_entries l'
                    else (name, prune c) :: prune_entries l'
                end) children)
  end.

(** No directory of the tree has an entry named like an envelope. *)
Fixpoint envelope_free (n : fsnode) : Prop :=
  match n with
  | LstatFails _ => True
  | Inode _ _ _ children =>
      (fix all (l : list (list byte * fsnode)) : Prop :=
         match l with
         | [] => True
         | (name, c) :: l' =>
             is_envelope_name name = false /\ envelope_free c /\ all l'
         end) children
  end.

Fixpoint prune_entries (l : list (list byte * fsnode))
  : list (list byte * fsnode) :=
  match l with
  | [] => []
  | (name, c) :: l' =>
      if is_envelope_name name then prune_entries l'
      else (name, prune c) :: prune_entries l'
  end.

Fixpoint envelope_free_entries (l : list (list byte * fsnode)) : Prop :=
  match l with
  | [] => True
  | (name, c) :: l' =>
      is_envelope_name name = false
      /\ envelope_free c /\ envelope_free_entries l'
  end.

(** The directory a root is signed relative to, as [cmd_sign] and
    [cmd_validate] choose it. *)
Definition relative_root (M : Main) (r : root) : list byte :=
  match opt_path_relative M with
  | Some p => p
  | None => if root_is_dir r then root_path r else root_dirname r
  end.

(** A directory given in non-recursive mode: the command stops there. *)
Definition refused (M : Main) (r : root) : bool :=
  root_is_dir r && negb (opt_recursive M).

Definition checking (r : root) : event :=
  g_debug "Checking %s" [AStr (root_path r)].

Section Roots.

Variable visit : list byte -> list byte -> fsnode -> bool * list event.
Variable M : Main.

(** The walk of one root. *)
Definition visit_root (r : root) : bool * list event :=
  visit (root_path r) (relative_root M r) (root_node r).

(** The result of a root: failure when it is refused, else the value
    of its walk. *)
Definition root_result (r : root) : bool :=
  negb (refused M r) && fst (visit_root r).

Definition root_events (r : root) : list event :=
  checking r :: snd (visit_root r).

End Roots.

End WalkSpec.

(** ** Concrete inputs *)

Module Examples.

(** A marker for the examples; the real one is in [utils.h]. *)
Definition magic : list byte := lit "MAGIC".

(** A toy signature: as many stars as the key handle says, then the
    message backwards. *)
Definition toy_signature (key : EVP_PKEY) (tbs : list byte) : list byte :=
  repeat x2a key ++ rev tbs.

(** An engine that never fails on keys other than handle 0, signs with
    [toy_signature] and verifies against it; with key handle 0 the
    verification reports an error. *)
Definition ssl : OpenSSL := {|
  EVP_MD_CTX_new := fun _ => true;
  EVP_DigestVerifyInit := fun _ => 1%Z;
  EVP_DigestVerify := fun key sig tbs =>
    if key =? 0 then (-1)%Z
    else if bytes_eqb sig (toy_signature key tbs) then 1%Z else 0%Z;
  EVP_DigestSignInit := fun _ => 1%Z;
  EVP_DigestSign_size := fun key tbs => Some (key + length tbs);
  EVP_DigestSign := fun key tbs n =>
    if n <? key + length tbs then None else Some (toy_signature key tbs)
|}.

Definition join_segments (l : list (list byte)) : list byte :=
  match l with
  | [] => []
  | x :: rest => fold_left (fun acc y => acc ++ [SLASH] ++ y) rest x
  end.

(** Modelled from the spec: [opt_get_relative_path] of [main.c], which
    is not among the sources.  The path is made relative to the root by
    comparing path segments; a path that is not under the root is
    rejected; when a prefix is required the leaf must fall under it as
    well, else it is rejected.  The leaf is compared with the prefix by
    its path, as the example of the spec has it: with the root "/a/b"
    and the required prefix "/a", the file "/a/b/c" is made relative
    (to "c") and signed. *)
Definition get_relative_path (path relative_to : list byte)
           (prefix : option (list byte)) : option (list byte) :=
  match Utils.has_path_prefix path relative_to with
  | Some true =>
      let rel :=
        join_segments (skipn (length (PathSpec.segments relative_to))
                             (PathSpec.segments path)) in
      match prefix with
      | None => Some rel
      | Some required =>
          match Utils.has_path_prefix path required with
          | Some true => Some rel
          | _ => None
          end
      end
  | _ => None
  end.

Definition main : Main := {|
  opt_force := false;
  opt_recursive := true;
  opt_private_key := 3;
  opt_public_keys := [5; 3];
  opt_path_prefix := None;
  opt_path_relative := None;
  opt_get_relative_path := get_relative_path;
  help_error := fun _ => EXIT_FAILURE
|}.

(** A leaf whose system calls all succeed, with no envelope yet. *)
Definition plain_leaf (content : list byte) : Utils.leaf_obs := {|
  Utils.last_errno := EOTHER;
  Utils.sha512_file := inr content;
  Utils.g_file_read_link := inr content;
  Utils.sig_exists := false;
  Utils.set_contents := None;
  Utils.get_contents := inl G_FILE_ERROR_NOENT
|}.

(** A leaf stored with the envelope [envelope]. *)
Definition signed_leaf (content envelope : list byte) : Utils.leaf_obs := {|
  Utils.last_errno := EOTHER;
  Utils.sha512_file := inr content;
  Utils.g_file_read_link := inr content;
  Utils.sig_exists := true;
  Utils.set_contents := None;
  Utils.get_contents := inr envelope
|}.

Definition regular (leaf : Utils.leaf_obs) : fsnode :=
  Inode (S_IFREG + 0x1A4) leaf None [].

Definition directory (children : list (list byte * fsnode)) : fsnode :=
  Inode (S_IFDIR + 0x1ED) (plain_leaf []) None children.

(** A regular file that cannot be read. *)
Definition unreadable : fsnode :=
  Inode (S_IFREG + 0x1A4)
        {| Utils.last_errno := EACCES;
           Utils.sha512_file := inl G_FILE_ERROR_ACCES;
           Utils.g_file_read_link := inl G_FILE_ERROR_INVAL;
           Utils.sig_exists := false;
           Utils.set_contents := None;
           Utils.get_contents := inl G_FILE_ERROR_NOENT |}
        None [].

(** Three regular files, the second unreadable, and the envelope of
    the first. *)
Definition three_entries : list (list byte * fsnode) :=
  [(lit "a", regular (signed_leaf (lit "A") (lit "old")));
   (lit "a.sig", regular (plain_leaf (lit "old")));
   (lit "b", unreadable);
   (lit "c", regular (plain_leaf (lit "C")))].

Definition three_files : fsnode := directory three_entries.

(** A regular file given on the command line under the name of an
    envelope. *)
Definition envelope_root : root := {|
  root_path := lit "/t/a.sig";
  root_is_dir := false;
  root_dirname := lit "/t";
  root_node := regular (plain_leaf (lit "old"))
|}.

Definition tree_root : root := {|
  root_path := lit "/t";
  root_is_dir := true;
  root_dirname := lit "/";
  root_node := three_files
|}.

(** A directory that [lstat] sees and that is gone when opened. *)
Definition vanished_directory : fsnode :=
  Inode (S_IFDIR + 0x1ED) (plain_leaf []) (Some G_FILE_ERROR_NOENT) [].

End Examples.

(** ** What can be read off the events of a walk *)

Module WalkObs.

Import WalkSpec.

Definition is_printerr (ev : event) : bool :=
  match ev with g_printerr _ _ => true | _ => false end.

Definition is_write (ev : event) : bool :=
  match ev with g_file_set_contents _ _ => true | _ => false end.

Definition is_debug (ev : event) : bool :=
  match ev with g_debug _ _ => true | _ => false end.

(** The paths of the debug lines printed with [format] and one string. *)
Definition debug_paths (format : string) (log : list event)
  : list (list byte) :=
  flat_map (fun ev =>
              match ev with
              | g_debug f [AStr p] => if String.eqb f format then [p] else []
              | _ => []
              end) log.

(** The paths [sign] and [validate] are called on when started on [path]
    at the entry [n], in the order of the calls. *)
Fixpoint walked_paths (path : list byte) (n : fsnode) : list (list byte) :=
  path ::
  match n with
  | LstatFails _ => []
  | Inode st_mode _ dir_error children =>
      if (Z.land st_mode S_IFMT =? S_IFDIR)%Z then
        match dir_error with
        | Some _ => []
        | None =>
            (fix walked (l : list (list byte * fsnode)) :=
               match l with
               | [] => []
               | (name, c) :: l' =>
                   if is_envelope_name name then walked l'
                   else walked_paths (g_build_filename path name) c
                                     ++ walked l'
               end) children
        end
      else []
  end.

Section WalkedEntries.

Variable path : list byte.

Fixpoint walked_entries (l : list (list byte * fsnode))
  : list (list byte) :=
  match l with
  | [] => []
  | (name, c) :: l' =>
      if is_envelope_name name then walked_entries l'
      else walked_paths (g_build_filename path name) c
                        ++ walked_entries l'
  end.

End WalkedEntries.

(** The regular files and symlinks the walk started on [path] at [n]
    comes to, each with its path, its [st_mode] and its system calls. *)
Fixpoint walked_leaves (path : list byte) (n : fsnode)
  : list (list byte * Z * Utils.leaf_obs) :=
  match n with
  | LstatFails _ => []
  | Inode st_mode leaf dir_error children =>
      let type := Z.land st_mode S_IFMT in
      if (type =? S_IFREG)%Z || (type =? S_IFLNK)%Z then
        [(path, st_mode, leaf)]
      else if (type =? S_IFDIR)%Z then
        match dir_error with
        | Some _ => []
        | None =>
            (fix leaves (l : list (list byte * fsnode)) :=
               match l with
               | [] => []
               | (name, c) :: l' =>
                   if is_envelope_name name then leaves l'
                   else walked_leaves (g_build_filename path name) c
                                      ++ leaves l'
               end) children
        end
      else []
  end.

Section LeavesOfEntries.

Variable path : list byte.

Fixpoint leaves_of_entries (l : list (list byte * fsnode))
  : list (list byte * Z * Utils.leaf_obs) :=
  match l with
  | [] => []
  | (name, c) :: l' =>
      if is_envelope_name name then leaves_of_entries l'
      else walked_leaves (g_build_filename path name) c
                         ++ leaves_of_entries l'
  end.

End LeavesOfEntries.

(** After the signing that printed [log] under the options [M], the
    leaf has an envelope: it had one that was left alone, or one was
    written. *)
Definition has_envelope_after (M : Main) (log : list event)
           (visit : list byte * Z * Utils.leaf_obs) : Prop :=
  let '(path, _, leaf) := visit in
  (opt_force M = false /\ Utils.sig_exists leaf = true)
  \/ exists envelope,
      In (g_file_set_contents (g_strconcat path (lit ".sig")) envelope) log.

(** The leaf has an envelope that [validate_data] accepts for its type,
    its content and its path made relative to [relative_to]. *)
Definition leaf_validates (ssl : OpenSSL) (magic : list byte) (M : Main)
           (relative_to : list byte)
           (visit : list byte * Z * Utils.leaf_obs) : Prop :=
  let '(path, st_mode, leaf) := visit in
  exists signature content rel_path,
    Utils.get_contents leaf = inr signature
    /\ Utils.load_file_data_for_sign (inr st_mode) (Some st_mode) leaf
       = inr content
    /\ opt_get_relative_path M path relative_to (opt_path_prefix M)
       = Some rel_path
    /\ fst (fst (Utils.validate_data ssl magic rel_path
                                     (Z.land st_mode S_IFMT) content
                                     signature (opt_public_keys M))) = true.

(** Every regular file and symlink of the tree, the entries named like
    envelopes and what is under them left aside, has an envelope
    ([g_file_test] finds it). *)
Fixpoint fully_signed (n : fsnode) : Prop :=
  match n with
  | LstatFails _ => True
  | Inode st_mode leaf _ children =>
      ((Z.land st_mode S_IFMT =? S_IFREG)%Z
       || (Z.land st_mode S_IFMT =? S_IFLNK)%Z = true ->
       Utils.sig_exists leaf = true)
      /\ (fix all (l : list (list byte * fsnode)) : Prop :=
            match l with
            | [] => True
            | (name, c) :: l' =>
                (is_envelope_name name = false -> fully_signed c) /\ all l'
            end) children
  end.

Fixpoint fully_signed_entries (l : list (list byte * fsnode)) : Prop :=
  match l with
  | [] => True
  | (name, c) :: l' =>
      (is_envelope_name name = false -> fully_signed c)
      /\ fully_signed_entries l'
  end.

(** An event that writes a file writes the envelope of one of [paths]:
    the file is named after the path with ".sig" added, and what is
    written starts with the marker. *)
Definition envelope_write (magic : list byte) (paths : list (list byte))
           (ev : event) : Prop :=
  match ev with
  | g_file_set_contents filename contents =>
      g_str_has_suffix filename (lit ".sig") = true
      /\ firstn (length magic) contents = magic
      /\ exists p, In p paths /\ filename = g_strconcat p (lit ".sig")
  | _ => True
  end.


(** The line [cmd_sign] and [cmd_validate] print for a refused root. *)
Definition refusal (r : root) : event :=
  g_printerr "error: '%s' is a directory and not in recursive mode\n"
             [AStr (root_path r)].

End WalkObs.

(** ** utils.c: reading, writing and digesting files *)

Module Io.

(** The size of the buffers [buf] of [sha512_file] and [copy_fd]. *)
Definition BUF_SIZE : nat := 16 * 1024.

(** What the next call of [read] on a descriptor does: it is interrupted
    (-1 with EINTR), fails (-1 with another [errno]), or gives at most
    [S k] bytes. *)
Inductive read_step : Type :=
| ReadIntr
| ReadFails (e : errno)
| ReadShort (k : nat).

(** A descriptor open for reading: the bytes read so far, those still to
    read, and what the next calls of [read] do; once the script is used
    up, [read] gives as much as the buffer takes. *)
Record rfd : Type := {
  consumed : list byte;
  unread : list byte;
  rscript : list read_step
}.

(** What a call of [read] returns: -1 with EINTR, -1 with another
    [errno], or the bytes put in the buffer (their number is the value
    returned, 0 at the end of the file). *)
Inductive read_result : Type :=
| RIntr
| RErr (e : errno)
| RData (buf : list byte).

Definition deliver (fd : rfd) (n : nat) (script : list read_step)
  : read_result * rfd :=
  (RData (firstn n (unread fd)),
   {| consumed := consumed fd ++ firstn n (unread fd);
      unread := skipn n (unread fd);
      rscript := script |}).

(** [read (fd, buf, count)] *)
Definition read (fd : rfd) (count : nat) : read_result * rfd :=
  match rscript fd with
  | [] => deliver fd count []
  | ReadIntr :: script =>
      (RIntr, {| consumed := consumed fd; unread := unread fd;
                 rscript := script |})
  | ReadFails e :: script =>
      (RErr e, {| consumed := consumed fd; unread := unread fd;
                  rscript := script |})
  | ReadShort k :: script => deliver fd (Nat.min (S k) count) script
  end.

(** [lseek (fd, 0, SEEK_SET)] *)
Definition rewind (fd : rfd) : rfd :=
  {| consumed := []; unread := consumed fd ++ unread fd;
     rscript := rscript fd |}.

(** The digest functions of OpenSSL over a context of type [ctx]:
    whether [EVP_MD_CTX_new] gives a context, and for the three others
    [None] when they return 0. *)
Record Digest (ctx : Type) : Type := {
  EVP_MD_CTX_new : bool;
  EVP_DigestInit_ex : option ctx;
  EVP_DigestUpdate : ctx -> list byte -> option ctx;
  EVP_DigestFinal_ex : ctx -> option (list byte)
}.

Arguments EVP_MD_CTX_new {ctx} _.
Arguments EVP_DigestInit_ex {ctx} _.
Arguments EVP_DigestUpdate {ctx} _ _ _.
Arguments EVP_DigestFinal_ex {ctx} _ _.

Section Sha512.

Context {ctx : Type}.
Variable md : Digest ctx.

(** The [while (TRUE)] loop of [sha512_file], unrolled at most [fuel]
    times ([None] when that is not enough): [inl] is a [return NULL]
    inside it, [inr] the context and the descriptor at the [break]. *)
Fixpoint sha512_file_loop (fuel : nat) (fd : rfd) (c : ctx)
  : option (GError + ctx * rfd) :=
  match fuel with
  | O => None
  | S fuel' =>
      match read fd BUF_SIZE with
      | (RIntr, fd') => sha512_file_loop fuel' fd' c
      | (RErr e, _) => Some (inl (g_file_error_from_errno e))
      | (RData [], fd') => Some (inr (c, fd'))
      | (RData buf, fd') =>
          match EVP_DigestUpdate md c buf with
          | None => Some (inl G_FILE_ERROR_FAILED)
          | Some c' => sha512_file_loop fuel' fd' c'
          end
      end
  end.

(** Every turn of the loop that goes on uses up a step of the script or
    a byte of the file. *)
Definition sha512_fuel (fd : rfd) : nat :=
  S (length (rscript fd) + length (unread fd)).

(** [sha512_file]; [opened] is what [open (path, O_RDONLY)] gives,
    [fd_out] tells whether the caller asks for the descriptor.  [inr] is
    the digest ([*digest_len_out] is its length) with [*fd_out]. *)
Definition sha512_file (opened : errno + rfd) (fd_out : bool)
  : option (GError + list byte * option rfd) :=
  match opened with
  | inl e => Some (inl (g_file_error_from_errno e))
  | inr fd =>
      if negb (EVP_MD_CTX_new md) then Some (inl G_FILE_ERROR_FAILED)
      else
        match EVP_DigestInit_ex md with
        | None => Some (inl G_FILE_ERROR_FAILED)
        | Some c =>
            match sha512_file_loop (sha512_fuel fd) fd c with
            | None => None
            | Some (inl e) => Some (inl e)
            | Some (inr (c', fd')) =>
                match EVP_DigestFinal_ex md c' with
                | None => Some (inl G_FILE_ERROR_FAILED)
                | Some digest =>
                    Some (inr (digest,
                               if fd_out then Some (rewind fd') else None))
                end
            end
        end
  end.

(** The context after the bytes [data], given to the digest in one
    piece when there are any. *)
Definition absorb (c : ctx) (data : list byte) : option ctx :=
  match data with
  | [] => Some c
  | _ => EVP_DigestUpdate md c data
  end.

(** The digest of [data] given in one piece. *)
Definition digest_of (data : list byte) : GError + list byte :=
  match EVP_DigestInit_ex md with
  | None => inl G_FILE_ERROR_FAILED
  | Some c =>
      match absorb c data with
      | None => inl G_FILE_ERROR_FAILED
      | Some c' =>
          match EVP_DigestFinal_ex md c' with
          | None => inl G_FILE_ERROR_FAILED
          | Some digest => inr digest
          end
      end
  end.

(** The digest does not depend on how the data comes in pieces. *)
Definition streaming : Prop :=
  forall (c : ctx) (a b : list byte),
    a <> [] -> b <> [] ->
    EVP_DigestUpdate md c (a ++ b)
    = match EVP_DigestUpdate md c a with
      | Some c' => EVP_DigestUpdate md c' b
      | None => None
      end.

End Sha512.

Definition no_read_failure (fd : rfd) : Prop :=
  forall e, ~ In (ReadFails e) (rscript fd).

(** What the next call of [write] on a descriptor does: it is
    interrupted, fails, or takes at most [k] bytes. *)
Inductive write_step : Type :=
| WriteIntr
| WriteFails (e : errno)
| WriteShort (k : nat).

(** A descriptor open for writing: the bytes written so far and what
    the next calls of [write] do; once the script is used up, [write]
    takes all it is given. *)
Record wfd : Type := {
  written : list byte;
  wscript : list write_step
}.

(** [TEMP_FAILURE_RETRY (write (fd, content, len))]: the value returned
    (the count, or -1) with [errno] when it fails; the interrupted calls
    are made again. *)
Fixpoint write_retry (script : list write_step) (sofar content : list byte)
  : (errno + nat) * wfd :=
  match script with
  | [] =>
      (inr (length content),
       {| written := sofar ++ content; wscript := [] |})
  | WriteIntr :: script' => write_retry script' sofar content
  | WriteFails e :: script' =>
      (inl e, {| written := sofar; wscript := script' |})
  | WriteShort k :: script' =>
      let n := Nat.min k (length content) in
      (inr n, {| written := sofar ++ firstn n content; wscript := script' |})
  end.

(** [errno] after [write_to_fd] has failed: the one [write] left, or
    ENOSPC, which the function sets itself. *)
Inductive write_errno : Type :=
| ENOSPC
| FromWrite (e : errno).

(** The loop of [write_to_fd]; [content] holds the [len] bytes left.  The
    result is the value returned (0 or -1), [errno] when it is -1, and
    the descriptor. *)
Fixpoint write_to_fd_loop (fuel : nat) (fd : wfd) (content : list byte)
  : option (Z * option write_errno * wfd) :=
  match content with
  | [] => Some (0%Z, None, fd)
  | _ :: _ =>
      match fuel with
      | O => None
      | S fuel' =>
          match write_retry (wscript fd) (written fd) content with
          | (inl e, fd') => Some ((-1)%Z, Some (FromWrite e), fd')
          | (inr O, fd') => Some ((-1)%Z, Some ENOSPC, fd')
          | (inr res, fd') => write_to_fd_loop fuel' fd' (skipn res content)
          end
      end
  end.

(** [write_to_fd]: every turn that goes on writes a byte at least. *)
Definition write_to_fd (fd : wfd) (content : list byte)
  : option (Z * option write_errno * wfd) :=
  write_to_fd_loop (length content) fd content.

(** [TEMP_FAILURE_RETRY (read (from_fd, buf, sizeof (buf)))] *)
Fixpoint read_retry (fuel : nat) (fd : rfd) : option (read_result * rfd) :=
  match fuel with
  | O => None
  | S fuel' =>
      match read fd BUF_SIZE with
      | (RIntr, fd') => read_retry fuel' fd'
      | r => Some r
      end
  end.

(** The loop of [copy_fd]: the value returned and the two descriptors. *)
Fixpoint copy_fd_loop (fuel : nat) (from_fd : rfd) (to_fd : wfd)
  : option (Z * rfd * wfd) :=
  match fuel with
  | O => None
  | S fuel' =>
      match read_retry (S (length (rscript from_fd))) from_fd with
      | None => None
      | Some (RIntr, from_fd') => None
      | Some (RErr _, from_fd') => Some ((-1)%Z, from_fd', to_fd)
      | Some (RData [], from_fd') => Some (0%Z, from_fd', to_fd)
      | Some (RData buf, from_fd') =>
          match write_to_fd to_fd buf with
          | None => None
          | Some (status, _, to_fd') =>
              if (status <? 0)%Z then Some ((-1)%Z, from_fd', to_fd')
              else copy_fd_loop fuel' from_fd' to_fd'
          end
      end
  end.

Definition copy_fd (from_fd : rfd) (to_fd : wfd) : option (Z * rfd * wfd) :=
  copy_fd_loop (S (length (unread from_fd))) from_fd to_fd.

(** A script of [write] with no failure and no call that takes nothing
    (interrupted calls and short writes are allowed). *)
Definition makes_progress (step : write_step) : Prop :=
  match step with
  | WriteIntr => True
  | WriteFails _ => False
  | WriteShort k => k <> 0
  end.

(** A digest for the examples: the context holds the bytes seen, the
    digest is those bytes backwards. *)
Definition toy_digest : Digest (list byte) := {|
  EVP_MD_CTX_new := true;
  EVP_DigestInit_ex := Some [];
  EVP_DigestUpdate := fun c data => Some (c ++ data);
  EVP_DigestFinal_ex := fun c => Some (rev c)
|}.

(** A file read with an interruption and short reads. *)
Definition slow_file : rfd := {|
  consumed := [];
  unread := lit "hello, world";
  rscript := [ReadShort 4; ReadIntr; ReadShort 0; ReadIntr; ReadShort 2]
|}.

(** A descriptor written with an interruption and short writes. *)
Definition slow_sink : wfd := {|
  written := lit ">";
  wscript := [WriteShort 3; WriteIntr; WriteShort 1; WriteShort 100]
|}.

(** A descriptor that takes five bytes and then is full. *)
Definition full_sink : wfd := {|
  written := [];
  wscript := [WriteShort 5; WriteShort 0]
|}.

End Io.

(** ** More concrete inputs *)

Module Samples.

(** A symlink whose calls succeed, stored with the envelope [envelope]. *)
Definition signed_symlink (target envelope : list byte) : fsnode :=
  Inode (S_IFLNK + 0x1FF) (Examples.signed_leaf target envelope) None [].

(** A tree in which every regular file and symlink has an envelope. *)
Definition signed_tree : fsnode :=
  Examples.directory
    [(lit "a", Examples.regular (Examples.signed_leaf (lit "A") (lit "old")));
     (lit "a.sig", Examples.regular (Examples.plain_leaf (lit "old")));
     (lit "d",
      Examples.directory
        [(lit "l", signed_symlink (lit "../a") (lit "older"))])].

(** The envelope of the regular file with digest "C" signed with key 3
    under the relative path "c", and a tree that holds it. *)
Definition valid_envelope : list byte :=
  Examples.magic
    ++ Examples.toy_signature 3 ([x00] ++ lit "c" ++ [x00] ++ lit "C").

Definition valid_tree : fsnode :=
  Examples.directory
    [(lit "c", Examples.regular (Examples.signed_leaf (lit "C") valid_envelope));
     (lit "c.sig", Examples.regular (Examples.plain_leaf valid_envelope))].

(** A directory given on the command line, and a file given after it. *)
Definition dir_root : root := {|
  root_path := lit "/t";
  root_is_dir := true;
  root_dirname := lit "/";
  root_node := Examples.three_files
|}.

Definition file_root : root := {|
  root_path := lit "/u/f";
  root_is_dir := false;
  root_dirname := lit "/u";
  root_node := Examples.regular (Examples.plain_leaf (lit "F"))
|}.

(** The options of the examples, without the recursive option. *)
Definition flat_main : Main := {|
  opt_force := false;
  opt_recursive := false;
  opt_private_key := 3;
  opt_public_keys := [5; 3];
  opt_path_prefix := None;
  opt_path_relative := None;
  opt_get_relative_path := Examples.get_relative_path;
  help_error := fun _ => EXIT_FAILURE
|}.

End Samples.

(** ** Leaves outside the root *)

Module ScopeSpec.



End ScopeSpec.

(** ** The failures of a visit *)

Module FailureSpec.

(** A regular file or a symlink, by the type bits of [st_mode]. *)
Definition is_leaf (st_mode : Z) : Prop :=
  Z.land st_mode S_IFMT = S_IFREG \/ Z.land st_mode S_IFMT = S_IFLNK.

Section WithMain.

Variable ssl : OpenSSL.
Variable magic : list byte.
Variable M : Main.

(** The ways in which the visit of one entry by [sign] fails, other than
    through the entries of a directory it has opened, each with the
    diagnostic it prints: the entry cannot be examined; its type is not
    supported; it is a directory that cannot be opened, for another
    reason than its being gone; or it is a regular file or symlink to
    be signed (overwriting forced, or no envelope yet) whose content
    cannot be read, that gets no relative path, that cannot be signed,
    or whose envelope cannot be written. *)
Inductive sign_failure (path relative_to : list byte)
  : fsnode -> event -> Prop :=
| sign_lstat_fails (e : errno) :
    sign_failure path relative_to (LstatFails e)
      (g_printerr "Can't access '%s': %s\n" [AStr path; AStrerror])
| sign_type_unsupported st_mode leaf dir_error children :
    Z.land st_mode S_IFMT <> S_IFREG ->
    Z.land st_mode S_IFMT <> S_IFLNK ->
    Z.land st_mode S_IFMT <> S_IFDIR ->
    sign_failure path relative_to (Inode st_mode leaf dir_error children)
      (g_printerr "Unsupported file type for '%s'\n" [AStr path])
| sign_dir_unopened st_mode leaf (e : GError) children :
    Z.land st_mode S_IFMT = S_IFDIR ->
    e <> G_FILE_ERROR_NOENT ->
    sign_failure path relative_to (Inode st_mode leaf (Some e) children)
      (g_printerr "Failed to open dir '%s': %s\n" [AStr path; AStrerror])
| sign_read_fails st_mode leaf dir_error children (e : GError) :
    is_leaf st_mode ->
    negb (opt_force M) && Utils.sig_exists leaf = false ->
    Utils.load_file_data_for_sign (inr st_mode) (Some st_mode) leaf
    = inl e ->
    sign_failure path relative_to (Inode st_mode leaf dir_error children)
      (g_printerr "Failed to read file '%s': %s\n" [AStr path; AErr e])
| sign_outside st_mode leaf dir_error children content :
    is_leaf st_mode ->
    negb (opt_force M) && Utils.sig_exists leaf = false ->
    Utils.load_file_data_for_sign (inr st_mode) (Some st_mode) leaf
    = inr content ->
    opt_get_relative_path M path relative_to (opt_path_prefix M) = None ->
    sign_failure path relative_to (Inode st_mode leaf dir_error children)
      (g_printerr "File '%s' not inside relative dir\n" [AStr path])
| sign_data_fails st_mode leaf dir_error children content rel_path
                  (e : GError) :
    is_leaf st_mode ->
    negb (opt_force M) && Utils.sig_exists leaf = false ->
    Utils.load_file_data_for_sign (inr st_mode) (Some st_mode) leaf
    = inr content ->
    opt_get_relative_path M path relative_to (opt_path_prefix M)
    = Some rel_path ->
    Utils.sign_data ssl magic (Z.land st_mode S_IFMT) rel_path content
                    (opt_private_key M) = inl e ->
    sign_failure path relative_to (Inode st_mode leaf dir_error children)
      (g_printerr "Failed to sign file '%s': %s\n" [AStr path; AErr e])
| sign_write_fails st_mode leaf dir_error children content rel_path
                   signature (e : GError) :
    is_leaf st_mode ->
    negb (opt_force M) && Utils.sig_exists leaf = false ->
    Utils.load_file_data_for_sign (inr st_mode) (Some st_mode) leaf
    = inr content ->
    opt_get_relative_path M path relative_to (opt_path_prefix M)
    = Some rel_path ->
    Utils.sign_data ssl magic (Z.land st_mode S_IFMT) rel_path content
                    (opt_private_key M) = inr signature ->
    Utils.set_contents leaf = Some e ->
    sign_failure path relative_to (Inode st_mode leaf dir_error children)
      (g_printerr "Failed to write file '%s': %s\n"
                  [AStr (g_strconcat path (lit ".sig")); AErr e]).

(** The same for [validate]: the entry cannot be examined; its type is
    not supported; it is a directory that cannot be opened; or it is a
    regular file or symlink that has no envelope, whose envelope or
    content cannot be read, that gets no relative path, or whose
    envelope [validate_data] does not find valid, with an error or
    without one. *)
Inductive validate_failure (path relative_to : list byte)
  : fsnode -> event -> Prop :=
| validate_lstat_fails (e : errno) :
    validate_failure path relative_to (LstatFails e)
      (g_printerr "Can't access '%s': %s\n" [AStr path; AStrerror])
| validate_type_unsupported st_mode leaf dir_error children :
    Z.land st_mode S_IFMT <> S_IFREG ->
    Z.land st_mode S_IFMT <> S_IFLNK ->
    Z.land st_mode S_IFMT <> S_IFDIR ->
    validate_failure path relative_to (Inode st_mode leaf dir_error children)
      (g_printerr "Can't validate '%s' due to unsupported file type'\n"
                  [AStr path])
| validate_dir_unopened st_mode leaf (e : GError) children :
    Z.land st_mode S_IFMT = S_IFDIR ->
    e <> G_FILE_ERROR_NOENT ->
    validate_failure path relative_to (Inode st_mode leaf (Some e) children)
      (g_printerr "Failed to open dir '%s': %s\n" [AStr path; AStrerror])
| validate_no_envelope st_mode leaf dir_error children :
    is_leaf st_mode ->
    Utils.get_contents leaf = inl G_FILE_ERROR_NOENT ->
    validate_failure path relative_to (Inode st_mode leaf dir_error children)
      (g_printerr "No signature for '%s'\n" [AStr path])
| validate_envelope_unread st_mode leaf dir_error children (e : GError) :
    is_leaf st_mode ->
    Utils.get_contents leaf = inl e ->
    e <> G_FILE_ERROR_NOENT ->
    validate_failure path relative_to (Inode st_mode leaf dir_error children)
      (g_printerr "Failed to load '%s': %s\n"
                  [AStr (g_strconcat path (lit ".sig")); AErr e])
| validate_read_fails st_mode leaf dir_error children signature
                      (e : GError) :
    is_leaf st_mode ->
    Utils.get_contents leaf = inr signature ->
    Utils.load_file_data_for_sign (inr st_mode) (Some st_mode) leaf
    = inl e ->
    validate_failure path relative_to (Inode st_mode leaf dir_error children)
      (g_printerr "Failed to load '%s': %s\n" [AStr path; AErr e])
| validate_outside st_mode leaf dir_error children signature content :
    is_leaf st_mode ->
    Utils.get_contents leaf = inr signature ->
    Utils.load_file_data_for_sign (inr st_mode) (Some st_mode) leaf
    = inr content ->
    opt_get_relative_path M path relative_to (opt_path_prefix M) = None ->
    validate_failure path relative_to (Inode st_mode leaf dir_error children)
      (g_printerr "File '%s' not inside relative dir\n" [AStr path])
| validate_invalid_error st_mode leaf dir_error children signature content
                         rel_path (e : GError) trials :
    is_leaf st_mode ->
    Utils.get_contents leaf = inr signature ->
    Utils.load_file_data_for_sign (inr st_mode) (Some st_mode) leaf
    = inr content ->
    opt_get_relative_path M path relative_to (opt_path_prefix M)
    = Some rel_path ->
    Utils.validate_data ssl magic rel_path (Z.land st_mode S_IFMT) content
                        signature (opt_public_keys M)
    = (false, Some e, trials) ->
    validate_failure path relative_to (Inode st_mode leaf dir_error children)
      (g_printerr "Signature of '%s' is invalid (as %s): %s\n"
                  [AStr path; AStr rel_path; AErr e])
| validate_invalid st_mode leaf dir_error children signature content
                   rel_path trials :
    is_leaf st_mode ->
    Utils.get_contents leaf = inr signature ->
    Utils.load_file_data_for_sign (inr st_mode) (Some st_mode) leaf
    = inr content ->
    opt_get_relative_path M path relative_to (opt_path_prefix M)
    = Some rel_path ->
    Utils.validate_data ssl magic rel_path (Z.land st_mode S_IFMT) content
                        signature (opt_public_keys M)
    = (false, None, trials) ->
    validate_failure path relative_to (Inode st_mode leaf dir_error children)
      (g_printerr "Signature of '%s' is invalid (as %s)\n"
                  [AStr path; AStr rel_path]).

(** An opened directory one of whose visited entries fails. *)
Definition failing_directory
           (visit : list byte -> fsnode -> bool * list event)
           (path : list byte) (n : fsnode) : Prop :=
  exists st_mode leaf children,
    n = Inode st_mode leaf None children
    /\ Z.land st_mode S_IFMT = S_IFDIR
    /\ WalkSpec.all_succeed (WalkSpec.child_results visit path children)
       = false.

End WithMain.

(** A FIFO. *)
Definition fifo : fsnode :=
  Inode (0x1000 + 0x1A4) (Examples.plain_leaf []) None [].

(** A directory that cannot be opened for lack of permission. *)
Definition locked_directory : fsnode :=
  Inode (S_IFDIR + 0x1C0) (Examples.plain_leaf [])
        (Some G_FILE_ERROR_ACCES) [].

(** A directory with a FIFO, a name that is gone when examined, a
    directory that cannot be opened, a file that cannot be read, and
    after them a regular file. *)
Definition mixed_entries : list (list byte * fsnode) :=
  [(lit "fifo", fifo);
   (lit "gone", LstatFails ENOENT);
   (lit "locked", locked_directory);
   (lit "b", Examples.unreadable);
   (lit "z", Examples.regular (Examples.plain_leaf (lit "Z")))].

Definition mixed_tree : fsnode := Examples.directory mixed_entries.

End FailureSpec.

(** * Properties *)

(** ** Bytes and C strings *)

Lemma byte_eqb_eq (a b : byte) : Byte.eqb a b = true <-> a = b.
Proof.
  split; [apply Byte.byte_dec_bl | apply Byte.byte_dec_lb].
Qed.

Lemma byte_eqb_neq (a b : byte) : Byte.eqb a b = false <-> a <> b.
Proof.
  split.
  - apply Byte.eqb_false.
  - intro H. destruct (Byte.eqb a b) eqn:E; [|reflexivity].
    apply byte_eqb_eq in E. contradiction.
Qed.

Lemma byte_eqb_refl (a : byte) : Byte.eqb a a = true.
Proof. now apply byte_eqb_eq. Qed.

Lemma bytes_eqb_eq (a b : list byte) : bytes_eqb a b = true <-> a = b.
Proof.
  revert b. induction a as [|x a IH]; intros [|y b]; simpl; split;
    try congruence; try reflexivity.
  - intros [Hx Hab]%andb_true_iff.
    apply byte_eqb_eq in Hx. apply IH in Hab. congruence.
  - intros [= -> ->]. rewrite byte_eqb_refl. now apply IH.
Qed.

Lemma strlen_le (s : list byte) : strlen s <= length s.
Proof.
  induction s as [|c s IH]; simpl; [lia|].
  destruct (is_nul c); lia.
Qed.

Lemma strlen_nul_free (s : list byte) : nul_free s -> strlen s = length s.
Proof.
  unfold nul_free. induction s as [|c s IH]; simpl; intros H; [reflexivity|].
  destruct (is_nul c) eqn:E.
  - apply byte_eqb_eq in E. subst c. exfalso. apply H. now left.
  - f_equal. apply IH. intros Hin. apply H. now right.
Qed.

Lemma c_str_nul_free (s : list byte) : nul_free s -> c_str s = s.
Proof.
  intros H. unfold c_str, memcpy. rewrite (strlen_nul_free _ H).
  apply firstn_all.
Qed.

Lemma c_str_is_nul_free (s : list byte) : nul_free (c_str s).
Proof.
  unfold c_str, memcpy, nul_free.
  induction s as [|c s IH]; simpl; [tauto|].
  destruct (is_nul c) eqn:E; simpl; [tauto|].
  intros [H|H]; [|tauto].
  apply byte_eqb_neq in E. congruence.
Qed.

(** A NUL-free string followed by a NUL splits in one way only. *)
Lemma nul_split_unique (p1 p2 c1 c2 : list byte) :
  nul_free p1 -> nul_free p2 ->
  p1 ++ NUL :: c1 = p2 ++ NUL :: c2 -> p1 = p2 /\ c1 = c2.
Proof.
  unfold nul_free. revert p2.
  induction p1 as [|a p1 IH]; intros [|b p2] H1 H2 E; simpl in *.
  - injection E as ->. now split.
  - injection E as <- _. exfalso. apply H2. now left.
  - injection E as -> _. exfalso. apply H1. now left.
  - injection E as -> E.
    assert (N1 : ~ In NUL p1) by tauto.
    assert (N2 : ~ In NUL p2) by tauto.
    destruct (IH p2 N1 N2 E) as [-> ->]. now split.
Qed.

(** ** The signed blob *)

Section Blob.

Import Utils.

Lemma make_sign_blob_reg (rel_path content : list byte) :
  make_sign_blob rel_path S_IFREG content
  = inr ([x00] ++ c_str rel_path ++ [x00] ++ content).
Proof. reflexivity. Qed.

Lemma make_sign_blob_lnk (rel_path content : list byte) :
  make_sign_blob rel_path S_IFLNK content
  = inr ([x01] ++ c_str rel_path ++ [x00] ++ content).
Proof. reflexivity. Qed.

Lemma make_sign_blob_other (rel_path content : list byte) (type : Z) :
  type <> S_IFREG -> type <> S_IFLNK ->
  make_sign_blob rel_path type content = inl G_FILE_ERROR_INVAL.
Proof.
  intros H1 H2. unfold make_sign_blob.
  apply Z.eqb_neq in H1, H2. now rewrite H1, H2.
Qed.

Lemma make_sign_blob_inr (rel_path content blob : list byte) (type : Z) :
  make_sign_blob rel_path type content = inr blob ->
  (type = S_IFREG /\ blob = x00 :: c_str rel_path ++ x00 :: content)
  \/ (type = S_IFLNK /\ blob = x01 :: c_str rel_path ++ x00 :: content).
Proof.
  unfold make_sign_blob.
  destruct (Z.eqb_spec type S_IFREG) as [->|H1].
  - intros [= <-]. now left.
  - destruct (Z.eqb_spec type S_IFLNK) as [->|H2].
    + intros [= <-]. now right.
    + discriminate.
Qed.

Lemma make_sign_blob_size (rel_path content blob : list byte) (type : Z) :
  make_sign_blob rel_path type content = inr blob ->
  length blob = to_sign_len rel_path content.
Proof.
  intros H. unfold to_sign_len.
  assert (L : length (c_str rel_path) = strlen rel_path).
  { unfold c_str, memcpy. rewrite length_firstn.
    pose proof (strlen_le rel_path). lia. }
  destruct (make_sign_blob_inr _ _ _ _ H) as [[_ ->]|[_ ->]];
    simpl; rewrite length_app; simpl; lia.
Qed.

(** C1.  [make_sign_blob] returns the tag byte (0 for a regular file, 1
    for a symlink), the bytes of the relative path, a NUL and the content
    bytes; it fails, with the invalid-argument error of an unsupported
    type, exactly when the type is neither of the two; and equal inputs
    give equal output.  The relative path is a C string: its bytes are
    those before the terminator, which for a NUL-free list is the whole
    list. *)
Theorem make_sign_blob_layout :
  forall (rel_path content : list byte) (type : Z),
    (type = S_IFREG ->
     make_sign_blob rel_path type content
     = inr ([x00] ++ c_str rel_path ++ [x00] ++ content))
    /\ (type = S_IFLNK ->
        make_sign_blob rel_path type content
        = inr ([x01] ++ c_str rel_path ++ [x00] ++ content))
    /\ ((exists e, make_sign_blob rel_path type content = inl e)
        <-> type <> S_IFREG /\ type <> S_IFLNK)
    /\ (forall e, make_sign_blob rel_path type content = inl e ->
                  e = G_FILE_ERROR_INVAL)
    /\ (nul_free rel_path -> c_str rel_path = rel_path)
    /\ (forall rel_path' content' type',
           rel_path' = rel_path -> type' = type -> content' = content ->
           make_sign_blob rel_path' type' content'
           = make_sign_blob rel_path type content).
Proof.
  intros rel_path content type.
  split; [intros ->; apply make_sign_blob_reg|].
  split; [intros ->; apply make_sign_blob_lnk|].
  split; [split|].
  - intros [e He]. split; intros ->; discriminate.
  - intros [H1 H2]. exists G_FILE_ERROR_INVAL.
    now apply make_sign_blob_other.
  - split; [|split].
    + intros e. unfold make_sign_blob.
      destruct (type =? S_IFREG)%Z; [discriminate|].
      destruct (type =? S_IFLNK)%Z; [discriminate|]. congruence.
    + apply c_str_nul_free.
    + intros ? ? ? -> -> ->. reflexivity.
Qed.

(** The blob of the symlink "a/link" to "../target". *)
Lemma make_sign_blob_layout_witness :
  make_sign_blob (lit "a/link") S_IFLNK (lit "../target")
  = inr ([x01] ++ lit "a/link" ++ [x00] ++ lit "../target")
  /\ make_sign_blob (lit "a/link") S_IFDIR (lit "../target")
     = inl G_FILE_ERROR_INVAL.
Proof.
  destruct (make_sign_blob_layout (lit "a/link") (lit "../target") S_IFLNK)
    as (_ & L & _).
  destruct (make_sign_blob_layout (lit "a/link") (lit "../target") S_IFDIR)
    as (_ & _ & [_ F] & E & _).
  split.
  - rewrite (L eq_refl). reflexivity.
  - destruct F as [e He]; [split; discriminate|].
    rewrite He. f_equal. exact (E e He).
Defined.

(** C10.  On regular files and symlinks with NUL-free relative paths,
    [make_sign_blob] is injective: two triples that give the same blob
    are the same triple. *)
Theorem make_sign_blob_injective :
  forall (rel_path1 content1 rel_path2 content2 blob : list byte)
         (type1 type2 : Z),
    nul_free rel_path1 -> nul_free rel_path2 ->
    make_sign_blob rel_path1 type1 content1 = inr blob ->
    make_sign_blob rel_path2 type2 content2 = inr blob ->
    type1 = type2 /\ rel_path1 = rel_path2 /\ content1 = content2.
Proof.
  intros p1 c1 p2 c2 blob t1 t2 N1 N2 H1 H2.
  apply make_sign_blob_inr in H1, H2.
  rewrite (c_str_nul_free _ N1) in H1. rewrite (c_str_nul_free _ N2) in H2.
  destruct H1 as [[-> E1]|[-> E1]], H2 as [[-> E2]|[-> E2]];
    rewrite E1 in E2; try discriminate;
    injection E2 as E2;
    destruct (nul_split_unique _ _ _ _ N1 N2 E2) as [-> ->]; auto.
Qed.

(** A NUL-free path, its blob, and the triple found again. *)
Lemma make_sign_blob_injective_witness :
  nul_free (lit "a/b")
  /\ make_sign_blob (lit "a/b") S_IFREG (lit "digest")
     = inr ([x00] ++ lit "a/b" ++ [x00] ++ lit "digest")
  /\ (S_IFREG = S_IFREG /\ lit "a/b" = lit "a/b"
      /\ lit "digest" = lit "digest").
Proof.
  assert (N : nul_free (lit "a/b")).
  { unfold nul_free. vm_compute. intuition discriminate. }
  split; [exact N|]. split; [reflexivity|].
  apply (make_sign_blob_injective
           (lit "a/b") (lit "digest") (lit "a/b") (lit "digest")
           ([x00] ++ lit "a/b" ++ [x00] ++ lit "digest") S_IFREG S_IFREG
           N N eq_refl eq_refl).
Defined.

End Blob.

(** ** Path prefixes *)

Section PathPrefix.

Import Utils PathSpec.

Lemma peek_c_str (s : list byte) : peek (c_str s) = peek s.
Proof.
  destruct s as [|c s]; [reflexivity|].
  unfold c_str, memcpy. simpl.
  destruct (is_nul c) eqn:E; [|reflexivity].
  apply byte_eqb_eq in E. now subst c.
Qed.

Lemma c_str_cons (c : byte) (s : list byte) :
  is_nul c = false -> c_str (c :: s) = c :: c_str s.
Proof. intros E. unfold c_str, memcpy. simpl. now rewrite E. Qed.

Lemma c_str_nul (c : byte) (s : list byte) :
  is_nul c = true -> c_str (c :: s) = [].
Proof. intros E. unfold c_str, memcpy. simpl. now rewrite E. Qed.

Lemma slash_not_nul (c : byte) : is_slash c = true -> is_nul c = false.
Proof.
  intros E. apply byte_eqb_eq in E. now subst c.
Qed.

Lemma skip_slashes_c_str (s : list byte) :
  skip_slashes (c_str s) = c_str (skip_slashes s).
Proof.
  induction s as [|c s IH]; [reflexivity|].
  destruct (is_nul c) eqn:N.
  - rewrite (c_str_nul _ _ N). simpl.
    destruct (is_slash c) eqn:S.
    + apply slash_not_nul in S. congruence.
    + now rewrite (c_str_nul _ _ N).
  - rewrite (c_str_cons _ _ N). simpl.
    destruct (is_slash c); [exact IH|].
    now rewrite (c_str_cons _ _ N).
Qed.

Lemma compare_element_c_str (prefix str : list byte) :
  compare_element (c_str str) (c_str prefix)
  = option_map (fun sp => (c_str (fst sp), c_str (snd sp)))
               (compare_element str prefix).
Proof.
  revert str. induction prefix as [|p prefix IH]; intros str;
    [reflexivity|].
  destruct (is_nul p) eqn:N.
  - rewrite (c_str_nul _ _ N). simpl. rewrite N. simpl.
    now rewrite (c_str_nul _ _ N).
  - rewrite (c_str_cons _ _ N). simpl. rewrite N. simpl.
    destruct (is_slash p) eqn:S; simpl.
    + now rewrite (c_str_cons _ _ N).
    + rewrite peek_c_str.
      destruct (Byte.eqb (peek str) p) eqn:E; simpl; [|reflexivity].
      rewrite <- IH. f_equal.
      destruct str as [|b str]; [reflexivity|].
      simpl in E. apply byte_eqb_eq in E. subst b.
      now rewrite (c_str_cons _ _ N).
Qed.

(** The loop looks at its arguments as C strings only. *)
Lemma has_path_prefix_loop_c_str (fuel : nat) (str prefix : list byte) :
  has_path_prefix_loop fuel (c_str str) (c_str prefix)
  = has_path_prefix_loop fuel str prefix.
Proof.
  revert str prefix. induction fuel as [|fuel IH]; intros str prefix;
    [reflexivity|].
  simpl. rewrite !skip_slashes_c_str, peek_c_str.
  destruct (is_nul (peek (skip_slashes prefix))); [reflexivity|].
  rewrite compare_element_c_str.
  destruct (compare_element (skip_slashes str) (skip_slashes prefix))
    as [[s p]|]; simpl; [|reflexivity].
  rewrite peek_c_str.
  destruct (negb (is_slash (peek s)) && negb (is_nul (peek s)));
    [reflexivity|apply IH].
Qed.

Lemma split_slash_element (s : list byte) :
  split_slash s
  = element s :: match after_element s with
                 | [] => []
                 | _ :: r => split_slash r
                 end.
Proof.
  induction s as [|c s IH]; [reflexivity|].
  simpl. destruct (is_slash c); [reflexivity|].
  now rewrite IH.
Qed.

Lemma segs_slash (c : byte) (s : list byte) :
  is_slash c = true -> segs (c :: s) = segs s.
Proof. intros E. unfold segs. simpl. now rewrite E. Qed.

Lemma segs_skip_slashes (s : list byte) : segs (skip_slashes s) = segs s.
Proof.
  induction s as [|c s IH]; [reflexivity|].
  simpl. destruct (is_slash c) eqn:E; [|reflexivity].
  now rewrite (segs_slash _ _ E).
Qed.

Lemma after_element_head (s : list byte) :
  after_element s = []
  \/ exists c r, after_element s = c :: r /\ is_slash c = true.
Proof.
  induction s as [|c s IH]; [now left|].
  simpl. destruct (is_slash c) eqn:E; [|exact IH].
  right. now exists c, s.
Qed.

Lemma segs_after_element (s : list byte) :
  filter nonempty match after_element s with
                  | [] => []
                  | _ :: r => split_slash r
                  end
  = segs (after_element s).
Proof.
  destruct (after_element_head s) as [->|(c & r & -> & E)];
    [reflexivity|].
  now rewrite (segs_slash _ _ E).
Qed.

Lemma segs_head (c : byte) (s : list byte) :
  is_slash c = false ->
  segs (c :: s) = element (c :: s) :: segs (after_element (c :: s)).
Proof.
  intros E. unfold segs at 1. rewrite split_slash_element.
  cbn [filter]. rewrite segs_after_element.
  simpl. now rewrite E.
Qed.

Lemma skip_slashes_head (s : list byte) :
  skip_slashes s = []
  \/ exists c r, skip_slashes s = c :: r /\ is_slash c = false.
Proof.
  induction s as [|c s IH]; [now left|].
  simpl. destruct (is_slash c) eqn:E; [exact IH|].
  right. now exists c, s.
Qed.

Lemma skip_slashes_length (s : list byte) :
  length (skip_slashes s) <= length s.
Proof.
  induction s as [|c s IH]; simpl; [lia|].
  destruct (is_slash c); simpl; lia.
Qed.

Lemma after_element_length (s : list byte) :
  length (after_element s) <= length s.
Proof.
  induction s as [|c s IH]; simpl; [lia|].
  destruct (is_slash c); simpl; lia.
Qed.

Lemma element_after_element (s : list byte) :
  s = element s ++ after_element s.
Proof.
  induction s as [|c s IH]; [reflexivity|].
  simpl. destruct (is_slash c); [reflexivity|].
  simpl. now f_equal.
Qed.

Lemma nul_free_cons (c : byte) (s : list byte) :
  nul_free (c :: s) <-> is_nul c = false /\ nul_free s.
Proof.
  unfold nul_free, is_nul. rewrite byte_eqb_neq. simpl.
  intuition congruence.
Qed.

Lemma nul_free_app (a b : list byte) :
  nul_free (a ++ b) <-> nul_free a /\ nul_free b.
Proof. unfold nul_free. rewrite in_app_iff. tauto. Qed.

Lemma nul_free_skip_slashes (s : list byte) :
  nul_free s -> nul_free (skip_slashes s).
Proof.
  induction s as [|c s IH]; [trivial|].
  simpl. intros H. destruct (is_slash c); [|exact H].
  apply IH. now apply nul_free_cons in H.
Qed.

Lemma nul_free_after_element (s : list byte) :
  nul_free s -> nul_free (after_element s).
Proof.
  intros H. rewrite (element_after_element s) in H.
  now apply nul_free_app in H.
Qed.

Lemma strip_prefix_app (e str s : list byte) :
  strip_prefix e str = Some s <-> str = e ++ s.
Proof.
  revert str. induction e as [|a e IH]; intros str; simpl.
  - split; congruence.
  - destruct str as [|b str]; [split; discriminate|].
    destruct (Byte.eqb b a) eqn:E.
    + apply byte_eqb_eq in E. subst b. rewrite IH.
      split; congruence.
    + apply byte_eqb_neq in E. split; [discriminate|congruence].
Qed.

(** On a NUL-free prefix the inner loop strips one element. *)
Lemma compare_element_strip (prefix str : list byte) :
  nul_free prefix ->
  compare_element str prefix
  = match strip_prefix (element prefix) str with
    | Some s => Some (s, after_element prefix)
    | None => None
    end.
Proof.
  revert str. induction prefix as [|p prefix IH]; intros str N;
    [reflexivity|].
  apply nul_free_cons in N. destruct N as [Np N].
  simpl. rewrite Np. simpl.
  destruct (is_slash p) eqn:S; simpl; [reflexivity|].
  destruct str as [|b str]; simpl.
  - assert (E : Byte.eqb NUL p = false).
    { apply byte_eqb_neq. intros <-. discriminate. }
    now rewrite E.
  - destruct (Byte.eqb b p); simpl; [now apply IH|reflexivity].
Qed.

Lemma element_app_slash_free (e s : list byte) :
  element e = e ->
  element (e ++ s) = e ++ element s
  /\ after_element (e ++ s) = after_element s.
Proof.
  induction e as [|a e IH]; intros H; [now split|].
  simpl in *. destruct (is_slash a); [discriminate|].
  injection H as H. destruct (IH H) as [-> ->]. now split.
Qed.

Lemma element_idem (s : list byte) : element (element s) = element s.
Proof.
  induction s as [|c s IH]; [reflexivity|].
  simpl. destruct (is_slash c) eqn:E; [reflexivity|].
  simpl. rewrite E. now f_equal.
Qed.

Lemma bytes_eqb_refl (a : list byte) : bytes_eqb a a = true.
Proof. now apply bytes_eqb_eq. Qed.

Lemma bytes_eqb_longer (a x : list byte) (c : byte) :
  bytes_eqb a (a ++ c :: x) = false.
Proof.
  destruct (bytes_eqb a (a ++ c :: x)) eqn:E; [|reflexivity].
  apply bytes_eqb_eq in E. apply (f_equal (@length byte)) in E.
  rewrite length_app in E. simpl in E. lia.
Qed.

(** A string that starts with a whole element [e] of a path, followed
    by a byte [c] that is not a slash, has a longer first segment. *)
Lemma segs_app_longer (e l : list byte) (a c : byte) :
  element (a :: e) = a :: e -> is_slash c = false ->
  exists x rest, segs ((a :: e) ++ c :: l) = ((a :: e) ++ c :: x) :: rest.
Proof.
  intros He Sc.
  assert (Sa : is_slash a = false).
  { simpl in He. destruct (is_slash a); [discriminate|reflexivity]. }
  change ((a :: e) ++ c :: l) with (a :: (e ++ c :: l)).
  rewrite (segs_head _ _ Sa).
  change (a :: (e ++ c :: l)) with ((a :: e) ++ c :: l).
  destruct (element_app_slash_free (a :: e) (c :: l) He) as [-> _].
  simpl element at 1. rewrite Sc. eauto.
Qed.

(** A string that starts with a whole element [e], followed by a slash
    or by nothing, has [e] as its first segment. *)
Lemma segs_app_whole (e l : list byte) (a : byte) :
  element (a :: e) = a :: e ->
  is_slash (peek l) = true \/ l = [] ->
  segs ((a :: e) ++ l) = (a :: e) :: segs l.
Proof.
  intros He Hl.
  assert (Sa : is_slash a = false).
  { simpl in He. destruct (is_slash a); [discriminate|reflexivity]. }
  change ((a :: e) ++ l) with (a :: (e ++ l)).
  rewrite (segs_head _ _ Sa).
  change (a :: (e ++ l)) with ((a :: e) ++ l).
  destruct (element_app_slash_free (a :: e) l He) as [-> ->].
  assert (El : element l = [] /\ after_element l = l).
  { destruct l as [|c l]; [now split|].
    destruct Hl as [Hl|Hl]; [|discriminate].
    simpl in Hl. simpl. now rewrite Hl. }
  destruct El as [-> ->]. now rewrite app_nil_r.
Qed.

(** On NUL-free strings, with enough fuel, the loop answers whether the
    segments of [prefix] are the first segments of [str]. *)
Lemma has_path_prefix_loop_spec (fuel : nat) :
  forall str prefix : list byte,
    nul_free str -> nul_free prefix -> length prefix < fuel ->
    has_path_prefix_loop fuel str prefix
    = Some (initialb (segs prefix) (segs str)).
Proof.
  induction fuel as [|fuel IH]; intros str prefix Ns Np L; [lia|].
  cbn [has_path_prefix_loop].
  rewrite <- (segs_skip_slashes prefix), <- (segs_skip_slashes str).
  pose proof (nul_free_skip_slashes _ Ns) as Ns'.
  pose proof (nul_free_skip_slashes _ Np) as Np'.
  pose proof (skip_slashes_length prefix) as L'.
  destruct (skip_slashes_head prefix) as [E|(p & pr & E & Sp)];
    rewrite E in *; [reflexivity|].
  apply nul_free_cons in Np'. destruct Np' as [Nul_p Npr].
  assert (Npp : nul_free (p :: pr)) by now apply nul_free_cons.
  cbn [peek hd]. rewrite Nul_p.
  rewrite (compare_element_strip _ _ Npp), (segs_head _ _ Sp).
  assert (He : element (p :: pr) = p :: element pr).
  { simpl. now rewrite Sp. }
  assert (Hidem : element (p :: element pr) = p :: element pr).
  { rewrite <- He. apply element_idem. }
  assert (La : length (after_element (p :: pr)) < fuel).
  { simpl. rewrite Sp. pose proof (after_element_length pr).
    simpl in L'. lia. }
  pose proof (nul_free_after_element _ Npp) as Na.
  rewrite He.
  destruct (strip_prefix (p :: element pr) (skip_slashes str)) as [l|] eqn:St.
  - apply strip_prefix_app in St. rewrite St in *.
    apply nul_free_app in Ns'. destruct Ns' as [_ Nl].
    destruct l as [|c l].
    + cbn [peek hd]. change (is_nul NUL) with true.
      rewrite andb_false_r.
      rewrite (IH _ _ Nl Na La).
      rewrite (segs_app_whole _ _ _ Hidem (or_intror eq_refl)).
      cbn [initialb]. now rewrite bytes_eqb_refl.
    + cbn [peek hd]. apply nul_free_cons in Nl. destruct Nl as [Nc Nl].
      rewrite Nc. destruct (is_slash c) eqn:Sc; cbn [negb andb].
      * assert (Ncl : nul_free (c :: l)) by now apply nul_free_cons.
        rewrite (IH _ _ Ncl Na La).
        rewrite (segs_app_whole _ (c :: l) _ Hidem (or_introl Sc)).
        cbn [initialb]. now rewrite bytes_eqb_refl.
      * destruct (segs_app_longer _ l _ _ Hidem Sc) as (x & rest & ->).
        cbn [initialb]. now rewrite bytes_eqb_longer.
  - destruct (skip_slashes_head str) as [E1|(c & r & E1 & Sc)];
      rewrite E1 in *; [reflexivity|].
    rewrite (segs_head _ _ Sc). cbn [initialb].
    destruct (bytes_eqb (p :: element pr) (element (c :: r))) eqn:B;
      [|reflexivity].
    apply bytes_eqb_eq in B.
    pose proof (element_after_element (c :: r)) as D. rewrite <- B in D.
    apply strip_prefix_app in D. congruence.
Qed.

Lemma initialb_initial (l1 l2 : list (list byte)) :
  initialb l1 l2 = true <-> initial l1 l2.
Proof.
  unfold initial. revert l2.
  induction l1 as [|x l1 IH]; intros l2; simpl.
  - split; [intros _; now exists l2|reflexivity].
  - destruct l2 as [|y l2].
    + split; [discriminate|intros [rest H]; discriminate].
    + rewrite andb_true_iff, bytes_eqb_eq, IH. split.
      * intros [-> [rest ->]]. now exists rest.
      * intros [rest [= -> ->]]. split; [reflexivity|now exists rest].
Qed.

(** [has_path_prefix] always returns, and its answer is that of the
    comparison of segments. *)
Lemma has_path_prefix_total (str prefix : list byte) :
  has_path_prefix str prefix
  = Some (initialb (segments prefix) (segments str)).
Proof.
  unfold has_path_prefix, segments.
  rewrite <- has_path_prefix_loop_c_str.
  rewrite has_path_prefix_loop_spec;
    try apply c_str_is_nul_free; [reflexivity|].
  unfold c_str, memcpy. rewrite length_firstn.
  pose proof (strlen_le prefix). lia.
Qed.

End PathPrefix.

(** ** Validation of an envelope *)

Section ValidateData.

Import Utils Trials.

Variable ssl : OpenSSL.

(** Keys that reject are passed over: each leaves its debug line, and
    the loop goes on with the next key. *)
Lemma validate_data_loop_skip (before rest : list EVP_PKEY)
      (sig to_sign : list byte) :
  forall i,
    all_reject ssl i before sig to_sign ->
    validate_data_loop ssl i (before ++ rest) sig to_sign
    = let '(valid, error, log) :=
        validate_data_loop ssl (i + length before) rest sig to_sign in
      (valid, error, map (fun _ => return_code 0) before ++ log).
Proof.
  induction before as [|key before IH]; intros i H.
  - simpl. rewrite Nat.add_0_r.
    now destruct (validate_data_loop ssl i rest sig to_sign) as [[? ?] ?].
  - destruct H as [(Hctx & Hinit & Hres) H].
    cbn [app validate_data_loop]. rewrite Hctx. cbn [negb].
    apply Z.eqb_neq in Hinit. rewrite Hinit, Hres. cbn.
    rewrite (IH _ H).
    replace (i + S (length before)) with (S i + length before) by lia.
    now destruct (validate_data_loop ssl (S i + length before) rest
                                     sig to_sign) as [[? ?] ?].
Qed.

Lemma validate_data_loop_accept (key : EVP_PKEY) (rest : list EVP_PKEY)
      (sig to_sign : list byte) (i : nat) :
  accepts ssl i key sig to_sign ->
  validate_data_loop ssl i (key :: rest) sig to_sign
  = (true, None, [return_code 1]).
Proof.
  intros (Hctx & Hinit & Hres). cbn [validate_data_loop].
  rewrite Hctx. apply Z.eqb_neq in Hinit. now rewrite Hinit, Hres.
Qed.

Lemma validate_data_loop_fail (key : EVP_PKEY) (rest : list EVP_PKEY)
      (sig to_sign : list byte) (i : nat) :
  engine_fails ssl i key sig to_sign ->
  exists log,
    validate_data_loop ssl i (key :: rest) sig to_sign
    = (false, Some G_FILE_ERROR_FAILED, log)
    /\ length log <= 1.
Proof.
  intros H. cbn [validate_data_loop].
  destruct (EVP_MD_CTX_new ssl i) eqn:Hctx; cbn [negb];
    [|eexists; split; [reflexivity|simpl; lia]].
  destruct (Z.eqb_spec (EVP_DigestVerifyInit ssl key) 0) as [Hinit|Hinit];
    [eexists; split; [reflexivity|simpl; lia]|].
  destruct H as [H|[H|[H1 H0]]]; [congruence|congruence|].
  apply Z.eqb_neq in H1, H0. rewrite H1, H0. cbn [negb].
  eexists; split; [reflexivity|simpl; lia].
Qed.

Lemma validate_data_loop_true (sig to_sign : list byte)
      (keys : list EVP_PKEY) :
  forall i error log,
    validate_data_loop ssl i keys sig to_sign = (true, error, log) ->
    error = None
    /\ exists before key after,
        keys = before ++ key :: after
        /\ all_reject ssl i before sig to_sign
        /\ accepts ssl (i + length before) key sig to_sign.
Proof.
  induction keys as [|key keys IH]; intros i error log; [discriminate|].
  cbn [validate_data_loop].
  destruct (EVP_MD_CTX_new ssl i) eqn:Hctx; cbn [negb]; [|discriminate].
  destruct (Z.eqb_spec (EVP_DigestVerifyInit ssl key) 0) as [|Hinit];
    [discriminate|].
  destruct (Z.eqb_spec (EVP_DigestVerify ssl key sig to_sign) 1) as [H1|H1].
  - intros [= <- <-]. split; [reflexivity|].
    exists [], key, keys. rewrite Nat.add_0_r.
    split; [reflexivity|]. split; [exact I|]. now repeat split.
  - destruct (Z.eqb_spec (EVP_DigestVerify ssl key sig to_sign) 0) as [H0|H0];
      cbn [negb]; [|discriminate].
    destruct (validate_data_loop ssl (S i) keys sig to_sign)
      as [[valid error'] log'] eqn:L.
    intros [= -> -> <-].
    destruct (IH _ _ _ L) as (-> & before & k & after & -> & R & A).
    split; [reflexivity|].
    exists (key :: before), k, after.
    replace (i + length (key :: before)) with (S i + length before)
      by (simpl; lia).
    split; [reflexivity|]. split; [|exact A].
    split; [now repeat split|exact R].
Qed.

Lemma validate_data_loop_no_error (sig to_sign : list byte)
      (keys : list EVP_PKEY) :
  forall i log,
    validate_data_loop ssl i keys sig to_sign = (false, None, log) ->
    all_reject ssl i keys sig to_sign
    /\ log = map (fun _ => return_code 0) keys.
Proof.
  induction keys as [|key keys IH]; intros i log.
  - intros [= <-]. now split.
  - cbn [validate_data_loop].
    destruct (EVP_MD_CTX_new ssl i) eqn:Hctx; cbn [negb]; [|discriminate].
    destruct (Z.eqb_spec (EVP_DigestVerifyInit ssl key) 0) as [|Hinit];
      [discriminate|].
    destruct (Z.eqb_spec (EVP_DigestVerify ssl key sig to_sign) 1);
      [discriminate|].
    destruct (Z.eqb_spec (EVP_DigestVerify ssl key sig to_sign) 0) as [H0|H0];
      cbn [negb]; [|discriminate].
    destruct (validate_data_loop ssl (S i) keys sig to_sign)
      as [[valid error'] log'] eqn:L.
    intros [= -> -> <-].
    destruct (IH _ _ L) as [R ->]. rewrite H0.
    split; [|reflexivity]. split; [now repeat split|exact R].
Qed.

Lemma validate_data_loop_error (sig to_sign : list byte)
      (keys : list EVP_PKEY) :
  forall i,
    snd (fst (validate_data_loop ssl i keys sig to_sign)) = None
    \/ snd (fst (validate_data_loop ssl i keys sig to_sign))
       = Some G_FILE_ERROR_FAILED.
Proof.
  induction keys as [|key keys IH]; intros i; [now left|].
  cbn [validate_data_loop].
  destruct (EVP_MD_CTX_new ssl i); cbn [negb]; [|now right].
  destruct (EVP_DigestVerifyInit ssl key =? 0)%Z; [now right|].
  destruct (EVP_DigestVerify ssl key sig to_sign =? 1)%Z; [now left|].
  destruct (EVP_DigestVerify ssl key sig to_sign =? 0)%Z; cbn [negb];
    [|now right].
  specialize (IH (S i)).
  now destruct (validate_data_loop ssl (S i) keys sig to_sign) as [[? ?] ?].
Qed.

(** The magic test of [validate_data]. *)
Lemma magic_test (magic sig : list byte) :
  (length sig <? length magic)
  || negb (memcmp_eq sig magic (length magic)) = false
  <-> length magic <= length sig /\ firstn (length magic) sig = magic.
Proof.
  unfold memcmp_eq. rewrite firstn_all.
  rewrite orb_false_iff, Nat.ltb_ge, negb_false_iff, bytes_eqb_eq.
  reflexivity.
Qed.

End ValidateData.

Section ValidateDataOutcomes.

Import Utils Trials.

(** Whatever the engine answers, the keys either all reject, or there
    is a first key that does not, and it accepts or fails. *)
Lemma trial_cases (ssl : OpenSSL) (sig to_sign : list byte)
      (keys : list EVP_PKEY) :
  forall i,
    all_reject ssl i keys sig to_sign
    \/ exists before key after,
        keys = before ++ key :: after
        /\ all_reject ssl i before sig to_sign
        /\ (accepts ssl (i + length before) key sig to_sign
            \/ engine_fails ssl (i + length before) key sig to_sign).
Proof.
  induction keys as [|key keys IH]; intros i; [now left|].
  assert (D : rejects ssl i key sig to_sign
              \/ accepts ssl i key sig to_sign
              \/ engine_fails ssl i key sig to_sign).
  { unfold rejects, accepts, engine_fails.
    destruct (EVP_MD_CTX_new ssl i); [|tauto].
    destruct (Z.eq_dec (EVP_DigestVerifyInit ssl key) 0); [tauto|].
    destruct (Z.eq_dec (EVP_DigestVerify ssl key sig to_sign) 0);
      [tauto|].
    destruct (Z.eq_dec (EVP_DigestVerify ssl key sig to_sign) 1);
      tauto. }
  destruct D as [R|D].
  - destruct (IH (S i)) as [A|(before & k & after & -> & A & D)].
    + left. now split.
    + right. exists (key :: before), k, after.
      replace (i + length (key :: before)) with (S i + length before)
        by (simpl; lia).
      split; [reflexivity|]. split; [now split|assumption].
  - right. exists [], key, keys. simpl. rewrite Nat.add_0_r.
    split; [reflexivity|]. split; [exact I|assumption].
Qed.

(** C3.  [validate_data] returns FALSE at once, with no key tried, when
    the envelope is shorter than the marker or does not start with it.
    Otherwise it takes the marker off and rebuilds the blob.  For a type
    that is neither regular file nor symlink there is no blob: it
    returns FALSE with the error of [make_sign_blob], and no key is
    tried.  For a regular file or a symlink it tries the keys in order:
    the keys that reject are passed over; the first key that accepts
    makes it return TRUE; the first key on which the engine fails makes
    it return FALSE with an error; and when every key rejects it returns
    FALSE with no error.  The debug lines show which keys were tried.
    It returns TRUE in no other case: only when a key accepts, every key
    before it having rejected; and it returns FALSE with no error only
    when every key has rejected. *)
Theorem validate_data_outcomes :
  forall (ssl : OpenSSL) (magic rel_path content sig : list byte)
         (type : Z) (pub_keys : list EVP_PKEY),
    let dbg := g_debug "Validating signature of: %s" [AStr rel_path] in
    let sig' := skipn (length magic) sig in
    let result :=
      validate_data ssl magic rel_path type content sig pub_keys in
    (length sig < length magic \/ firstn (length magic) sig <> magic ->
     result = (false, Some G_FILE_ERROR_INVAL,
               [dbg; g_debug "   Invalid signature size or value" []]))
    /\ (length magic <= length sig ->
        firstn (length magic) sig = magic ->
        (type <> S_IFREG -> type <> S_IFLNK ->
         result = (false, Some G_FILE_ERROR_INVAL,
                   [dbg; g_debug "   Nothing to sign" []]))
        /\ (type = S_IFREG \/ type = S_IFLNK ->
            exists to_sign,
              make_sign_blob rel_path type content = inr to_sign
              /\ (forall before key after,
                     pub_keys = before ++ key :: after ->
                     all_reject ssl 0 before sig' to_sign ->
                     accepts ssl (length before) key sig' to_sign ->
                     result = (true, None,
                               dbg :: map (fun _ => return_code 0) before
                                   ++ [return_code 1]))
              /\ (forall before key after,
                     pub_keys = before ++ key :: after ->
                     all_reject ssl 0 before sig' to_sign ->
                     engine_fails ssl (length before) key sig' to_sign ->
                     exists log,
                       result = (false, Some G_FILE_ERROR_FAILED,
                                 dbg :: map (fun _ => return_code 0) before
                                     ++ log)
                       /\ length log <= 1)
              /\ (all_reject ssl 0 pub_keys sig' to_sign ->
                  result = (false, None,
                            dbg :: map (fun _ => return_code 0) pub_keys))))
    /\ (forall error log,
           result = (true, error, log) ->
           error = None
           /\ length magic <= length sig
           /\ firstn (length magic) sig = magic
           /\ (type = S_IFREG \/ type = S_IFLNK)
           /\ exists to_sign before key after,
               make_sign_blob rel_path type content = inr to_sign
               /\ pub_keys = before ++ key :: after
               /\ all_reject ssl 0 before sig' to_sign
               /\ accepts ssl (length before) key sig' to_sign)
    /\ (forall log,
           result = (false, None, log) ->
           length magic <= length sig
           /\ firstn (length magic) sig = magic
           /\ (type = S_IFREG \/ type = S_IFLNK)
           /\ exists to_sign,
               make_sign_blob rel_path type content = inr to_sign
               /\ all_reject ssl 0 pub_keys sig' to_sign).
Proof.
  intros ssl magic rel_path content sig type pub_keys dbg sig' result.
  subst result. unfold validate_data. fold dbg.
  split; [|split; [|split]].
  - intros H.
    destruct ((length sig <? length magic)
              || negb (memcmp_eq sig magic (length magic))) eqn:T;
      [reflexivity|].
    apply magic_test in T. destruct T as [T1 T2].
    destruct H as [H|H]; [lia|contradiction].
  - intros L P.
    rewrite (proj2 (magic_test magic sig) (conj L P)). split.
    + intros N1 N2. now rewrite (make_sign_blob_other _ _ _ N1 N2).
    + intros Ty.
      assert (B : exists to_sign,
                 make_sign_blob rel_path type content = inr to_sign).
      { destruct Ty as [-> | ->]; eexists; reflexivity. }
      destruct B as [to_sign B]. exists to_sign.
      split; [exact B|]. rewrite B. fold sig'.
      split; [|split].
      * intros before key after -> R A.
        rewrite (validate_data_loop_skip ssl before _ _ _ 0 R).
        cbn [Nat.add].
        now rewrite (validate_data_loop_accept ssl _ _ _ _ _ A).
      * intros before key after -> R F.
        rewrite (validate_data_loop_skip ssl before _ _ _ 0 R).
        cbn [Nat.add].
        destruct (validate_data_loop_fail ssl _ after _ _ _ F)
          as (log & -> & Hlog).
        exists log. now split.
      * intros R.
        rewrite <- (app_nil_r pub_keys) at 1.
        rewrite (validate_data_loop_skip ssl pub_keys _ _ _ 0 R).
        cbn. now rewrite app_nil_r.
  - intros error log.
    destruct ((length sig <? length magic)
              || negb (memcmp_eq sig magic (length magic))) eqn:T;
      [discriminate|].
    apply magic_test in T. destruct T as [T1 T2].
    destruct (make_sign_blob rel_path type content) as [e|to_sign] eqn:B;
      [discriminate|].
    fold sig'.
    destruct (validate_data_loop ssl 0 pub_keys sig' to_sign)
      as [[valid error'] log'] eqn:L.
    intros [= -> -> <-].
    destruct (validate_data_loop_true _ _ _ _ _ _ _ L)
      as (-> & before & key & after & -> & R & A).
    split; [reflexivity|]. split; [exact T1|]. split; [exact T2|].
    split.
    + destruct (make_sign_blob_inr _ _ _ _ B) as [[-> _]|[-> _]]; auto.
    + exists to_sign, before, key, after. auto.
  - intros log.
    destruct ((length sig <? length magic)
              || negb (memcmp_eq sig magic (length magic))) eqn:T;
      [discriminate|].
    apply magic_test in T. destruct T as [T1 T2].
    destruct (make_sign_blob rel_path type content) as [e|to_sign] eqn:B;
      [discriminate|].
    fold sig'.
    destruct (validate_data_loop ssl 0 pub_keys sig' to_sign)
      as [[valid error'] log'] eqn:L.
    intros [= -> -> <-].
    destruct (validate_data_loop_no_error _ _ _ _ _ _ L) as [R _].
    split; [exact T1|]. split; [exact T2|]. split.
    + destruct (make_sign_blob_inr _ _ _ _ B) as [[-> _]|[-> _]]; auto.
    + exists to_sign. auto.
Qed.

(** With the example engine and the keys 5 and 3: key 5 rejects the
    envelope signed with key 3 and is passed over, key 3 accepts.  The
    same envelope given for a directory: nothing to sign, no key is
    tried and the answer is FALSE. *)
Lemma validate_data_outcomes_witness :
  validate_data Examples.ssl Examples.magic (lit "a/b") S_IFREG
                (lit "digest")
                (Examples.magic
                   ++ Examples.toy_signature 3
                        ([x00] ++ lit "a/b" ++ [x00] ++ lit "digest"))
                [5; 3]
  = (true, None,
     [g_debug "Validating signature of: %s" [AStr (lit "a/b")];
      return_code 0; return_code 1])
  /\ validate_data Examples.ssl Examples.magic (lit "a/b") S_IFDIR
                   (lit "digest")
                   (Examples.magic
                      ++ Examples.toy_signature 3
                           ([x00] ++ lit "a/b" ++ [x00] ++ lit "digest"))
                   [5; 3]
     = (false, Some G_FILE_ERROR_INVAL,
        [g_debug "Validating signature of: %s" [AStr (lit "a/b")];
         g_debug "   Nothing to sign" []]).
Proof.
  split.
  - pose proof (validate_data_outcomes
                  Examples.ssl Examples.magic (lit "a/b") (lit "digest")
                  (Examples.magic
                     ++ Examples.toy_signature 3
                          ([x00] ++ lit "a/b" ++ [x00] ++ lit "digest"))
                  S_IFREG [5; 3]) as (_ & H & _).
    specialize (H ltac:(vm_compute; lia) eq_refl).
    destruct H as [_ H].
    destruct (H (or_introl eq_refl)) as (to_sign & B & A & _).
    vm_compute in B. injection B as <-.
    apply (A [5] 3 []).
    + reflexivity.
    + vm_compute. repeat split; discriminate.
    + vm_compute. repeat split; discriminate.
  - pose proof (validate_data_outcomes
                  Examples.ssl Examples.magic (lit "a/b") (lit "digest")
                  (Examples.magic
                     ++ Examples.toy_signature 3
                          ([x00] ++ lit "a/b" ++ [x00] ++ lit "digest"))
                  S_IFDIR [5; 3]) as (_ & H & _).
    specialize (H ltac:(vm_compute; lia) eq_refl).
    destruct H as [H _].
    apply H; discriminate.
Defined.

End ValidateDataOutcomes.

(** ** Signing, then validating *)

Section RoundTrip.

Import Utils Trials.

Lemma sign_data_inr (ssl : OpenSSL) (magic rel_path content envelope : list byte)
      (type : Z) (pkey : EVP_PKEY) :
  sign_data ssl magic type rel_path content pkey = inr envelope ->
  exists to_sign signature n,
    make_sign_blob rel_path type content = inr to_sign
    /\ EVP_DigestSign ssl pkey to_sign n = Some signature
    /\ envelope = magic ++ signature.
Proof.
  unfold sign_data.
  destruct (make_sign_blob rel_path type content) as [e|to_sign];
    [discriminate|].
  destruct (negb (EVP_MD_CTX_new ssl 0)); [discriminate|].
  destruct (EVP_DigestSignInit ssl pkey =? 0)%Z; [discriminate|].
  destruct (EVP_DigestSign_size ssl pkey to_sign) as [n|]; [|discriminate].
  destruct (EVP_DigestSign ssl pkey to_sign n) as [signature|] eqn:S;
    [|discriminate].
  intros [= <-]. exists to_sign, signature, n.
  unfold memcpy. now rewrite firstn_all.
Qed.

(** The verifier finds the marker the signer put, and what is left
    after it is the signature. *)
Lemma envelope_marker (magic signature : list byte) :
  length magic <= length (magic ++ signature)
  /\ firstn (length magic) (magic ++ signature) = magic
  /\ skipn (length magic) (magic ++ signature) = signature.
Proof.
  rewrite length_app. split; [lia|]. split.
  - rewrite firstn_app, Nat.sub_diag, firstn_all. simpl.
    apply app_nil_r.
  - rewrite skipn_app, Nat.sub_diag, skipn_all. reflexivity.
Qed.

Lemma validate_data_loop_first_match (ssl : OpenSSL)
      (before after : list EVP_PKEY) (key : EVP_PKEY)
      (sig to_sign : list byte) :
  forall i,
    all_answer ssl i (before ++ [key]) sig to_sign ->
    EVP_DigestVerify ssl key sig to_sign = 1%Z ->
    exists log,
      validate_data_loop ssl i (before ++ key :: after) sig to_sign
      = (true, None, log).
Proof.
  induction before as [|k before IH]; intros i A V.
  - destruct A as [(Hctx & Hinit & _) _].
    eexists. apply validate_data_loop_accept. now repeat split.
  - destruct A as [(Hctx & Hinit & Hres) A].
    cbn [app validate_data_loop]. rewrite Hctx. cbn [negb].
    apply Z.eqb_neq in Hinit. rewrite Hinit.
    destruct Hres as [Hres|Hres]; rewrite Hres; cbn.
    + destruct (IH _ A V) as [log ->]. eauto.
    + eauto.
Qed.

(** C2, as the code has it.  The envelope [sign_data] produces for a
    regular file or symlink validates against the same type, relative
    path and content, when the trusted keys hold the public key of the
    signing key, the primitive verifies with that key what it signs, and
    the engine does not fail on that key or on a key tried before it.
    Signer and verifier build the same blob, and the verifier takes off
    exactly the marker the signer put. *)
Theorem sign_then_validate :
  forall (ssl : OpenSSL) (magic rel_path content envelope : list byte)
         (type : Z) (priv pub : EVP_PKEY) (before after : list EVP_PKEY),
    sign_data ssl magic type rel_path content priv = inr envelope ->
    (forall tbs n signature,
        EVP_DigestSign ssl priv tbs n = Some signature ->
        EVP_DigestVerify ssl pub signature tbs = 1%Z) ->
    (forall to_sign,
        make_sign_blob rel_path type content = inr to_sign ->
        all_answer ssl 0 (before ++ [pub])
                   (skipn (length magic) envelope) to_sign) ->
    (exists log,
        validate_data ssl magic rel_path type content envelope
                      (before ++ pub :: after)
        = (true, None, log))
    /\ (type = S_IFREG \/ type = S_IFLNK)
    /\ exists to_sign signature n,
        make_sign_blob rel_path type content = inr to_sign
        /\ EVP_DigestSign ssl priv to_sign n = Some signature
        /\ envelope = magic ++ signature
        /\ skipn (length magic) envelope = signature.
Proof.
  intros ssl magic rel_path content envelope type priv pub before after
         S P A.
  destruct (sign_data_inr _ _ _ _ _ _ _ S)
    as (to_sign & signature & n & B & Sg & ->).
  destruct (envelope_marker magic signature) as (L & F & K).
  specialize (A _ B). rewrite K in A.
  split; [|split].
  - unfold validate_data.
    rewrite (proj2 (magic_test magic (magic ++ signature)) (conj L F)).
    rewrite B, K.
    destruct (validate_data_loop_first_match
                ssl before after pub signature to_sign 0 A (P _ _ _ Sg))
      as [log ->].
    eauto.
  - destruct (make_sign_blob_inr _ _ _ _ B) as [[-> _]|[-> _]]; auto.
  - exists to_sign, signature, n. auto.
Qed.

(** The example engine verifies with key 3 what it signs with it. *)
Lemma example_engine_verifies (tbs signature : list byte) (n : nat) :
  EVP_DigestSign Examples.ssl 3 tbs n = Some signature ->
  EVP_DigestVerify Examples.ssl 3 signature tbs = 1%Z.
Proof.
  unfold Examples.ssl. cbn [EVP_DigestSign EVP_DigestVerify].
  destruct (n <? 3 + length tbs); [discriminate|].
  intros E. injection E as <-.
  change (3 =? 0) with false. cbv iota.
  now rewrite bytes_eqb_refl.
Qed.

(** The example engine, key 3, trusted keys 5 and 3. *)
Lemma sign_then_validate_witness :
  exists envelope log,
    sign_data Examples.ssl Examples.magic S_IFLNK (lit "a/link")
              (lit "../target") 3 = inr envelope
    /\ validate_data Examples.ssl Examples.magic (lit "a/link") S_IFLNK
                     (lit "../target") envelope [5; 3]
       = (true, None, log).
Proof.
  eexists.
  destruct (sign_then_validate
              Examples.ssl Examples.magic (lit "a/link") (lit "../target")
              _ S_IFLNK 3 3 [5] [] eq_refl) as [[log H] _].
  - intros tbs n signature. apply example_engine_verifies.
  - intros to_sign E. vm_compute in E. injection E as <-.
    vm_compute. repeat split; try discriminate; auto.
  - exists log. split; [reflexivity|exact H].
Defined.

(** C2 as stated fails: the matching key is trusted and the primitive
    verifies with it what it signs, contexts are always allocated and
    every key initialises, yet validation fails, because a key tried
    first makes the engine report an error. *)
Lemma round_trip_counterexample :
  ~ (forall (ssl : OpenSSL) (magic rel_path content envelope : list byte)
            (type : Z) (priv pub : EVP_PKEY) (pub_keys : list EVP_PKEY),
        sign_data ssl magic type rel_path content priv = inr envelope ->
        In pub pub_keys ->
        (forall tbs n signature,
            EVP_DigestSign ssl priv tbs n = Some signature ->
            EVP_DigestVerify ssl pub signature tbs = 1%Z) ->
        (forall i, EVP_MD_CTX_new ssl i = true) ->
        (forall key, EVP_DigestVerifyInit ssl key <> 0%Z) ->
        fst (fst (validate_data ssl magic rel_path type content envelope
                                pub_keys)) = true).
Proof.
  intros H.
  assert (T : fst (fst (validate_data
                          Examples.ssl Examples.magic (lit "a/b") S_IFREG
                          (lit "digest")
                          (Examples.magic
                             ++ Examples.toy_signature 3
                                  ([x00] ++ lit "a/b" ++ [x00]
                                         ++ lit "digest"))
                          [0; 3])) = true).
  { apply (H Examples.ssl Examples.magic (lit "a/b") (lit "digest")
             _ S_IFREG 3 3 [0; 3]).
    - reflexivity.
    - simpl. auto.
    - intros tbs n signature. apply example_engine_verifies.
    - reflexivity.
    - discriminate. }
  vm_compute in T. discriminate.
Qed.

End RoundTrip.

(** ** Scoping by path segments *)

Section Scope.

Import Utils PathSpec ScopeSpec.





End Scope.

(** ** Loading the trusted keys *)

Section KeyDir.

Import Utils KeySpec.

Lemma load_pub_keys_loop_ok (files : list (list byte * key_file)) :
  forall keys,
    Forall (fun f => usable (snd f)) files ->
    load_pub_keys_loop files keys = inr (rev (parsed_keys files) ++ keys).
Proof.
  induction files as [|[name file] files IH]; intros keys H;
    [reflexivity|].
  inversion H as [|? ? U H']; subst. simpl in U.
  cbn [load_pub_keys_loop parsed_keys snd].
  destruct U as [[pkey E]|[E|E]]; rewrite E.
  - rewrite (IH _ H'). unfold g_list_prepend. simpl.
    now rewrite <- app_assoc.
  - simpl. apply (IH _ H').
  - simpl. apply (IH _ H').
Qed.

Lemma load_pub_keys_loop_fatal (before after : list (list byte * key_file))
      (name : list byte) (file : key_file) (e : GError) :
  forall keys,
    Forall (fun f => usable (snd f)) before ->
    load_pub_key file = inl e ->
    e <> G_FILE_ERROR_NOENT -> e <> G_FILE_ERROR_ISDIR ->
    load_pub_keys_loop (before ++ (name, file) :: after) keys
    = inl (Handed e).
Proof.
  induction before as [|[n f] before IH]; intros keys H E N1 N2.
  - cbn [app load_pub_keys_loop]. rewrite E.
    unfold g_error_matches.
    destruct (GFileError_eq_dec e G_FILE_ERROR_NOENT); [contradiction|].
    destruct (GFileError_eq_dec e G_FILE_ERROR_ISDIR); [contradiction|].
    reflexivity.
  - inversion H as [|? ? U H']; subst. simpl in U.
    cbn [app load_pub_keys_loop].
    destruct U as [[pkey U]|[U|U]]; rewrite U; simpl; now apply IH.
Qed.

Lemma load_pub_keys_loop_inr (files : list (list byte * key_file)) :
  forall keys result,
    load_pub_keys_loop files keys = inr result ->
    result = rev (parsed_keys files) ++ keys.
Proof.
  induction files as [|[name file] files IH]; intros keys result.
  - simpl. congruence.
  - cbn [load_pub_keys_loop parsed_keys].
    destruct (load_pub_key file) as [e|pkey].
    + destruct (negb (g_error_matches e G_FILE_ERROR_NOENT)
                && negb (g_error_matches e G_FILE_ERROR_ISDIR));
        [discriminate|apply IH].
    + intros H. apply IH in H. subst result.
      unfold g_list_prepend. simpl. now rewrite <- app_assoc.
Qed.

(** [g_file_error_from_errno] gives the not-found and is-a-directory
    codes for ENOENT and EISDIR only. *)
Lemma g_file_error_from_errno_passed (e : errno) :
  (g_file_error_from_errno e = G_FILE_ERROR_NOENT <-> e = ENOENT)
  /\ (g_file_error_from_errno e = G_FILE_ERROR_ISDIR <-> e = EISDIR).
Proof.
  destruct e; split; split; intros H; try discriminate H; reflexivity.
Qed.

(** C6, as the code has it.  A missing key directory gives the empty
    collection and success.  In a directory that opens, a file that
    fails as not found or as a directory is passed over; the first file
    that fails in any other way stops the load, which returns FALSE and
    hands that error to the caller: a file that cannot be opened for any
    other reason, with the code of its [errno], and a file that opens
    and does not parse as a key, with the invalid-argument code. *)
Theorem load_pub_keys_from_dir_failures :
  load_pub_keys_from_dir (inl G_FILE_ERROR_NOENT) = inr []
  /\ (forall files,
         Forall (fun f => usable (snd f)) files ->
         load_pub_keys_from_dir (inr files)
         = inr (rev (parsed_keys files)))
  /\ (forall before name file after e,
         Forall (fun f => usable (snd f)) before ->
         load_pub_key file = inl e ->
         e <> G_FILE_ERROR_NOENT -> e <> G_FILE_ERROR_ISDIR ->
         load_pub_keys_from_dir (inr (before ++ (name, file) :: after))
         = inl (Handed e))
  /\ (forall before name after (e : errno),
         Forall (fun f => usable (snd f)) before ->
         e <> ENOENT -> e <> EISDIR ->
         load_pub_keys_from_dir
           (inr (before ++ (name, FopenFails e) :: after))
         = inl (Handed (g_file_error_from_errno e)))
  /\ (forall before name after,
         Forall (fun f => usable (snd f)) before ->
         load_pub_keys_from_dir (inr (before ++ (name, PemFails) :: after))
         = inl (Handed G_FILE_ERROR_INVAL)).
Proof.
  split; [reflexivity|]. split; [|split; [|split]].
  - intros files H. unfold load_pub_keys_from_dir.
    rewrite (load_pub_keys_loop_ok _ _ H). now rewrite app_nil_r.
  - intros before name file after e H E N1 N2.
    now apply load_pub_keys_loop_fatal.
  - intros before name after e H N1 N2.
    apply load_pub_keys_loop_fatal; try assumption; [reflexivity| |].
    + intros C. now apply (g_file_error_from_errno_passed e) in C.
    + intros C. now apply (g_file_error_from_errno_passed e) in C.
  - intros before name after H.
    apply load_pub_keys_loop_fatal; try assumption;
      [reflexivity|discriminate|discriminate].
Qed.

(** A directory with a name that is gone when opened, a key, and a file
    that is no key: the load stops at the last one.  With a socket in
    its place the load stops as well, with the code of ENXIO. *)
Lemma load_pub_keys_from_dir_failures_witness :
  load_pub_keys_from_dir
    (inr [(lit "gone", FopenFails ENOENT); (lit "k.pem", PemKey 5);
          (lit "README", PemFails); (lit "l.pem", PemKey 7)])
  = inl (Handed G_FILE_ERROR_INVAL)
  /\ load_pub_keys_from_dir
       (inr [(lit "gone", FopenFails ENOENT); (lit "k.pem", PemKey 5);
             (lit "socket", FopenFails ENXIO); (lit "l.pem", PemKey 7)])
     = inl (Handed G_FILE_ERROR_NXIO).
Proof.
  assert (U : Forall (fun f => KeySpec.usable (snd f))
                [(lit "gone", FopenFails ENOENT); (lit "k.pem", PemKey 5)]).
  { apply Forall_cons; [right; left; reflexivity|].
    apply Forall_cons; [left; exists 5; reflexivity|].
    apply Forall_nil. }
  destruct load_pub_keys_from_dir_failures as (_ & _ & _ & F & P).
  split.
  - apply (P [(lit "gone", FopenFails ENOENT); (lit "k.pem", PemKey 5)]
             (lit "README") [(lit "l.pem", PemKey 7)] U).
  - apply (F [(lit "gone", FopenFails ENOENT); (lit "k.pem", PemKey 5)]
             (lit "socket") [(lit "l.pem", PemKey 7)] ENXIO U);
      discriminate.
Defined.

(** C6 as stated fails: every file of the directory opens, one of them
    does not parse as a key, and the load fails instead of passing it
    over. *)
Lemma unparsed_key_file_counterexample :
  ~ (forall files : list (list byte * key_file),
        (forall name e, ~ In (name, FopenFails e) files) ->
        exists keys, load_pub_keys_from_dir (inr files) = inr keys).
Proof.
  intros H.
  destruct (H [(lit "README", PemFails); (lit "k.pem", PemKey 5)])
    as [keys E].
  - intros name e [C|[C|[]]]; discriminate.
  - discriminate.
Qed.

(** C7, as the code has it.  The collection [load_pub_keys_from_dir]
    returns holds the keys in the reverse of the enumeration order:
    each key is put in front of those loaded before it, so the key of
    the first enumerated file is the last of the collection. *)
Theorem load_pub_keys_from_dir_order :
  forall (files : list (list byte * key_file)) (keys : list EVP_PKEY),
    load_pub_keys_from_dir (inr files) = inr keys ->
    keys = rev (parsed_keys files)
    /\ (forall name pkey rest,
           files = (name, PemKey pkey) :: rest ->
           keys = rev (parsed_keys rest) ++ [pkey]).
Proof.
  intros files keys H. unfold load_pub_keys_from_dir in H.
  apply load_pub_keys_loop_inr in H. rewrite app_nil_r in H.
  split; [exact H|].
  intros name pkey rest ->. exact H.
Qed.

Lemma load_pub_keys_from_dir_order_witness :
  load_pub_keys_from_dir
    (inr [(lit "a.pem", PemKey 5); (lit "sub", FopenFails EISDIR);
          (lit "b.pem", PemKey 7)]) = inr [7; 5]
  /\ [7; 5] = rev (parsed_keys
                     [(lit "a.pem", PemKey 5); (lit "sub", FopenFails EISDIR);
                      (lit "b.pem", PemKey 7)]).
Proof.
  split; [reflexivity|].
  apply (load_pub_keys_from_dir_order
           [(lit "a.pem", PemKey 5); (lit "sub", FopenFails EISDIR);
            (lit "b.pem", PemKey 7)] [7; 5] eq_refl).
Defined.

(** C7 as stated fails: two key files, and the key of the first one
    enumerated comes last. *)
Lemma enumeration_order_counterexample :
  ~ (forall (files : list (list byte * key_file)) (keys : list EVP_PKEY),
        load_pub_keys_from_dir (inr files) = inr keys ->
        keys = parsed_keys files).
Proof.
  intros H.
  specialize (H [(lit "a.pem", PemKey 5); (lit "b.pem", PemKey 7)]
                [7; 5] eq_refl).
  discriminate.
Qed.

End KeyDir.


(** ** The walk over a tree *)

Section Walk.

Import WalkSpec.

Lemma fsnode_induction (P : fsnode -> Prop) :
  (forall e, P (LstatFails e)) ->
  (forall st_mode leaf dir_error children,
      Forall (fun entry => P (snd entry)) children ->
      P (Inode st_mode leaf dir_error children)) ->
  forall n, P n.
Proof.
  intros H1 H2. fix IH 1. intros [e|st_mode leaf dir_error children].
  - apply H1.
  - apply H2. induction children as [|[name c] l IHl].
    + constructor.
    + constructor; [apply IH|apply IHl].
Qed.

(** The loop over a directory, whatever the visit of a child is:
    the value is the AND of the children's values, the events are
    theirs in order; a child that fails does not stop the loop. *)
Lemma walk_entries_spec (visit : list byte -> fsnode -> bool * list event)
      (path : list byte) (entries : list (list byte * fsnode)) :
  forall success,
    walk_entries visit path entries success
    = (success && all_succeed (child_results visit path entries),
       all_events (child_results visit path entries)).
Proof.
  unfold all_succeed, all_events, child_results, visited, is_envelope_name.
  induction entries as [|[child cn] rest IH]; intros success.
  - simpl. now rewrite andb_true_r.
  - cbn [walk_entries filter fst].
    destruct (g_str_has_suffix child (lit ".sig")); cbn [negb].
    + apply IH.
    + cbn [map forallb concat snd fst].
      destruct (visit (g_build_filename path child) cn) as [ok log].
      rewrite IH. cbn [fst snd].
      destruct ok, success; reflexivity.
Qed.

Section WithMain.

Variable ssl : OpenSSL.
Variable magic : list byte.
Variable M : Main.

Let sign := Sign.sign ssl magic M.
Let validate := Validate.validate ssl magic M.

(** [sign] on a directory that opens is the loop over its entries. *)
Lemma sign_directory (path relative_to : list byte) (st_mode : Z)
      (leaf : Utils.leaf_obs) (children : list (list byte * fsnode)) :
  Z.land st_mode S_IFMT = S_IFDIR ->
  sign path relative_to (Inode st_mode leaf None children)
  = let '(success, log) :=
      walk_entries (fun p n => sign p relative_to n) path children true in
    (success, g_debug "Signing %s" [AStr path] :: log).
Proof.
  intros T. unfold sign. cbn [Sign.sign]. rewrite T.
  reflexivity.
Qed.

Lemma validate_directory (path relative_to : list byte) (st_mode : Z)
      (leaf : Utils.leaf_obs) (children : list (list byte * fsnode)) :
  Z.land st_mode S_IFMT = S_IFDIR ->
  validate path relative_to (Inode st_mode leaf None children)
  = let '(success, log) :=
      walk_entries (fun p n => validate p relative_to n) path children
                   true in
    (success, g_debug "Validating %s" [AStr path] :: log).
Proof.
  intros T. unfold validate. cbn [Validate.validate]. rewrite T.
  reflexivity.
Qed.

Lemma sign_directory_results (path relative_to : list byte) (st_mode : Z)
      (leaf : Utils.leaf_obs) (children : list (list byte * fsnode)) :
  Z.land st_mode S_IFMT = S_IFDIR ->
  sign path relative_to (Inode st_mode leaf None children)
  = (all_succeed
       (child_results (fun p n => sign p relative_to n) path children),
     g_debug "Signing %s" [AStr path]
             :: all_events
                  (child_results (fun p n => sign p relative_to n)
                                 path children)).
Proof.
  intros T. rewrite (sign_directory _ _ _ _ _ T).
  now rewrite walk_entries_spec.
Qed.

Lemma validate_directory_results (path relative_to : list byte)
      (st_mode : Z) (leaf : Utils.leaf_obs)
      (children : list (list byte * fsnode)) :
  Z.land st_mode S_IFMT = S_IFDIR ->
  validate path relative_to (Inode st_mode leaf None children)
  = (all_succeed
       (child_results (fun p n => validate p relative_to n) path children),
     g_debug "Validating %s" [AStr path]
             :: all_events
                  (child_results (fun p n => validate p relative_to n)
                                 path children)).
Proof.
  intros T. rewrite (validate_directory _ _ _ _ _ T).
  now rewrite walk_entries_spec.
Qed.

(** The loops of [cmd_sign] and [cmd_validate]: the status is that
    of the AND over all the roots. *)
Lemma cmd_sign_loop_status (roots : list root) :
  forall res,
    fst (Sign.cmd_sign_loop ssl magic M roots res)
    = if res && forallb (root_result (Sign.sign ssl magic M) M) roots
      then EXIT_SUCCESS else EXIT_FAILURE.
Proof.
  unfold root_result, visit_root, refused, relative_root.
  induction roots as [|r rest IH]; intros res.
  - simpl. now rewrite andb_true_r.
  - cbn [Sign.cmd_sign_loop forallb].
    destruct (root_is_dir r); cbn [andb negb].
    + destruct (opt_recursive M); cbn [negb andb];
        [|now rewrite andb_false_r].
      destruct (Sign.sign ssl magic M (root_path r) _ (root_node r))
        as [ok log].
      specialize (IH (if negb ok then false else res)).
      destruct (Sign.cmd_sign_loop ssl magic M rest _) as [status log'].
      cbn [fst] in *. rewrite IH. now destruct ok, res.
    + destruct (Sign.sign ssl magic M (root_path r) _ (root_node r))
        as [ok log].
      specialize (IH (if negb ok then false else res)).
      destruct (Sign.cmd_sign_loop ssl magic M rest _) as [status log'].
      cbn [fst] in *. rewrite IH. now destruct ok, res.
Qed.

Lemma cmd_validate_loop_status (roots : list root) :
  forall res,
    fst (Validate.cmd_validate_loop ssl magic M roots res)
    = if res
         && forallb (root_result (Validate.validate ssl magic M) M) roots
      then EXIT_SUCCESS else EXIT_FAILURE.
Proof.
  unfold root_result, visit_root, refused, relative_root.
  induction roots as [|r rest IH]; intros res.
  - simpl. now rewrite andb_true_r.
  - cbn [Validate.cmd_validate_loop forallb].
    destruct (root_is_dir r); cbn [andb negb].
    + destruct (opt_recursive M); cbn [negb andb];
        [|now rewrite andb_false_r].
      destruct (Validate.validate ssl magic M (root_path r) _
                                  (root_node r)) as [ok log].
      specialize (IH (if negb ok then false else res)).
      destruct (Validate.cmd_validate_loop ssl magic M rest _)
        as [status log'].
      cbn [fst] in *. rewrite IH. now destruct ok, res.
    + destruct (Validate.validate ssl magic M (root_path r) _
                                  (root_node r)) as [ok log].
      specialize (IH (if negb ok then false else res)).
      destruct (Validate.cmd_validate_loop ssl magic M rest _)
        as [status log'].
      cbn [fst] in *. rewrite IH. now destruct ok, res.
Qed.

(** When no root is refused, every root is walked, whatever the
    roots before it gave. *)
Lemma cmd_sign_loop_events (roots : list root) :
  forallb (fun r => negb (refused M r)) roots = true ->
  forall res,
    snd (Sign.cmd_sign_loop ssl magic M roots res)
    = concat (map (root_events (Sign.sign ssl magic M) M) roots).
Proof.
  unfold root_events, visit_root, refused, relative_root, checking.
  induction roots as [|r rest IH]; intros H res; [reflexivity|].
  cbn [forallb] in H. apply andb_true_iff in H. destruct H as [Hr H].
  cbn [Sign.cmd_sign_loop map concat].
  destruct (root_is_dir r); cbn [andb negb] in *.
  - destruct (opt_recursive M); [|discriminate]. cbn [negb].
    destruct (Sign.sign ssl magic M (root_path r) _ (root_node r))
      as [ok log].
    specialize (IH H (if negb ok then false else res)).
    destruct (Sign.cmd_sign_loop ssl magic M rest _) as [status log'].
    cbn [snd] in *. now rewrite IH.
  - destruct (Sign.sign ssl magic M (root_path r) _ (root_node r))
      as [ok log].
    specialize (IH H (if negb ok then false else res)).
    destruct (Sign.cmd_sign_loop ssl magic M rest _) as [status log'].
    cbn [snd] in *. now rewrite IH.
Qed.

Lemma cmd_validate_loop_events (roots : list root) :
  forallb (fun r => negb (refused M r)) roots = true ->
  forall res,
    snd (Validate.cmd_validate_loop ssl magic M roots res)
    = concat (map (root_events (Validate.validate ssl magic M) M) roots).
Proof.
  unfold root_events, visit_root, refused, relative_root, checking.
  induction roots as [|r rest IH]; intros H res; [reflexivity|].
  cbn [forallb] in H. apply andb_true_iff in H. destruct H as [Hr H].
  cbn [Validate.cmd_validate_loop map concat].
  destruct (root_is_dir r); cbn [andb negb] in *.
  - destruct (opt_recursive M); [|discriminate]. cbn [negb].
    destruct (Validate.validate ssl magic M (root_path r) _ (root_node r))
      as [ok log].
    specialize (IH H (if negb ok then false else res)).
    destruct (Validate.cmd_validate_loop ssl magic M rest _)
      as [status log'].
    cbn [snd] in *. now rewrite IH.
  - destruct (Validate.validate ssl magic M (root_path r) _ (root_node r))
      as [ok log].
    specialize (IH H (if negb ok then false else res)).
    destruct (Validate.cmd_validate_loop ssl magic M rest _)
      as [status log'].
    cbn [snd] in *. now rewrite IH.
Qed.

End WithMain.

End Walk.

(** ** A directory that is gone when opened *)

Section MissingDirectory.

Import WalkSpec.

Lemma sign_unopened (ssl : OpenSSL) (magic : list byte) (M : Main)
      (path relative_to : list byte) (st_mode : Z) (leaf : Utils.leaf_obs)
      (e : GError) (children : list (list byte * fsnode)) :
  Z.land st_mode S_IFMT = S_IFDIR ->
  Sign.sign ssl magic M path relative_to
            (Inode st_mode leaf (Some e) children)
  = if g_error_matches e G_FILE_ERROR_NOENT
    then (true, [g_debug "Signing %s" [AStr path]])
    else (false,
          [g_debug "Signing %s" [AStr path];
           g_printerr "Failed to open dir '%s': %s\n" [AStr path; AStrerror]]).
Proof. intros T. cbn [Sign.sign]. rewrite T. reflexivity. Qed.

Lemma validate_unopened (ssl : OpenSSL) (magic : list byte) (M : Main)
      (path relative_to : list byte) (st_mode : Z) (leaf : Utils.leaf_obs)
      (e : GError) (children : list (list byte * fsnode)) :
  Z.land st_mode S_IFMT = S_IFDIR ->
  Validate.validate ssl magic M path relative_to
                    (Inode st_mode leaf (Some e) children)
  = if g_error_matches e G_FILE_ERROR_NOENT
    then (true, [g_debug "Validating %s" [AStr path]])
    else (false,
          [g_debug "Validating %s" [AStr path];
           g_printerr "Failed to open dir '%s': %s\n" [AStr path; AStrerror]]).
Proof. intros T. cbn [Validate.validate]. rewrite T. reflexivity. Qed.

Lemma g_error_matches_true (e code : GError) :
  g_error_matches e code = true <-> e = code.
Proof.
  unfold g_error_matches.
  destruct (GFileError_eq_dec e code); split; congruence.
Qed.

(** C8, as the code has it.  A directory that [lstat] shows and that
    [g_dir_open] does not find is a success, at the root of the walk and
    at any depth under it: the directory that holds such an entry, and
    nothing else, succeeds too.  Any other failure to open a directory
    is a failure of that entry, and a path that [lstat] does not find is
    a failure. *)
Theorem missing_directory_tolerated :
  forall (ssl : OpenSSL) (magic : list byte) (M : Main)
         (path relative_to : list byte) (st_mode : Z)
         (leaf : Utils.leaf_obs) (e : GError)
         (children : list (list byte * fsnode)),
    Z.land st_mode S_IFMT = S_IFDIR ->
    let sub := Inode st_mode leaf (Some e) children in
    (fst (Sign.sign ssl magic M path relative_to sub) = true
     <-> e = G_FILE_ERROR_NOENT)
    /\ (fst (Validate.validate ssl magic M path relative_to sub) = true
        <-> e = G_FILE_ERROR_NOENT)
    /\ (forall parent parent_mode parent_leaf name,
           Z.land parent_mode S_IFMT = S_IFDIR ->
           is_envelope_name name = false ->
           (fst (Sign.sign ssl magic M parent relative_to
                           (Inode parent_mode parent_leaf None
                                  [(name, sub)])) = true
            <-> e = G_FILE_ERROR_NOENT)
           /\ (fst (Validate.validate ssl magic M parent relative_to
                                      (Inode parent_mode parent_leaf None
                                             [(name, sub)])) = true
               <-> e = G_FILE_ERROR_NOENT))
    /\ (forall err,
           fst (Sign.sign ssl magic M path relative_to (LstatFails err))
           = false
           /\ fst (Validate.validate ssl magic M path relative_to
                                     (LstatFails err)) = false).
Proof.
  intros ssl magic M path relative_to st_mode leaf e children T sub.
  assert (S : forall p,
             fst (Sign.sign ssl magic M p relative_to sub) = true
             <-> e = G_FILE_ERROR_NOENT).
  { intros p. subst sub. rewrite (sign_unopened _ _ _ _ _ _ _ _ _ T).
    rewrite <- g_error_matches_true.
    destruct (g_error_matches e G_FILE_ERROR_NOENT); simpl;
      split; congruence. }
  assert (V : forall p,
             fst (Validate.validate ssl magic M p relative_to sub) = true
             <-> e = G_FILE_ERROR_NOENT).
  { intros p. subst sub. rewrite (validate_unopened _ _ _ _ _ _ _ _ _ T).
    rewrite <- g_error_matches_true.
    destruct (g_error_matches e G_FILE_ERROR_NOENT); simpl;
      split; congruence. }
  split; [apply S|]. split; [apply V|]. split; [|now split].
  intros parent parent_mode parent_leaf name PT N.
  rewrite (sign_directory_results _ _ _ _ _ _ _ _ PT).
  rewrite (validate_directory_results _ _ _ _ _ _ _ _ PT).
  unfold child_results, visited, all_succeed.
  cbn [filter fst]. rewrite N. cbn [negb map forallb fst snd].
  rewrite !andb_true_r. split; [apply S|apply V].
Qed.

(** A directory whose only entry is a directory gone when opened. *)
Lemma missing_directory_tolerated_witness :
  Sign.sign Examples.ssl Examples.magic Examples.main (lit "/t") (lit "/t")
            (Examples.directory [(lit "sub", Examples.vanished_directory)])
  = (true, [g_debug "Signing %s" [AStr (lit "/t")];
            g_debug "Signing %s" [AStr (lit "/t/sub")]])
  /\ fst (Validate.validate
            Examples.ssl Examples.magic Examples.main (lit "/t/sub")
            (lit "/t") Examples.vanished_directory) = true.
Proof.
  split; [reflexivity|].
  apply (missing_directory_tolerated
           Examples.ssl Examples.magic Examples.main (lit "/t/sub")
           (lit "/t") (S_IFDIR + 0x1ED)%Z (Examples.plain_leaf [])
           G_FILE_ERROR_NOENT [] eq_refl).
  reflexivity.
Defined.

(** C8 as stated fails: a subdirectory reached during the recursion
    that is gone when opened does not make its visit a failure. *)
Lemma missing_subdirectory_counterexample :
  ~ (forall (ssl : OpenSSL) (magic : list byte) (M : Main)
            (parent relative_to name : list byte)
            (parent_mode st_mode : Z)
            (parent_leaf leaf : Utils.leaf_obs)
            (children : list (list byte * fsnode)),
        Z.land parent_mode S_IFMT = S_IFDIR ->
        Z.land st_mode S_IFMT = S_IFDIR ->
        is_envelope_name name = false ->
        fst (Sign.sign ssl magic M parent relative_to
                       (Inode parent_mode parent_leaf None
                              [(name,
                                Inode st_mode leaf
                                      (Some G_FILE_ERROR_NOENT) children)]))
        = false).
Proof.
  intros H.
  specialize (H Examples.ssl Examples.magic Examples.main
                (lit "/t") (lit "/t") (lit "sub")
                (S_IFDIR + 0x1ED)%Z (S_IFDIR + 0x1ED)%Z
                (Examples.plain_leaf []) (Examples.plain_leaf []) []
                eq_refl eq_refl eq_refl).
  vm_compute in H. discriminate.
Qed.

End MissingDirectory.

(** ** Envelopes are not walked *)

Section Envelopes.

Import WalkSpec.

Lemma walk_entries_prune (visit : list byte -> fsnode -> bool * list event)
      (path : list byte) (children : list (list byte * fsnode)) :
  Forall (fun entry => forall p, visit p (snd entry)
                                 = visit p (prune (snd entry))) children ->
  forall success,
    walk_entries visit path children success
    = walk_entries visit path (prune_entries children) success.
Proof.
  induction 1 as [|[name c] rest H _ IH]; intros success;
    [reflexivity|].
  cbn [walk_entries prune_entries]. unfold is_envelope_name.
  destruct (g_str_has_suffix name (lit ".sig")) eqn:E; [apply IH|].
  cbn [walk_entries]. rewrite E. simpl in H. rewrite <- H.
  destruct (visit (g_build_filename path name) c) as [ok log].
  now rewrite IH.
Qed.

Lemma prune_envelope_free (n : fsnode) : envelope_free (prune n).
Proof.
  induction n as [e|st_mode leaf dir_error children IH]
    using fsnode_induction; [exact I|].
  change (envelope_free_entries (prune_entries children)).
  induction IH as [|[name c] rest H _ IHrest]; [exact I|].
  cbn [prune_entries].
  destruct (is_envelope_name name) eqn:E; [exact IHrest|].
  cbn [envelope_free_entries]. auto.
Qed.

Lemma sign_prune (ssl : OpenSSL) (magic : list byte) (M : Main)
      (relative_to : list byte) (n : fsnode) :
  forall path,
    Sign.sign ssl magic M path relative_to n
    = Sign.sign ssl magic M path relative_to (prune n).
Proof.
  induction n as [e|st_mode leaf dir_error children IH]
    using fsnode_induction; intros path; [reflexivity|].
  change (prune (Inode st_mode leaf dir_error children))
    with (Inode st_mode leaf dir_error (prune_entries children)).
  destruct (Z.eq_dec (Z.land st_mode S_IFMT) S_IFDIR) as [T|T].
  - destruct dir_error as [e|].
    + now rewrite !(sign_unopened _ _ _ _ _ _ _ _ _ T).
    + rewrite !(sign_directory _ _ _ _ _ _ _ _ T).
      now rewrite (walk_entries_prune _ _ _ IH).
  - cbn [Sign.sign]. apply Z.eqb_neq in T. rewrite T.
    destruct ((Z.land st_mode S_IFMT =? S_IFREG)%Z
              || (Z.land st_mode S_IFMT =? S_IFLNK)%Z); reflexivity.
Qed.

Lemma validate_prune (ssl : OpenSSL) (magic : list byte) (M : Main)
      (relative_to : list byte) (n : fsnode) :
  forall path,
    Validate.validate ssl magic M path relative_to n
    = Validate.validate ssl magic M path relative_to (prune n).
Proof.
  induction n as [e|st_mode leaf dir_error children IH]
    using fsnode_induction; intros path; [reflexivity|].
  change (prune (Inode st_mode leaf dir_error children))
    with (Inode st_mode leaf dir_error (prune_entries children)).
  destruct (Z.eq_dec (Z.land st_mode S_IFMT) S_IFDIR) as [T|T].
  - destruct dir_error as [e|].
    + now rewrite !(validate_unopened _ _ _ _ _ _ _ _ _ T).
    + rewrite !(validate_directory _ _ _ _ _ _ _ _ T).
      now rewrite (walk_entries_prune _ _ _ IH).
  - cbn [Validate.validate]. apply Z.eqb_neq in T. rewrite T.
    destruct ((Z.land st_mode S_IFMT =? S_IFREG)%Z
              || (Z.land st_mode S_IFMT =? S_IFLNK)%Z); reflexivity.
Qed.

(** C9, as the code has it.  The names a directory enumeration gives
    that end in ".sig" are skipped: signing and validating a tree give
    the same value and the same events as on the tree from which every
    such entry, at every depth, has been taken out with all that is
    under it; in a directory only the entries with other names are
    visited.  The path the walk starts from is not tested. *)
Theorem envelopes_skipped_in_enumeration :
  forall (ssl : OpenSSL) (magic : list byte) (M : Main)
         (path relative_to : list byte) (n : fsnode),
    Sign.sign ssl magic M path relative_to n
    = Sign.sign ssl magic M path relative_to (prune n)
    /\ Validate.validate ssl magic M path relative_to n
       = Validate.validate ssl magic M path relative_to (prune n)
    /\ envelope_free (prune n)
    /\ (forall children,
           Forall (fun entry => is_envelope_name (fst entry) = false)
                  (visited children)).
Proof.
  intros ssl magic M path relative_to n.
  split; [apply sign_prune|]. split; [apply validate_prune|].
  split; [apply prune_envelope_free|].
  intros children. unfold visited. apply Forall_forall.
  intros entry [_ H]%filter_In. now apply negb_true_iff in H.
Qed.

(** C9 as stated fails: a regular file named on the command line with
    a name that ends in ".sig" is signed, and its envelope written. *)
Lemma envelope_root_counterexample :
  ~ (forall (ssl : OpenSSL) (magic : list byte) (M : Main)
            (roots : list root) (path contents : list byte),
        In (g_file_set_contents (g_strconcat path (lit ".sig")) contents)
           (snd (Sign.cmd_sign ssl magic M roots)) ->
        g_str_has_suffix path (lit ".sig") = false).
Proof.
  intros H.
  specialize (H Examples.ssl Examples.magic Examples.main
                [Examples.envelope_root] (lit "/t/a.sig")
                (Examples.magic
                   ++ Examples.toy_signature
                        3 ([x00] ++ lit "a.sig" ++ [x00] ++ lit "old"))).
  vm_compute in H.
  specialize (H (or_intror (or_intror (or_intror (or_introl eq_refl))))).
  discriminate.
Qed.

End Envelopes.

(** * Further properties *)

(** ** Path prefixes as an order on paths *)

Section PrefixOrder.

Import Utils PathSpec.

Lemma initial_refl {A : Type} (l : list A) : initial l l.
Proof. exists []. now rewrite app_nil_r. Qed.

Lemma initial_trans {A : Type} (l1 l2 l3 : list A) :
  initial l1 l2 -> initial l2 l3 -> initial l1 l3.
Proof.
  intros [r1 ->] [r2 ->]. exists (r1 ++ r2). now rewrite app_assoc.
Qed.

Lemma initial_antisym {A : Type} (l1 l2 : list A) :
  initial l1 l2 -> initial l2 l1 -> l1 = l2.
Proof.
  intros [r1 ->] [r2 H].
  apply (f_equal (@length A)) in H. rewrite !length_app in H.
  destruct r1; [now rewrite app_nil_r|simpl in H; lia].
Qed.

Lemma has_path_prefix_true (str prefix : list byte) :
  has_path_prefix str prefix = Some true
  <-> initial (segments prefix) (segments str).
Proof.
  rewrite has_path_prefix_total, <- initialb_initial. split; congruence.
Qed.

(** X1.  [has_path_prefix] orders paths: every path is under itself; a
    path under a second one that is under a third is under the third; and
    two paths each under the other have the same segments. *)
Theorem has_path_prefix_preorder :
  forall a b c : list byte,
    has_path_prefix a a = Some true
    /\ (has_path_prefix a b = Some true ->
        has_path_prefix b c = Some true ->
        has_path_prefix a c = Some true)
    /\ (has_path_prefix a b = Some true ->
        has_path_prefix b a = Some true ->
        segments a = segments b).
Proof.
  intros a b c. rewrite !has_path_prefix_true. split; [|split].
  - apply initial_refl.
  - intros H1 H2. exact (initial_trans _ _ _ H2 H1).
  - intros H1 H2. exact (initial_antisym _ _ H2 H1).
Qed.

Lemma has_path_prefix_preorder_witness :
  has_path_prefix (lit "/a/b/c") (lit "/a/b") = Some true
  /\ has_path_prefix (lit "/a/b") (lit "a") = Some true
  /\ has_path_prefix (lit "/a/b/c") (lit "a") = Some true.
Proof.
  split; [reflexivity|]. split; [reflexivity|].
  apply (proj1 (proj2 (has_path_prefix_preorder
                         (lit "/a/b/c") (lit "/a/b") (lit "a"))));
    reflexivity.
Defined.

Lemma c_str_app (a b : list byte) :
  c_str (a ++ b) = if strlen a =? length a then a ++ c_str b else c_str a.
Proof.
  induction a as [|c a IH]; [reflexivity|].
  cbn [app strlen length]. destruct (is_nul c) eqn:N.
  - now rewrite !(c_str_nul _ _ N).
  - rewrite !(c_str_cons _ _ N), IH. cbn [Nat.eqb].
    now destruct (strlen a =? length a).
Qed.

Lemma is_slash_SLASH : is_slash SLASH = true.
Proof. reflexivity. Qed.

Lemma split_slash_app_slash (a b : list byte) :
  split_slash (a ++ SLASH :: b) = split_slash a ++ split_slash b.
Proof.
  induction a as [|c a IH]; [reflexivity|].
  cbn [app split_slash]. rewrite IH.
  destruct (is_slash c); [reflexivity|].
  now rewrite (split_slash_element a).
Qed.

Lemma segs_app_slash (a b : list byte) :
  segs (a ++ SLASH :: b) = segs a ++ segs b.
Proof. unfold segs. now rewrite split_slash_app_slash, filter_app. Qed.

Lemma segs_repeat_slash (k : nat) : segs (repeat SLASH k) = [].
Proof.
  induction k as [|k IH]; [reflexivity|].
  cbn [repeat]. now rewrite (segs_slash _ _ is_slash_SLASH).
Qed.

Lemma segs_app_slashes (a : list byte) (k : nat) :
  segs (a ++ repeat SLASH k) = segs a.
Proof.
  destruct k as [|k]; [now rewrite app_nil_r|].
  cbn [repeat]. now rewrite segs_app_slash, segs_repeat_slash, app_nil_r.
Qed.

(** The segments of a path do not change when a slash is doubled. *)
Lemma segments_double_slash (a b : list byte) :
  segments (a ++ SLASH :: SLASH :: b) = segments (a ++ SLASH :: b).
Proof.
  unfold segments. rewrite !c_str_app.
  destruct (strlen a =? length a); [|reflexivity].
  rewrite !(c_str_cons SLASH) by reflexivity.
  rewrite !segs_app_slash. now rewrite (segs_slash _ _ is_slash_SLASH).
Qed.

Lemma segments_leading_slash (s : list byte) :
  segments (SLASH :: s) = segments s.
Proof.
  unfold segments. rewrite (c_str_cons SLASH) by reflexivity.
  apply segs_slash. reflexivity.
Qed.

Lemma segments_trailing_slash (s : list byte) :
  segments (s ++ [SLASH]) = segments s.
Proof.
  unfold segments. rewrite c_str_app.
  destruct (strlen s =? length s) eqn:E; [|reflexivity].
  apply Nat.eqb_eq in E.
  assert (C : c_str s = s).
  { unfold c_str, memcpy. rewrite E. apply firstn_all. }
  rewrite C. change (c_str [SLASH]) with (repeat SLASH 1).
  apply segs_app_slashes.
Qed.

(** X2.  Slashes only separate: doubling a slash anywhere in either
    argument, putting a slash in front of it or one after it does not
    change the answer of [has_path_prefix]; so "a/b" is under "/a". *)
Theorem has_path_prefix_slashes :
  forall a b other : list byte,
    has_path_prefix (a ++ SLASH :: SLASH :: b) other
    = has_path_prefix (a ++ SLASH :: b) other
    /\ has_path_prefix other (a ++ SLASH :: SLASH :: b)
       = has_path_prefix other (a ++ SLASH :: b)
    /\ has_path_prefix (SLASH :: a) other = has_path_prefix a other
    /\ has_path_prefix other (SLASH :: a) = has_path_prefix other a
    /\ has_path_prefix (a ++ [SLASH]) other = has_path_prefix a other
    /\ has_path_prefix other (a ++ [SLASH]) = has_path_prefix other a.
Proof.
  intros a b other. rewrite !has_path_prefix_total.
  rewrite !segments_double_slash, !segments_leading_slash,
    !segments_trailing_slash.
  repeat split; reflexivity.
Qed.

Lemma segments_nil_initial (str prefix : list byte) :
  segments prefix = [] -> has_path_prefix str prefix = Some true.
Proof.
  intros H. apply has_path_prefix_true. rewrite H. now exists (segments str).
Qed.

(** X3.  A prefix made of slashes only, the empty one included, holds
    every path; and a path made of slashes only is under such prefixes
    and under no other. *)
Theorem has_path_prefix_root :
  forall (str prefix : list byte) (k : nat),
    has_path_prefix str (repeat SLASH k) = Some true
    /\ (has_path_prefix (repeat SLASH k) prefix = Some true
        <-> segments prefix = []).
Proof.
  intros str prefix k.
  assert (R : segments (repeat SLASH k) = []).
  { unfold segments.
    assert (N : nul_free (repeat SLASH k)).
    { intros H. apply repeat_spec in H. discriminate. }
    rewrite (c_str_nul_free _ N). apply segs_repeat_slash. }
  split.
  - now apply segments_nil_initial.
  - rewrite has_path_prefix_true, R. split.
    + intros [rest H]. symmetry in H. now apply app_eq_nil in H.
    + intros ->. now exists [].
Qed.

End PrefixOrder.

(** ** What an answer of [validate_data] means *)

Section ValidateDataMeaning.

Import Utils Trials.

(** X4.  [validate_data] answers TRUE only for an envelope that starts
    with the marker, for a regular file or a symlink, and when one of the
    trusted keys accepts the rest of the envelope as a signature of the
    rebuilt blob, every key before it having been tried and having
    rejected it; no error is set then. *)
Theorem validate_data_true_sound :
  forall (ssl : OpenSSL) (magic rel_path content sig : list byte)
         (type : Z) (pub_keys : list EVP_PKEY) (error : option GError)
         (log : list event),
    validate_data ssl magic rel_path type content sig pub_keys
    = (true, error, log) ->
    error = None
    /\ length magic <= length sig
    /\ firstn (length magic) sig = magic
    /\ (type = S_IFREG \/ type = S_IFLNK)
    /\ exists to_sign before key after,
        make_sign_blob rel_path type content = inr to_sign
        /\ pub_keys = before ++ key :: after
        /\ all_reject ssl 0 before (skipn (length magic) sig) to_sign
        /\ accepts ssl (length before) key (skipn (length magic) sig) to_sign.
Proof.
  intros ssl magic rel_path content sig type pub_keys error log.
  unfold validate_data.
  destruct ((length sig <? length magic)
            || negb (memcmp_eq sig magic (length magic))) eqn:T;
    [discriminate|].
  apply magic_test in T. destruct T as [T1 T2].
  destruct (make_sign_blob rel_path type content) as [e|to_sign] eqn:B;
    [discriminate|].
  destruct (validate_data_loop ssl 0 pub_keys (skipn (length magic) sig)
                               to_sign) as [[valid error'] log'] eqn:L.
  intros [= -> -> <-].
  destruct (validate_data_loop_true _ _ _ _ _ _ _ L)
    as (-> & before & key & after & -> & R & A).
  repeat (split; [assumption || reflexivity|]).
  split.
  - destruct (make_sign_blob_inr _ _ _ _ B) as [[-> _]|[-> _]]; auto.
  - exists to_sign, before, key, after. auto.
Qed.

Lemma validate_data_true_sound_witness :
  exists before key after,
    [5; 3] = before ++ key :: after
    /\ accepts Examples.ssl (length before) key
               (Examples.toy_signature 3
                  ([x00] ++ lit "a/b" ++ [x00] ++ lit "digest"))
               ([x00] ++ lit "a/b" ++ [x00] ++ lit "digest").
Proof.
  destruct (validate_data_true_sound
              Examples.ssl Examples.magic (lit "a/b") (lit "digest")
              (Examples.magic
                 ++ Examples.toy_signature 3
                      ([x00] ++ lit "a/b" ++ [x00] ++ lit "digest"))
              S_IFREG [5; 3] None
              [g_debug "Validating signature of: %s" [AStr (lit "a/b")];
               return_code 0; return_code 1] eq_refl)
    as (_ & _ & _ & _ & to_sign & before & key & after & B & K & _ & A).
  vm_compute in B. injection B as <-.
  exists before, key, after. split; [exact K|exact A].
Defined.

(** X5.  [validate_data] answers FALSE with no error only for a
    well-formed envelope of a regular file or symlink of which every
    trusted key was tried, in order, and rejected it; with no trusted key
    at all that is the answer for every such envelope. *)
Theorem validate_data_false_no_error :
  forall (ssl : OpenSSL) (magic rel_path content sig : list byte)
         (type : Z) (pub_keys : list EVP_PKEY),
    (forall log,
        validate_data ssl magic rel_path type content sig pub_keys
        = (false, None, log) ->
        length magic <= length sig
        /\ firstn (length magic) sig = magic
        /\ exists to_sign,
            make_sign_blob rel_path type content = inr to_sign
            /\ all_reject ssl 0 pub_keys (skipn (length magic) sig) to_sign
            /\ log = g_debug "Validating signature of: %s" [AStr rel_path]
                             :: map (fun _ => return_code 0) pub_keys)
    /\ (length magic <= length sig ->
        firstn (length magic) sig = magic ->
        type = S_IFREG \/ type = S_IFLNK ->
        validate_data ssl magic rel_path type content sig []
        = (false, None,
           [g_debug "Validating signature of: %s" [AStr rel_path]])).
Proof.
  intros ssl magic rel_path content sig type pub_keys. split.
  - intros log. unfold validate_data.
    destruct ((length sig <? length magic)
              || negb (memcmp_eq sig magic (length magic))) eqn:T;
      [discriminate|].
    apply magic_test in T. destruct T as [T1 T2].
    destruct (make_sign_blob rel_path type content) as [e|to_sign] eqn:B;
      [discriminate|].
    destruct (validate_data_loop ssl 0 pub_keys (skipn (length magic) sig)
                                 to_sign) as [[valid error'] log'] eqn:L.
    intros [= -> -> <-].
    destruct (validate_data_loop_no_error _ _ _ _ _ _ L) as [R ->].
    split; [exact T1|]. split; [exact T2|].
    exists to_sign. auto.
  - intros T1 T2 Ty. unfold validate_data.
    rewrite (proj2 (magic_test magic sig) (conj T1 T2)).
    destruct Ty as [-> | ->]; reflexivity.
Qed.

Lemma validate_data_false_no_error_witness :
  validate_data Examples.ssl Examples.magic (lit "a/b") S_IFLNK (lit "t")
                (Examples.magic ++ lit "junk") []
  = (false, None,
     [g_debug "Validating signature of: %s" [AStr (lit "a/b")]]).
Proof.
  apply (proj2 (validate_data_false_no_error
                  Examples.ssl Examples.magic (lit "a/b") (lit "t")
                  (Examples.magic ++ lit "junk") S_IFLNK [])).
  - vm_compute. lia.
  - reflexivity.
  - now right.
Defined.

(** X6.  The error of [validate_data] tells the cause: it is the
    invalid-argument error exactly when the envelope is too short, does
    not start with the marker, or the type is neither regular file nor
    symlink; a failure while trying keys is never reported that way but
    as a general failure. *)
Theorem validate_data_error_cause :
  forall (ssl : OpenSSL) (magic rel_path content sig : list byte)
         (type : Z) (pub_keys : list EVP_PKEY),
    let error :=
      snd (fst (validate_data ssl magic rel_path type content sig pub_keys))
    in
    (error = Some G_FILE_ERROR_INVAL
     <-> length sig < length magic
         \/ firstn (length magic) sig <> magic
         \/ (type <> S_IFREG /\ type <> S_IFLNK))
    /\ (error = None \/ error = Some G_FILE_ERROR_INVAL
        \/ error = Some G_FILE_ERROR_FAILED).
Proof.
  intros ssl magic rel_path content sig type pub_keys error. subst error.
  unfold validate_data.
  destruct ((length sig <? length magic)
            || negb (memcmp_eq sig magic (length magic))) eqn:T.
  - cbn [fst snd]. split; [|auto]. split; [intros _|reflexivity].
    destruct (Nat.lt_ge_cases (length sig) (length magic)) as [L|L];
      [now left|].
    right. left. intros P.
    rewrite (proj2 (magic_test magic sig) (conj L P)) in T. discriminate.
  - apply magic_test in T. destruct T as [T1 T2].
    destruct (make_sign_blob rel_path type content) as [e|to_sign] eqn:B.
    + cbn [fst snd].
      assert (Ty : type <> S_IFREG /\ type <> S_IFLNK).
      { split; intros ->; discriminate. }
      assert (E : e = G_FILE_ERROR_INVAL).
      { rewrite (make_sign_blob_other _ _ _ (proj1 Ty) (proj2 Ty)) in B.
        congruence. }
      subst e. split; [|auto]. split; auto.
    + pose proof (validate_data_loop_error
                    ssl (skipn (length magic) sig) to_sign pub_keys 0) as E.
      destruct (validate_data_loop ssl 0 pub_keys (skipn (length magic) sig)
                                   to_sign) as [[valid error'] log'].
      cbn [fst snd] in *. split; [|tauto]. split.
      * intros ->. destruct E; discriminate.
      * intros [L|[P|[N1 N2]]]; [lia|contradiction|].
        destruct (make_sign_blob_inr _ _ _ _ B) as [[-> _]|[-> _]];
          contradiction.
Qed.

End ValidateDataMeaning.

(** ** Success and diagnostics *)

Section Diagnostics.

Import WalkSpec WalkObs.

Lemma validate_data_loop_debug (ssl : OpenSSL) (sig to_sign : list byte)
      (keys : list EVP_PKEY) :
  forall i,
    forallb is_debug (snd (Utils.validate_data_loop ssl i keys sig to_sign))
    = true.
Proof.
  induction keys as [|key keys IH]; intros i; [reflexivity|].
  cbn [Utils.validate_data_loop].
  destruct (EVP_MD_CTX_new ssl i); cbn [negb]; [|reflexivity].
  destruct (EVP_DigestVerifyInit ssl key =? 0)%Z; [reflexivity|].
  destruct (EVP_DigestVerify ssl key sig to_sign =? 1)%Z; [reflexivity|].
  destruct (EVP_DigestVerify ssl key sig to_sign =? 0)%Z; cbn [negb];
    [|reflexivity].
  specialize (IH (S i)).
  now destruct (Utils.validate_data_loop ssl (S i) keys sig to_sign)
    as [[? ?] ?].
Qed.

(** [validate_data] prints debug lines only. *)
Lemma validate_data_debug (ssl : OpenSSL) (magic rel_path content sig : list byte)
      (type : Z) (pub_keys : list EVP_PKEY) :
  forallb is_debug
          (snd (Utils.validate_data ssl magic rel_path type content sig
                                    pub_keys)) = true.
Proof.
  unfold Utils.validate_data.
  destruct ((length sig <? length magic)
            || negb (memcmp_eq sig magic (length magic))); [reflexivity|].
  destruct (Utils.make_sign_blob rel_path type content); [reflexivity|].
  pose proof (validate_data_loop_debug
                ssl (skipn (length magic) sig) l pub_keys 0) as H.
  now destruct (Utils.validate_data_loop ssl 0 pub_keys _ l) as [[? ?] ?].
Qed.

Lemma debug_not_printerr (log : list event) :
  forallb is_debug log = true -> existsb is_printerr log = false.
Proof.
  induction log as [|ev log IH]; [reflexivity|].
  cbn [forallb existsb]. intros [H1 H2]%andb_true_iff.
  rewrite (IH H2). now destruct ev.
Qed.

Lemma debug_not_write (log : list event) :
  forallb is_debug log = true -> existsb is_write log = false.
Proof.
  induction log as [|ev log IH]; [reflexivity|].
  cbn [forallb existsb]. intros [H1 H2]%andb_true_iff.
  rewrite (IH H2). now destruct ev.
Qed.

Lemma sign_leaf_reports (ssl : OpenSSL) (magic : list byte) (M : Main)
      (path relative_to : list byte) (st_mode type : Z)
      (leaf : Utils.leaf_obs) :
  fst (Sign.sign_leaf ssl magic M path relative_to st_mode type leaf)
  = negb (existsb is_printerr
                  (snd (Sign.sign_leaf ssl magic M path relative_to
                                       st_mode type leaf))).
Proof.
  unfold Sign.sign_leaf.
  destruct (negb (opt_force M) && Utils.sig_exists leaf); [reflexivity|].
  destruct (Utils.load_file_data_for_sign _ _ leaf); [reflexivity|].
  destruct (opt_get_relative_path M path relative_to (opt_path_prefix M));
    [|reflexivity].
  destruct (Utils.sign_data ssl magic type l0 l (opt_private_key M));
    [reflexivity|].
  destruct (Utils.set_contents leaf); reflexivity.
Qed.

Lemma validate_leaf_reports (ssl : OpenSSL) (magic : list byte) (M : Main)
      (path relative_to : list byte) (st_mode type : Z)
      (leaf : Utils.leaf_obs) :
  fst (Validate.validate_leaf ssl magic M path relative_to st_mode type leaf)
  = negb (existsb is_printerr
                  (snd (Validate.validate_leaf ssl magic M path relative_to
                                               st_mode type leaf))).
Proof.
  unfold Validate.validate_leaf.
  destruct (Utils.get_contents leaf) as [e|signature].
  { destruct (g_error_matches e G_FILE_ERROR_NOENT); reflexivity. }
  destruct (Utils.load_file_data_for_sign _ _ leaf) as [e|content];
    [reflexivity|].
  destruct (opt_get_relative_path M path relative_to (opt_path_prefix M))
    as [rel_path|]; [|reflexivity].
  pose proof (validate_data_debug ssl magic rel_path content signature type
                                  (opt_public_keys M)) as D.
  destruct (Utils.validate_data ssl magic rel_path type content signature
                                (opt_public_keys M)) as [[valid error] log].
  cbn [snd] in D. apply debug_not_printerr in D.
  destruct valid; cbn [negb].
  - cbn [fst snd]. rewrite existsb_app, D. reflexivity.
  - destruct error; cbn [fst snd]; rewrite existsb_app, D; reflexivity.
Qed.

(** In a directory: when every child fails exactly when it prints a
    diagnostic, so does the directory. *)
Lemma child_results_report (visit : list byte -> fsnode -> bool * list event)
      (path : list byte) (children : list (list byte * fsnode)) :
  Forall (fun entry =>
            forall p, fst (visit p (snd entry))
                      = negb (existsb is_printerr (snd (visit p (snd entry)))))
         children ->
  all_succeed (child_results visit path children)
  = negb (existsb is_printerr (all_events (child_results visit path children))).
Proof.
  unfold all_succeed, all_events, child_results, visited.
  induction 1 as [|[name c] rest H _ IH]; [reflexivity|].
  cbn [filter fst]. destruct (negb (is_envelope_name name)); [|exact IH].
  cbn [map forallb concat fst snd]. simpl in H.
  rewrite existsb_app, negb_orb, <- IH, <- H. reflexivity.
Qed.

Lemma sign_reports (ssl : OpenSSL) (magic : list byte) (M : Main)
      (relative_to : list byte) (n : fsnode) :
  forall path,
    fst (Sign.sign ssl magic M path relative_to n)
    = negb (existsb is_printerr (snd (Sign.sign ssl magic M path relative_to n))).
Proof.
  induction n as [e|st_mode leaf dir_error children IH]
    using fsnode_induction; intros path; [reflexivity|].
  destruct (Z.eq_dec (Z.land st_mode S_IFMT) S_IFDIR) as [T|T].
  - destruct dir_error as [e|].
    + rewrite (sign_unopened _ _ _ _ _ _ _ _ _ T).
      destruct (g_error_matches e G_FILE_ERROR_NOENT); reflexivity.
    + rewrite (sign_directory_results _ _ _ _ _ _ _ _ T).
      cbn [fst snd existsb is_printerr orb].
      now apply child_results_report.
  - cbn [Sign.sign]. apply Z.eqb_neq in T. rewrite T.
    destruct ((Z.land st_mode S_IFMT =? S_IFREG)%Z
              || (Z.land st_mode S_IFMT =? S_IFLNK)%Z); [|reflexivity].
    pose proof (sign_leaf_reports ssl magic M path relative_to st_mode
                                  (Z.land st_mode S_IFMT) leaf) as L.
    destruct (Sign.sign_leaf ssl magic M path relative_to st_mode
                             (Z.land st_mode S_IFMT) leaf) as [ok log].
    exact L.
Qed.

Lemma validate_reports (ssl : OpenSSL) (magic : list byte) (M : Main)
      (relative_to : list byte) (n : fsnode) :
  forall path,
    fst (Validate.validate ssl magic M path relative_to n)
    = negb (existsb is_printerr
                    (snd (Validate.validate ssl magic M path relative_to n))).
Proof.
  induction n as [e|st_mode leaf dir_error children IH]
    using fsnode_induction; intros path; [reflexivity|].
  destruct (Z.eq_dec (Z.land st_mode S_IFMT) S_IFDIR) as [T|T].
  - destruct dir_error as [e|].
    + rewrite (validate_unopened _ _ _ _ _ _ _ _ _ T).
      destruct (g_error_matches e G_FILE_ERROR_NOENT); reflexivity.
    + rewrite (validate_directory_results _ _ _ _ _ _ _ _ T).
      cbn [fst snd existsb is_printerr orb].
      now apply child_results_report.
  - cbn [Validate.validate]. apply Z.eqb_neq in T. rewrite T.
    destruct ((Z.land st_mode S_IFMT =? S_IFREG)%Z
              || (Z.land st_mode S_IFMT =? S_IFLNK)%Z); [|reflexivity].
    pose proof (validate_leaf_reports ssl magic M path relative_to st_mode
                                      (Z.land st_mode S_IFMT) leaf) as L.
    destruct (Validate.validate_leaf ssl magic M path relative_to st_mode
                                     (Z.land st_mode S_IFMT) leaf)
      as [ok log].
    exact L.
Qed.

Lemma cmd_sign_loop_reports (ssl : OpenSSL) (magic : list byte) (M : Main)
      (roots : list root) :
  forall res,
    fst (Sign.cmd_sign_loop ssl magic M roots res)
    = if res && negb (existsb is_printerr
                              (snd (Sign.cmd_sign_loop ssl magic M roots res)))
      then EXIT_SUCCESS else EXIT_FAILURE.
Proof.
  induction roots as [|r rest IH]; intros res.
  - simpl. now rewrite andb_true_r.
  - cbn [Sign.cmd_sign_loop].
    destruct (root_is_dir r).
    + destruct (opt_recursive M); cbn [negb];
        [|cbn; now rewrite andb_false_r].
      pose proof (sign_reports ssl magic M
                    match opt_path_relative M with
                    | Some p => p | None => root_path r end
                    (root_node r) (root_path r)) as R.
      destruct (Sign.sign ssl magic M (root_path r) _ (root_node r))
        as [ok log].
      specialize (IH (if negb ok then false else res)).
      destruct (Sign.cmd_sign_loop ssl magic M rest _) as [status log'].
      cbn [fst snd existsb is_printerr orb] in *.
      rewrite IH, existsb_app, R.
      destruct res, (existsb is_printerr log), (existsb is_printerr log');
        reflexivity.
    + pose proof (sign_reports ssl magic M
                    match opt_path_relative M with
                    | Some p => p | None => root_dirname r end
                    (root_node r) (root_path r)) as R.
      destruct (Sign.sign ssl magic M (root_path r) _ (root_node r))
        as [ok log].
      specialize (IH (if negb ok then false else res)).
      destruct (Sign.cmd_sign_loop ssl magic M rest _) as [status log'].
      cbn [fst snd existsb is_printerr orb] in *.
      rewrite IH, existsb_app, R.
      destruct res, (existsb is_printerr log), (existsb is_printerr log');
        reflexivity.
Qed.

Lemma cmd_validate_loop_reports (ssl : OpenSSL) (magic : list byte)
      (M : Main) (roots : list root) :
  forall res,
    fst (Validate.cmd_validate_loop ssl magic M roots res)
    = if res
         && negb (existsb is_printerr
                          (snd (Validate.cmd_validate_loop ssl magic M roots
                                                           res)))
      then EXIT_SUCCESS else EXIT_FAILURE.
Proof.
  induction roots as [|r rest IH]; intros res.
  - simpl. now rewrite andb_true_r.
  - cbn [Validate.cmd_validate_loop].
    destruct (root_is_dir r).
    + destruct (opt_recursive M); cbn [negb];
        [|cbn; now rewrite andb_false_r].
      pose proof (validate_reports ssl magic M
                    match opt_path_relative M with
                    | Some p => p | None => root_path r end
                    (root_node r) (root_path r)) as R.
      destruct (Validate.validate ssl magic M (root_path r) _ (root_node r))
        as [ok log].
      specialize (IH (if negb ok then false else res)).
      destruct (Validate.cmd_validate_loop ssl magic M rest _)
        as [status log'].
      cbn [fst snd existsb is_printerr orb] in *.
      rewrite IH, existsb_app, R.
      destruct res, (existsb is_printerr log), (existsb is_printerr log');
        reflexivity.
    + pose proof (validate_reports ssl magic M
                    match opt_path_relative M with
                    | Some p => p | None => root_dirname r end
                    (root_node r) (root_path r)) as R.
      destruct (Validate.validate ssl magic M (root_path r) _ (root_node r))
        as [ok log].
      specialize (IH (if negb ok then false else res)).
      destruct (Validate.cmd_validate_loop ssl magic M rest _)
        as [status log'].
      cbn [fst snd existsb is_printerr orb] in *.
      rewrite IH, existsb_app, R.
      destruct res, (existsb is_printerr log), (existsb is_printerr log');
        reflexivity.
Qed.

Lemma exit_status_success (b : bool) :
  (if b then EXIT_SUCCESS else EXIT_FAILURE) = EXIT_SUCCESS <-> b = true.
Proof. destruct b; split; (reflexivity || discriminate). Qed.

(** X7.  Failure and diagnostics go together: [sign] and [validate]
    return TRUE exactly when the walk printed nothing with [g_printerr],
    and a run with arguments exits with success exactly when nothing was
    printed that way; every failure is reported and nothing is reported
    without the run failing. *)
Theorem failure_iff_diagnostic :
  forall (ssl : OpenSSL) (magic : list byte) (M : Main)
         (path relative_to : list byte) (n : fsnode) (roots : list root),
    (fst (Sign.sign ssl magic M path relative_to n) = true
     <-> existsb is_printerr (snd (Sign.sign ssl magic M path relative_to n))
         = false)
    /\ (fst (Validate.validate ssl magic M path relative_to n) = true
        <-> existsb is_printerr
                    (snd (Validate.validate ssl magic M path relative_to n))
            = false)
    /\ (roots <> [] ->
        (fst (Sign.cmd_sign ssl magic M roots) = EXIT_SUCCESS
         <-> existsb is_printerr (snd (Sign.cmd_sign ssl magic M roots))
             = false)
        /\ (fst (Validate.cmd_validate ssl magic M roots) = EXIT_SUCCESS
            <-> existsb is_printerr
                        (snd (Validate.cmd_validate ssl magic M roots))
                = false)).
Proof.
  intros ssl magic M path relative_to n roots.
  split; [|split].
  - rewrite sign_reports. apply negb_true_iff.
  - rewrite validate_reports. apply negb_true_iff.
  - intros N. destruct roots as [|r rest]; [contradiction|]. split.
    + unfold Sign.cmd_sign.
      pose proof (cmd_sign_loop_reports ssl magic M (r :: rest) true) as H.
      destruct (Sign.cmd_sign_loop ssl magic M (r :: rest) true)
        as [status log].
      cbn [fst snd existsb is_printerr orb andb] in *.
      rewrite H, exit_status_success. apply negb_true_iff.
    + unfold Validate.cmd_validate.
      pose proof (cmd_validate_loop_reports ssl magic M (r :: rest) true)
        as H.
      destruct (Validate.cmd_validate_loop ssl magic M (r :: rest) true)
        as [status log].
      cbn [fst snd existsb is_printerr orb andb] in *.
      rewrite H, exit_status_success. apply negb_true_iff.
Qed.

(** The run over the three files and the envelope argument fails, and a
    diagnostic was printed. *)
Lemma failure_iff_diagnostic_witness :
  fst (Sign.cmd_sign Examples.ssl Examples.magic Examples.main
                     [Examples.tree_root; Examples.envelope_root])
  <> EXIT_SUCCESS.
Proof.
  destruct (failure_iff_diagnostic
              Examples.ssl Examples.magic Examples.main (lit "/t") (lit "/t")
              Examples.three_files
              [Examples.tree_root; Examples.envelope_root])
    as (_ & _ & H).
  destruct (H ltac:(discriminate)) as [[H1 _] _].
  intros E. specialize (H1 E). vm_compute in H1. discriminate.
Defined.

End Diagnostics.

(** ** Aggregation of results *)

Section Aggregation.

Import WalkSpec WalkObs FailureSpec.

Lemma is_leaf_test (st_mode : Z) :
  is_leaf st_mode ->
  ((Z.land st_mode S_IFMT =? S_IFREG)%Z
   || (Z.land st_mode S_IFMT =? S_IFLNK)%Z) = true.
Proof. intros [-> | ->]; reflexivity. Qed.

Lemma unsupported_test (type : Z) :
  type <> S_IFREG -> type <> S_IFLNK -> type <> S_IFDIR ->
  ((type =? S_IFREG)%Z || (type =? S_IFLNK)%Z) = false
  /\ (type =? S_IFDIR)%Z = false.
Proof.
  intros N1 N2 N3. apply Z.eqb_neq in N1, N2, N3.
  now rewrite N1, N2, N3.
Qed.

Lemma not_matches (e code : GFileError) :
  e <> code -> g_error_matches e code = false.
Proof.
  intros N. unfold g_error_matches.
  now destruct (GFileError_eq_dec e code).
Qed.

(** Each failure of [sign] gives FALSE and its diagnostic, and nothing
    else but the debug line of the visit. *)
Lemma sign_failure_recorded (ssl : OpenSSL) (magic : list byte) (M : Main)
      (path relative_to : list byte) (n : fsnode) (diagnostic : event) :
  sign_failure ssl magic M path relative_to n diagnostic ->
  Sign.sign ssl magic M path relative_to n
  = (false, [g_debug "Signing %s" [AStr path]; diagnostic]).
Proof.
  intros F.
  destruct F as [e
                |st_mode leaf dir_error children N1 N2 N3
                |st_mode leaf e children T N
                |st_mode leaf dir_error children e L S D
                |st_mode leaf dir_error children content L S D R
                |st_mode leaf dir_error children content rel_path e L S D R G
                |st_mode leaf dir_error children content rel_path signature
                         e L S D R G W];
    cbn [Sign.sign].
  - reflexivity.
  - destruct (unsupported_test _ N1 N2 N3) as [-> ->]. reflexivity.
  - rewrite T, (not_matches _ _ N). reflexivity.
  - rewrite (is_leaf_test _ L). unfold Sign.sign_leaf.
    now rewrite S, D.
  - rewrite (is_leaf_test _ L). unfold Sign.sign_leaf.
    now rewrite S, D, R.
  - rewrite (is_leaf_test _ L). unfold Sign.sign_leaf.
    now rewrite S, D, R, G.
  - rewrite (is_leaf_test _ L). unfold Sign.sign_leaf.
    now rewrite S, D, R, G, W.
Qed.

(** Each failure of [validate] gives FALSE and its diagnostic, after the
    debug line of the visit and those of [validate_data]. *)
Lemma validate_failure_recorded (ssl : OpenSSL) (magic : list byte)
      (M : Main) (path relative_to : list byte) (n : fsnode)
      (diagnostic : event) :
  validate_failure ssl magic M path relative_to n diagnostic ->
  exists trials,
    forallb is_debug trials = true
    /\ Validate.validate ssl magic M path relative_to n
       = (false,
          g_debug "Validating %s" [AStr path] :: trials ++ [diagnostic]).
Proof.
  intros F.
  destruct F as [e
                |st_mode leaf dir_error children N1 N2 N3
                |st_mode leaf e children T N
                |st_mode leaf dir_error children L G
                |st_mode leaf dir_error children e L G N
                |st_mode leaf dir_error children signature e L G D
                |st_mode leaf dir_error children signature content L G D R
                |st_mode leaf dir_error children signature content rel_path
                         e trials L G D R V
                |st_mode leaf dir_error children signature content rel_path
                         trials L G D R V];
    cbn [Validate.validate].
  - exists []. now split.
  - exists []. destruct (unsupported_test _ N1 N2 N3) as [-> ->].
    now split.
  - exists []. rewrite T, (not_matches _ _ N). now split.
  - exists []. rewrite (is_leaf_test _ L). unfold Validate.validate_leaf.
    rewrite G. now split.
  - exists []. rewrite (is_leaf_test _ L). unfold Validate.validate_leaf.
    rewrite G, (not_matches _ _ N). now split.
  - exists []. rewrite (is_leaf_test _ L). unfold Validate.validate_leaf.
    rewrite G, D. now split.
  - exists []. rewrite (is_leaf_test _ L). unfold Validate.validate_leaf.
    rewrite G, D, R. now split.
  - exists trials. rewrite (is_leaf_test _ L).
    unfold Validate.validate_leaf. rewrite G, D, R, V. split; [|reflexivity].
    pose proof (validate_data_debug
                  ssl magic rel_path content signature
                  (Z.land st_mode S_IFMT) (opt_public_keys M)) as H.
    now rewrite V in H.
  - exists trials. rewrite (is_leaf_test _ L).
    unfold Validate.validate_leaf. rewrite G, D, R, V. split; [|reflexivity].
    pose proof (validate_data_debug
                  ssl magic rel_path content signature
                  (Z.land st_mode S_IFMT) (opt_public_keys M)) as H.
    now rewrite V in H.
Qed.

(** [sign] returns FALSE for no other reason. *)
Lemma sign_false_cause (ssl : OpenSSL) (magic : list byte) (M : Main)
      (path relative_to : list byte) (n : fsnode) :
  fst (Sign.sign ssl magic M path relative_to n) = false ->
  (exists diagnostic, sign_failure ssl magic M path relative_to n diagnostic)
  \/ failing_directory (fun p c => Sign.sign ssl magic M p relative_to c)
                       path n.
Proof.
  destruct n as [e|st_mode leaf dir_error children].
  - intros _. left. eexists. apply sign_lstat_fails.
  - destruct (Z.eq_dec (Z.land st_mode S_IFMT) S_IFREG) as [T1|T1];
      [|destruct (Z.eq_dec (Z.land st_mode S_IFMT) S_IFLNK) as [T2|T2];
        [|destruct (Z.eq_dec (Z.land st_mode S_IFMT) S_IFDIR) as [T3|T3]]].
    4:{ intros _. left. eexists. now apply sign_type_unsupported. }
    3:{ destruct dir_error as [e|].
        - rewrite (sign_unopened _ _ _ _ _ _ _ _ _ T3).
          destruct (GFileError_eq_dec e G_FILE_ERROR_NOENT) as [->|N];
            [discriminate|].
          intros _. left. eexists. now apply sign_dir_unopened.
        - rewrite (sign_directory_results _ _ _ _ _ _ _ _ T3).
          cbn [fst]. intros H. right.
          exists st_mode, leaf, children. auto. }
    all: assert (L : is_leaf st_mode) by (unfold is_leaf; auto);
      cbn [Sign.sign]; rewrite (is_leaf_test _ L);
      unfold Sign.sign_leaf;
      destruct (negb (opt_force M) && Utils.sig_exists leaf) eqn:S;
      [discriminate|];
      destruct (Utils.load_file_data_for_sign (inr st_mode) (Some st_mode)
                                              leaf) as [e|content] eqn:D;
      [intros _; left; eexists; now apply (sign_read_fails _ _ _ _ _ _ _ _ _ e)|];
      destruct (opt_get_relative_path M path relative_to (opt_path_prefix M))
        as [rel_path|] eqn:R;
      [|intros _; left; eexists;
        now apply (sign_outside _ _ _ _ _ _ _ _ _ content)];
      destruct (Utils.sign_data ssl magic (Z.land st_mode S_IFMT) rel_path
                                content (opt_private_key M))
        as [e|signature] eqn:G;
      [intros _; left; eexists;
       now apply (sign_data_fails _ _ _ _ _ _ _ _ _ content rel_path e)|];
      destruct (Utils.set_contents leaf) as [e|] eqn:W; [|discriminate];
      intros _; left; eexists;
      now apply (sign_write_fails _ _ _ _ _ _ _ _ _
                                  content rel_path signature e).
Qed.

(** [validate] returns FALSE for no other reason. *)
Lemma validate_false_cause (ssl : OpenSSL) (magic : list byte) (M : Main)
      (path relative_to : list byte) (n : fsnode) :
  fst (Validate.validate ssl magic M path relative_to n) = false ->
  (exists diagnostic,
      validate_failure ssl magic M path relative_to n diagnostic)
  \/ failing_directory
       (fun p c => Validate.validate ssl magic M p relative_to c) path n.
Proof.
  destruct n as [e|st_mode leaf dir_error children].
  - intros _. left. eexists. apply validate_lstat_fails.
  - destruct (Z.eq_dec (Z.land st_mode S_IFMT) S_IFREG) as [T1|T1];
      [|destruct (Z.eq_dec (Z.land st_mode S_IFMT) S_IFLNK) as [T2|T2];
        [|destruct (Z.eq_dec (Z.land st_mode S_IFMT) S_IFDIR) as [T3|T3]]].
    4:{ intros _. left. eexists. now apply validate_type_unsupported. }
    3:{ destruct dir_error as [e|].
        - rewrite (validate_unopened _ _ _ _ _ _ _ _ _ T3).
          destruct (GFileError_eq_dec e G_FILE_ERROR_NOENT) as [->|N];
            [discriminate|].
          intros _. left. eexists. now apply validate_dir_unopened.
        - rewrite (validate_directory_results _ _ _ _ _ _ _ _ T3).
          cbn [fst]. intros H. right.
          exists st_mode, leaf, children. auto. }
    all: assert (L : is_leaf st_mode) by (unfold is_leaf; auto);
      cbn [Validate.validate]; rewrite (is_leaf_test _ L);
      unfold Validate.validate_leaf;
      destruct (Utils.get_contents leaf) as [e|signature] eqn:G;
      [destruct (GFileError_eq_dec e G_FILE_ERROR_NOENT) as [->|N];
       intros _; left; eexists;
       [now apply validate_no_envelope
       |now apply (validate_envelope_unread _ _ _ _ _ _ _ _ _ e)]|];
      destruct (Utils.load_file_data_for_sign (inr st_mode) (Some st_mode)
                                              leaf) as [e|content] eqn:D;
      [intros _; left; eexists;
       now apply (validate_read_fails _ _ _ _ _ _ _ _ _ signature e)|];
      destruct (opt_get_relative_path M path relative_to (opt_path_prefix M))
        as [rel_path|] eqn:R;
      [|intros _; left; eexists;
        now apply (validate_outside _ _ _ _ _ _ _ _ _ signature content)];
      destruct (Utils.validate_data ssl magic rel_path
                                    (Z.land st_mode S_IFMT) content signature
                                    (opt_public_keys M))
        as [[valid error] trials] eqn:V;
      destruct valid; [discriminate|];
      intros _; left; destruct error as [e|]; eexists;
      [now apply (validate_invalid_error _ _ _ _ _ _ _ _ _ signature content
                                         rel_path e trials)
      |now apply (validate_invalid _ _ _ _ _ _ _ _ _ signature content
                                   rel_path trials)].
Qed.

(** C4.  The result of a directory is the AND of the results of the
    children the walk visits, and its events are theirs, one child after
    the other: a child that fails is recorded and the next ones are
    still visited.  The status of a run is the AND over all the roots,
    and when no root is refused (a directory given without the recursive
    option) every root is walked whatever the earlier ones gave.  A
    failure of any kind is recorded: an entry that cannot be examined,
    an entry of an unsupported type, a directory that cannot be opened
    and a regular file or symlink that fails in any of its steps each
    give FALSE and print their diagnostic; FALSE is returned for no
    other reason than such a failure or a failing entry of an opened
    directory, and never without a diagnostic.  The same holds for
    signing and for validating. *)
Theorem walk_aggregates :
  forall (ssl : OpenSSL) (magic : list byte) (M : Main),
    let sign := Sign.sign ssl magic M in
    let validate := Validate.validate ssl magic M in
    (forall path relative_to st_mode leaf children,
        Z.land st_mode S_IFMT = S_IFDIR ->
        let results :=
          child_results (fun p n => sign p relative_to n) path children in
        sign path relative_to (Inode st_mode leaf None children)
        = (all_succeed results,
           g_debug "Signing %s" [AStr path] :: all_events results))
    /\ (forall roots,
           roots <> [] ->
           fst (Sign.cmd_sign ssl magic M roots)
           = if forallb (root_result sign M) roots
             then EXIT_SUCCESS else EXIT_FAILURE)
    /\ (forall roots,
           roots <> [] ->
           forallb (fun r => negb (refused M r)) roots = true ->
           snd (Sign.cmd_sign ssl magic M roots)
           = g_debug "Entering cmd_sign" []
                     :: concat (map (root_events sign M) roots))
    /\ (forall path relative_to st_mode leaf children,
           Z.land st_mode S_IFMT = S_IFDIR ->
           let results :=
             child_results (fun p n => validate p relative_to n)
                           path children in
           validate path relative_to (Inode st_mode leaf None children)
           = (all_succeed results,
              g_debug "Validating %s" [AStr path] :: all_events results))
    /\ (forall roots,
           roots <> [] ->
           fst (Validate.cmd_validate ssl magic M roots)
           = if forallb (root_result validate M) roots
             then EXIT_SUCCESS else EXIT_FAILURE)
    /\ (forall roots,
           roots <> [] ->
           forallb (fun r => negb (refused M r)) roots = true ->
           snd (Validate.cmd_validate ssl magic M roots)
           = g_debug "Entering cmd_validate" []
                     :: concat (map (root_events validate M) roots))
    /\ (forall path relative_to n diagnostic,
           sign_failure ssl magic M path relative_to n diagnostic ->
           sign path relative_to n
           = (false, [g_debug "Signing %s" [AStr path]; diagnostic]))
    /\ (forall path relative_to n diagnostic,
           validate_failure ssl magic M path relative_to n diagnostic ->
           exists trials,
             forallb is_debug trials = true
             /\ validate path relative_to n
                = (false,
                   g_debug "Validating %s" [AStr path]
                           :: trials ++ [diagnostic]))
    /\ (forall path relative_to n,
           fst (sign path relative_to n) = false ->
           existsb is_printerr (snd (sign path relative_to n)) = true
           /\ ((exists diagnostic,
                   sign_failure ssl magic M path relative_to n diagnostic)
               \/ failing_directory (fun p c => sign p relative_to c)
                                    path n))
    /\ (forall path relative_to n,
           fst (validate path relative_to n) = false ->
           existsb is_printerr (snd (validate path relative_to n)) = true
           /\ ((exists diagnostic,
                   validate_failure ssl magic M path relative_to n
                                    diagnostic)
               \/ failing_directory (fun p c => validate p relative_to c)
                                    path n)).
Proof.
  intros ssl magic M sign validate.
  split; [|split; [|split; [|split; [|split; [|split; [|split;
    [|split; [|split]]]]]]]].
  - intros path relative_to st_mode leaf children T results.
    subst sign results. now apply sign_directory_results.
  - intros [|r rest] N; [contradiction|].
    unfold Sign.cmd_sign.
    pose proof (cmd_sign_loop_status ssl magic M (r :: rest) true) as H.
    destruct (Sign.cmd_sign_loop ssl magic M (r :: rest) true).
    exact H.
  - intros [|r rest] N R; [contradiction|].
    unfold Sign.cmd_sign.
    pose proof (cmd_sign_loop_events ssl magic M (r :: rest) R true) as H.
    destruct (Sign.cmd_sign_loop ssl magic M (r :: rest) true).
    cbn [snd] in *. now rewrite H.
  - intros path relative_to st_mode leaf children T results.
    subst validate results. now apply validate_directory_results.
  - intros [|r rest] N; [contradiction|].
    unfold Validate.cmd_validate.
    pose proof (cmd_validate_loop_status ssl magic M (r :: rest) true) as H.
    destruct (Validate.cmd_validate_loop ssl magic M (r :: rest) true).
    exact H.
  - intros [|r rest] N R; [contradiction|].
    unfold Validate.cmd_validate.
    pose proof (cmd_validate_loop_events ssl magic M (r :: rest) R true)
      as H.
    destruct (Validate.cmd_validate_loop ssl magic M (r :: rest) true).
    cbn [snd] in *. now rewrite H.
  - intros path relative_to n diagnostic F.
    now apply sign_failure_recorded.
  - intros path relative_to n diagnostic F.
    now apply validate_failure_recorded.
  - intros path relative_to n F. split.
    + subst sign. rewrite sign_reports in F.
      now apply negb_false_iff in F.
    + now apply sign_false_cause.
  - intros path relative_to n F. split.
    + subst validate. rewrite validate_reports in F.
      now apply negb_false_iff in F.
    + now apply validate_false_cause.
Qed.

(** Three files, the second unreadable: the directory fails, the first
    is already signed, and the third is signed all the same.  In a run
    over that directory and then over one more file, the status is a
    failure and the file is signed after the directory has failed.  A
    FIFO is recorded as a failure, and so is every failing entry of the
    mixed directory, whose last file is signed all the same. *)
Lemma walk_aggregates_witness :
  let result :=
    Sign.sign Examples.ssl Examples.magic Examples.main
              (lit "/t") (lit "/t") Examples.three_files in
  let run :=
    Sign.cmd_sign Examples.ssl Examples.magic Examples.main
                  [Examples.tree_root; Examples.envelope_root] in
  let mixed :=
    Sign.sign Examples.ssl Examples.magic Examples.main
              (lit "/m") (lit "/m") mixed_tree in
  fst result = false
  /\ In (g_printerr "Failed to read file '%s': %s\n"
                    [AStr (lit "/t/b"); AErr G_FILE_ERROR_ACCES])
        (snd result)
  /\ In (g_info "Wrote signature '%s' (for path %s)"
                [AStr (lit "/t/c.sig"); AStr (lit "c")])
        (snd result)
  /\ fst run = EXIT_FAILURE
  /\ In (g_info "Wrote signature '%s' (for path %s)"
                [AStr (lit "/t/a.sig.sig"); AStr (lit "a.sig")])
        (snd run)
  /\ Sign.sign Examples.ssl Examples.magic Examples.main
               (lit "/m/fifo") (lit "/m") fifo
     = (false,
        [g_debug "Signing %s" [AStr (lit "/m/fifo")];
         g_printerr "Unsupported file type for '%s'\n"
                    [AStr (lit "/m/fifo")]])
  /\ fst mixed = false
  /\ In (g_printerr "Unsupported file type for '%s'\n"
                    [AStr (lit "/m/fifo")])
        (snd mixed)
  /\ In (g_printerr "Can't access '%s': %s\n"
                    [AStr (lit "/m/gone"); AStrerror])
        (snd mixed)
  /\ In (g_printerr "Failed to open dir '%s': %s\n"
                    [AStr (lit "/m/locked"); AStrerror])
        (snd mixed)
  /\ In (g_printerr "Failed to read file '%s': %s\n"
                    [AStr (lit "/m/b"); AErr G_FILE_ERROR_ACCES])
        (snd mixed)
  /\ In (g_info "Wrote signature '%s' (for path %s)"
                [AStr (lit "/m/z.sig"); AStr (lit "z")])
        (snd mixed).
Proof.
  destruct (walk_aggregates Examples.ssl Examples.magic Examples.main)
    as (H & S & E & _ & _ & _ & F & _).
  cbv zeta. unfold Examples.three_files, mixed_tree, Examples.directory.
  rewrite (H (lit "/t") (lit "/t") (S_IFDIR + 0x1ED)%Z
             (Examples.plain_leaf []) Examples.three_entries eq_refl).
  rewrite (H (lit "/m") (lit "/m") (S_IFDIR + 0x1ED)%Z
             (Examples.plain_leaf []) mixed_entries eq_refl).
  rewrite (S [Examples.tree_root; Examples.envelope_root]
             ltac:(discriminate)).
  rewrite (E [Examples.tree_root; Examples.envelope_root]
             ltac:(discriminate) eq_refl).
  rewrite (F (lit "/m/fifo") (lit "/m") fifo _
             (sign_type_unsupported
                Examples.ssl Examples.magic Examples.main
                (lit "/m/fifo") (lit "/m") (0x1000 + 0x1A4)%Z
                (Examples.plain_leaf []) None []
                ltac:(discriminate) ltac:(discriminate)
                ltac:(discriminate))).
  vm_compute. repeat split; auto 20.
Defined.

End Aggregation.



(** ** What is written *)

Section Writes.

Import WalkSpec WalkObs.

Lemma child_results_none (q : event -> bool)
      (visit : list byte -> fsnode -> bool * list event)
      (path : list byte) (children : list (list byte * fsnode)) :
  Forall (fun entry => forall p, existsb q (snd (visit p (snd entry))) = false)
         children ->
  existsb q (all_events (child_results visit path children)) = false.
Proof.
  unfold all_events, child_results, visited.
  induction 1 as [|[name c] rest H _ IH]; [reflexivity|].
  cbn [filter fst]. destruct (negb (is_envelope_name name)); [|exact IH].
  cbn [map concat snd]. simpl in H. now rewrite existsb_app, H, IH.
Qed.

Lemma validate_leaf_no_write (ssl : OpenSSL) (magic : list byte) (M : Main)
      (path relative_to : list byte) (st_mode type : Z)
      (leaf : Utils.leaf_obs) :
  existsb is_write
          (snd (Validate.validate_leaf ssl magic M path relative_to
                                       st_mode type leaf)) = false.
Proof.
  unfold Validate.validate_leaf.
  destruct (Utils.get_contents leaf) as [e|signature].
  { destruct (g_error_matches e G_FILE_ERROR_NOENT); reflexivity. }
  destruct (Utils.load_file_data_for_sign _ _ leaf) as [e|content];
    [reflexivity|].
  destruct (opt_get_relative_path M path relative_to (opt_path_prefix M))
    as [rel_path|]; [|reflexivity].
  pose proof (validate_data_debug ssl magic rel_path content signature type
                                  (opt_public_keys M)) as D.
  destruct (Utils.validate_data ssl magic rel_path type content signature
                                (opt_public_keys M)) as [[valid error] log].
  cbn [snd] in D. apply debug_not_write in D.
  destruct valid; cbn [negb].
  - cbn [snd]. now rewrite existsb_app, D.
  - destruct error; cbn [snd]; now rewrite existsb_app, D.
Qed.

Lemma validate_no_write (ssl : OpenSSL) (magic : list byte) (M : Main)
      (relative_to : list byte) (n : fsnode) :
  forall path,
    existsb is_write (snd (Validate.validate ssl magic M path relative_to n))
    = false.
Proof.
  induction n as [e|st_mode leaf dir_error children IH]
    using fsnode_induction; intros path; [reflexivity|].
  destruct (Z.eq_dec (Z.land st_mode S_IFMT) S_IFDIR) as [T|T].
  - destruct dir_error as [e|].
    + rewrite (validate_unopened _ _ _ _ _ _ _ _ _ T).
      destruct (g_error_matches e G_FILE_ERROR_NOENT); reflexivity.
    + rewrite (validate_directory_results _ _ _ _ _ _ _ _ T).
      cbn [snd existsb is_write orb]. now apply child_results_none.
  - cbn [Validate.validate]. apply Z.eqb_neq in T. rewrite T.
    destruct ((Z.land st_mode S_IFMT =? S_IFREG)%Z
              || (Z.land st_mode S_IFMT =? S_IFLNK)%Z); [|reflexivity].
    pose proof (validate_leaf_no_write ssl magic M path relative_to st_mode
                                       (Z.land st_mode S_IFMT) leaf) as L.
    destruct (Validate.validate_leaf ssl magic M path relative_to st_mode
                                     (Z.land st_mode S_IFMT) leaf)
      as [ok log].
    exact L.
Qed.

Lemma cmd_validate_loop_no_write (ssl : OpenSSL) (magic : list byte)
      (M : Main) (roots : list root) :
  forall res,
    existsb is_write (snd (Validate.cmd_validate_loop ssl magic M roots res))
    = false.
Proof.
  induction roots as [|r rest IH]; intros res; [reflexivity|].
  cbn [Validate.cmd_validate_loop].
  destruct (root_is_dir r).
  - destruct (opt_recursive M); cbn [negb]; [|reflexivity].
    pose proof (validate_no_write ssl magic M
                  match opt_path_relative M with
                  | Some p => p | None => root_path r end
                  (root_node r) (root_path r)) as R.
    destruct (Validate.validate ssl magic M (root_path r) _ (root_node r))
      as [ok log].
    specialize (IH (if negb ok then false else res)).
    destruct (Validate.cmd_validate_loop ssl magic M rest _)
      as [status log'].
    cbn [snd existsb is_write orb] in *. now rewrite existsb_app, R, IH.
  - pose proof (validate_no_write ssl magic M
                  match opt_path_relative M with
                  | Some p => p | None => root_dirname r end
                  (root_node r) (root_path r)) as R.
    destruct (Validate.validate ssl magic M (root_path r) _ (root_node r))
      as [ok log].
    specialize (IH (if negb ok then false else res)).
    destruct (Validate.cmd_validate_loop ssl magic M rest _)
      as [status log'].
    cbn [snd existsb is_write orb] in *. now rewrite existsb_app, R, IH.
Qed.

(** X8.  Validation writes nothing: no event of [validate], and none of
    a whole [cmd_validate] run, stores a file, whatever the tree, the
    envelopes and the keys. *)
Theorem validate_writes_nothing :
  forall (ssl : OpenSSL) (magic : list byte) (M : Main)
         (path relative_to : list byte) (n : fsnode) (roots : list root),
    existsb is_write (snd (Validate.validate ssl magic M path relative_to n))
    = false
    /\ existsb is_write (snd (Validate.cmd_validate ssl magic M roots))
       = false.
Proof.
  intros ssl magic M path relative_to n roots.
  split; [apply validate_no_write|].
  unfold Validate.cmd_validate. destruct roots as [|r rest]; [reflexivity|].
  pose proof (cmd_validate_loop_no_write ssl magic M (r :: rest) true) as H.
  destruct (Validate.cmd_validate_loop ssl magic M (r :: rest) true)
    as [status log].
  exact H.
Qed.

Lemma fully_signed_inode (st_mode : Z) (leaf : Utils.leaf_obs)
      (dir_error : option GError) (children : list (list byte * fsnode)) :
  fully_signed (Inode st_mode leaf dir_error children)
  = (((Z.land st_mode S_IFMT =? S_IFREG)%Z
      || (Z.land st_mode S_IFMT =? S_IFLNK)%Z = true ->
      Utils.sig_exists leaf = true)
     /\ fully_signed_entries children).
Proof. reflexivity. Qed.

(** In a tree where every leaf has its envelope, signing without the
    force option stores nothing and does not use the engine. *)
Lemma sign_fully_signed (ssl ssl' : OpenSSL) (magic magic' : list byte)
      (M : Main) (relative_to : list byte) (n : fsnode) :
  opt_force M = false ->
  fully_signed n ->
  forall path,
    existsb is_write (snd (Sign.sign ssl magic M path relative_to n)) = false
    /\ Sign.sign ssl magic M path relative_to n
       = Sign.sign ssl' magic' M path relative_to n.
Proof.
  intros F.
  induction n as [e|st_mode leaf dir_error children IH]
    using fsnode_induction; intros S path; [now split|].
  rewrite fully_signed_inode in S. destruct S as [Sl Sc].
  destruct (Z.eq_dec (Z.land st_mode S_IFMT) S_IFDIR) as [T|T].
  - destruct dir_error as [e|].
    + rewrite !(sign_unopened _ _ _ _ _ _ _ _ _ T).
      destruct (g_error_matches e G_FILE_ERROR_NOENT); now split.
    + rewrite !(sign_directory _ _ _ _ _ _ _ _ T).
      assert (W : forall success,
                 existsb is_write
                         (snd (walk_entries
                                 (fun p c => Sign.sign ssl magic M p
                                                       relative_to c)
                                 path children success)) = false
                 /\ walk_entries
                      (fun p c => Sign.sign ssl magic M p relative_to c)
                      path children success
                    = walk_entries
                        (fun p c => Sign.sign ssl' magic' M p relative_to c)
                        path children success).
      { clear Sl. induction IH as [|[name c] rest H _ IHrest];
          intros success; [now split|].
        destruct Sc as [Sc1 Sc2]. cbn [walk_entries].
        unfold is_envelope_name in Sc1.
        destruct (g_str_has_suffix name (lit ".sig")); [now apply IHrest|].
        simpl in H.
        destruct (H (Sc1 eq_refl) (g_build_filename path name)) as [H1 H2].
        rewrite <- H2.
        destruct (Sign.sign ssl magic M (g_build_filename path name)
                            relative_to c) as [ok log].
        destruct (IHrest Sc2 (if negb ok then false else success))
          as [I1 I2].
        rewrite <- I2.
        destruct (walk_entries _ path rest _) as [s' log'].
        cbn [snd] in *. now rewrite existsb_app, H1, I1. }
      destruct (W true) as [W1 W2]. rewrite <- W2.
      destruct (walk_entries _ path children true) as [s log].
      now split.
  - cbn [Sign.sign]. apply Z.eqb_neq in T. rewrite T.
    destruct ((Z.land st_mode S_IFMT =? S_IFREG)%Z
              || (Z.land st_mode S_IFMT =? S_IFLNK)%Z); [|now split].
    unfold Sign.sign_leaf. rewrite F, (Sl eq_refl). now split.
Qed.

(** X9.  Signing again a tree that is signed changes nothing: without
    the force option, when every regular file and symlink of the tree has
    an envelope, [sign] stores no file, and its value and events are the
    same whatever the private key engine and the marker. *)
Theorem sign_again_writes_nothing :
  forall (ssl ssl' : OpenSSL) (magic magic' : list byte) (M : Main)
         (path relative_to : list byte) (n : fsnode),
    opt_force M = false ->
    fully_signed n ->
    existsb is_write (snd (Sign.sign ssl magic M path relative_to n)) = false
    /\ Sign.sign ssl magic M path relative_to n
       = Sign.sign ssl' magic' M path relative_to n.
Proof.
  intros ssl ssl' magic magic' M path relative_to n F S.
  now apply sign_fully_signed.
Qed.

Lemma sign_again_writes_nothing_witness :
  existsb is_write
          (snd (Sign.sign Examples.ssl Examples.magic Examples.main
                          (lit "/t") (lit "/t") Samples.signed_tree)) = false.
Proof.
  apply (sign_again_writes_nothing
           Examples.ssl Examples.ssl Examples.magic Examples.magic
           Examples.main (lit "/t") (lit "/t") Samples.signed_tree eq_refl).
  vm_compute. intuition discriminate.
Defined.

End Writes.

(** ** The paths of a walk *)

Section WalkedPaths.

Import Utils PathSpec WalkSpec WalkObs.

Lemma strip_leading_skip_slashes (s : list byte) :
  strip_leading s = skip_slashes s.
Proof.
  induction s as [|c s IH]; [reflexivity|].
  simpl. now rewrite IH.
Qed.

Lemma skip_slashes_repeat (s : list byte) :
  exists k, s = repeat SLASH k ++ skip_slashes s.
Proof.
  induction s as [|c s [k IH]]; [now exists 0|].
  simpl. destruct (is_slash c) eqn:E; [|now exists 0].
  apply byte_eqb_eq in E. subst c.
  exists (S k). simpl. now f_equal.
Qed.

Lemma strip_trailing_repeat (s : list byte) :
  exists k, s = strip_trailing s ++ repeat SLASH k.
Proof.
  unfold strip_trailing. rewrite strip_leading_skip_slashes.
  destruct (skip_slashes_repeat (rev s)) as [k H].
  exists k. apply (f_equal (@rev byte)) in H.
  rewrite rev_involutive, rev_app_distr, rev_repeat in H. exact H.
Qed.

Lemma length_c_str (s : list byte) : length (c_str s) = strlen s.
Proof.
  unfold c_str, memcpy. rewrite length_firstn.
  pose proof (strlen_le s). lia.
Qed.

(** The segments of a path built from a directory path and a name are
    those of the directory followed by those of the name. *)
Lemma segments_g_build_filename (a b : list byte) :
  segments (g_build_filename a b) = segments a ++ segments b.
Proof.
  unfold g_build_filename, segments.
  pose proof (c_str_is_nul_free a) as Na.
  pose proof (c_str_is_nul_free b) as Nb.
  destruct (c_str a) as [|x a'] eqn:Ea.
  { now rewrite (c_str_nul_free _ Nb). }
  destruct (c_str b) as [|y b'] eqn:Eb.
  { rewrite (c_str_nul_free _ Na). now rewrite app_nil_r. }
  destruct (strip_trailing_repeat (x :: a')) as [k Hk].
  destruct (skip_slashes_repeat (y :: b')) as [j Hj].
  rewrite strip_leading_skip_slashes.
  assert (N1 : nul_free (strip_trailing (x :: a'))).
  { rewrite Hk in Na. now apply nul_free_app in Na. }
  assert (N2 : nul_free (skip_slashes (y :: b'))).
  { now apply nul_free_skip_slashes. }
  rewrite c_str_nul_free.
  - change ([SLASH] ++ skip_slashes (y :: b'))
      with (SLASH :: skip_slashes (y :: b')).
    rewrite segs_app_slash, segs_skip_slashes.
    f_equal. rewrite Hk at 2. now rewrite segs_app_slashes.
  - apply nul_free_app. split; [exact N1|].
    apply nul_free_app. split; [|exact N2].
    intros [H|[]]. discriminate.
Qed.

Lemma has_path_prefix_child (path name : list byte) :
  has_path_prefix (g_build_filename path name) path = Some true.
Proof.
  apply has_path_prefix_true. rewrite segments_g_build_filename.
  now exists (segments name).
Qed.

Lemma walked_paths_inode (path : list byte) (st_mode : Z)
      (leaf : leaf_obs) (dir_error : option GError)
      (children : list (list byte * fsnode)) :
  walked_paths path (Inode st_mode leaf dir_error children)
  = path :: if (Z.land st_mode S_IFMT =? S_IFDIR)%Z then
              match dir_error with
              | Some _ => []
              | None => walked_entries path children
              end
            else [].
Proof. reflexivity. Qed.

Lemma walked_paths_under (n : fsnode) :
  forall path,
    Forall (fun p => has_path_prefix p path = Some true)
           (walked_paths path n).
Proof.
  induction n as [e|st_mode leaf dir_error children IH]
    using fsnode_induction; intros path.
  - constructor; [|constructor].
    apply has_path_prefix_true, initial_refl.
  - rewrite walked_paths_inode.
    constructor; [apply has_path_prefix_true, initial_refl|].
    destruct (Z.land st_mode S_IFMT =? S_IFDIR)%Z; [|constructor].
    destruct dir_error; [constructor|].
    induction IH as [|[name c] rest H _ IHrest]; [constructor|].
    cbn [walked_entries].
    destruct (is_envelope_name name); [exact IHrest|].
    apply Forall_app. split; [|exact IHrest].
    simpl in H. specialize (H (g_build_filename path name)).
    eapply Forall_impl; [|exact H].
    intros p Hp. cbv beta in Hp.
    apply has_path_prefix_true. apply has_path_prefix_true in Hp.
    eapply initial_trans; [|exact Hp].
    apply has_path_prefix_true, has_path_prefix_child.
Qed.

Lemma debug_paths_app (format : string) (l1 l2 : list event) :
  debug_paths format (l1 ++ l2)
  = debug_paths format l1 ++ debug_paths format l2.
Proof. apply flat_map_app. Qed.

Lemma sign_leaf_debug_paths (format : string) (ssl : OpenSSL)
      (magic : list byte) (M : Main) (path relative_to : list byte)
      (st_mode type : Z) (leaf : leaf_obs) :
  debug_paths format
              (snd (Sign.sign_leaf ssl magic M path relative_to st_mode type
                                   leaf)) = [].
Proof.
  unfold Sign.sign_leaf.
  destruct (negb (opt_force M) && sig_exists leaf); [reflexivity|].
  destruct (load_file_data_for_sign _ _ leaf) as [e|content]; [reflexivity|].
  destruct (opt_get_relative_path M path relative_to (opt_path_prefix M))
    as [rel_path|]; [|reflexivity].
  destruct (sign_data ssl magic type rel_path content (opt_private_key M));
    [reflexivity|].
  destruct (set_contents leaf); reflexivity.
Qed.

Lemma validate_data_loop_debug_paths (ssl : OpenSSL)
      (sig to_sign : list byte) (keys : list EVP_PKEY) :
  forall i,
    debug_paths "Validating %s"
                (snd (validate_data_loop ssl i keys sig to_sign)) = [].
Proof.
  induction keys as [|key keys IH]; intros i; [reflexivity|].
  cbn [validate_data_loop].
  destruct (EVP_MD_CTX_new ssl i); cbn [negb]; [|reflexivity].
  destruct (EVP_DigestVerifyInit ssl key =? 0)%Z; [reflexivity|].
  destruct (EVP_DigestVerify ssl key sig to_sign =? 1)%Z; [reflexivity|].
  destruct (EVP_DigestVerify ssl key sig to_sign =? 0)%Z; cbn [negb];
    [|reflexivity].
  specialize (IH (S i)).
  now destruct (validate_data_loop ssl (S i) keys sig to_sign) as [[? ?] ?].
Qed.

Lemma validate_data_debug_paths (ssl : OpenSSL)
      (magic rel_path content sig : list byte) (type : Z)
      (pub_keys : list EVP_PKEY) :
  debug_paths "Validating %s"
              (snd (validate_data ssl magic rel_path type content sig
                                  pub_keys)) = [].
Proof.
  unfold validate_data.
  destruct ((length sig <? length magic)
            || negb (memcmp_eq sig magic (length magic))); [reflexivity|].
  destruct (make_sign_blob rel_path type content) as [e|to_sign];
    [reflexivity|].
  pose proof (validate_data_loop_debug_paths
                ssl (skipn (length magic) sig) to_sign pub_keys 0) as H.
  now destruct (validate_data_loop ssl 0 pub_keys _ to_sign) as [[? ?] ?].
Qed.

Lemma validate_leaf_debug_paths (ssl : OpenSSL) (magic : list byte)
      (M : Main) (path relative_to : list byte) (st_mode type : Z)
      (leaf : leaf_obs) :
  debug_paths "Validating %s"
              (snd (Validate.validate_leaf ssl magic M path relative_to
                                           st_mode type leaf)) = [].
Proof.
  unfold Validate.validate_leaf.
  destruct (get_contents leaf) as [e|signature].
  { destruct (g_error_matches e G_FILE_ERROR_NOENT); reflexivity. }
  destruct (load_file_data_for_sign _ _ leaf) as [e|content]; [reflexivity|].
  destruct (opt_get_relative_path M path relative_to (opt_path_prefix M))
    as [rel_path|]; [|reflexivity].
  pose proof (validate_data_debug_paths ssl magic rel_path content signature
                                        type (opt_public_keys M)) as D.
  destruct (validate_data ssl magic rel_path type content signature
                          (opt_public_keys M)) as [[valid error] log].
  cbn [snd] in D.
  destruct valid; cbn [negb].
  - cbn [snd]. now rewrite debug_paths_app, D.
  - destruct error; cbn [snd]; now rewrite debug_paths_app, D.
Qed.

Lemma child_results_debug_paths (format : string)
      (visit : list byte -> fsnode -> bool * list event)
      (path : list byte) (children : list (list byte * fsnode)) :
  Forall (fun entry =>
            forall p, debug_paths format (snd (visit p (snd entry)))
                      = walked_paths p (snd entry)) children ->
  debug_paths format (all_events (child_results visit path children))
  = walked_entries path children.
Proof.
  unfold all_events, child_results, visited.
  induction 1 as [|[name c] rest H _ IH]; [reflexivity|].
  cbn [filter fst walked_entries].
  destruct (is_envelope_name name); [exact IH|].
  cbn [negb map concat snd]. simpl in H.
  now rewrite debug_paths_app, H, IH.
Qed.

Lemma sign_debug_paths (ssl : OpenSSL) (magic : list byte) (M : Main)
      (relative_to : list byte) (n : fsnode) :
  forall path,
    debug_paths "Signing %s" (snd (Sign.sign ssl magic M path relative_to n))
    = walked_paths path n.
Proof.
  induction n as [e|st_mode leaf dir_error children IH]
    using fsnode_induction; intros path; [reflexivity|].
  rewrite walked_paths_inode.
  destruct (Z.eq_dec (Z.land st_mode S_IFMT) S_IFDIR) as [T|T].
  - rewrite T. cbn [Z.eqb S_IFDIR Pos.eqb].
    destruct dir_error as [e|].
    + rewrite (sign_unopened _ _ _ _ _ _ _ _ _ T).
      destruct (g_error_matches e G_FILE_ERROR_NOENT); reflexivity.
    + rewrite (sign_directory_results _ _ _ _ _ _ _ _ T).
      cbn [snd]. change (debug_paths "Signing %s" (?x :: ?l))
        with (debug_paths "Signing %s" [x] ++ debug_paths "Signing %s" l).
      rewrite (child_results_debug_paths _ _ _ _ IH). reflexivity.
  - cbn [Sign.sign]. apply Z.eqb_neq in T. rewrite T.
    destruct ((Z.land st_mode S_IFMT =? S_IFREG)%Z
              || (Z.land st_mode S_IFMT =? S_IFLNK)%Z); [|reflexivity].
    pose proof (sign_leaf_debug_paths "Signing %s" ssl magic M path
                  relative_to st_mode (Z.land st_mode S_IFMT) leaf) as L.
    destruct (Sign.sign_leaf ssl magic M path relative_to st_mode
                             (Z.land st_mode S_IFMT) leaf) as [ok log].
    cbn [snd] in *.
    change (debug_paths "Signing %s" (?x :: ?l))
      with (debug_paths "Signing %s" [x] ++ debug_paths "Signing %s" l).
    now rewrite L.
Qed.

Lemma validate_debug_paths (ssl : OpenSSL) (magic : list byte) (M : Main)
      (relative_to : list byte) (n : fsnode) :
  forall path,
    debug_paths "Validating %s"
                (snd (Validate.validate ssl magic M path relative_to n))
    = walked_paths path n.
Proof.
  induction n as [e|st_mode leaf dir_error children IH]
    using fsnode_induction; intros path; [reflexivity|].
  rewrite walked_paths_inode.
  destruct (Z.eq_dec (Z.land st_mode S_IFMT) S_IFDIR) as [T|T].
  - rewrite T. cbn [Z.eqb S_IFDIR Pos.eqb].
    destruct dir_error as [e|].
    + rewrite (validate_unopened _ _ _ _ _ _ _ _ _ T).
      destruct (g_error_matches e G_FILE_ERROR_NOENT); reflexivity.
    + rewrite (validate_directory_results _ _ _ _ _ _ _ _ T).
      cbn [snd]. change (debug_paths "Validating %s" (?x :: ?l))
        with (debug_paths "Validating %s" [x]
                ++ debug_paths "Validating %s" l).
      rewrite (child_results_debug_paths _ _ _ _ IH). reflexivity.
  - cbn [Validate.validate]. apply Z.eqb_neq in T. rewrite T.
    destruct ((Z.land st_mode S_IFMT =? S_IFREG)%Z
              || (Z.land st_mode S_IFMT =? S_IFLNK)%Z); [|reflexivity].
    pose proof (validate_leaf_debug_paths ssl magic M path relative_to
                  st_mode (Z.land st_mode S_IFMT) leaf) as L.
    destruct (Validate.validate_leaf ssl magic M path relative_to st_mode
                                     (Z.land st_mode S_IFMT) leaf)
      as [ok log].
    cbn [snd] in *.
    change (debug_paths "Validating %s" (?x :: ?l))
      with (debug_paths "Validating %s" [x]
              ++ debug_paths "Validating %s" l).
    now rewrite L.
Qed.

(** X10.  Signing and validating walk a tree the same way: the paths
    [sign] announces ("Signing ...") and those [validate] announces
    ("Validating ...") are the same, in the same order, whatever the
    options, the keys and the outcome of each leaf: the start path, and
    under every directory that opens the entries whose names do not end
    in ".sig". *)
Theorem sign_validate_same_walk :
  forall (ssl ssl' : OpenSSL) (magic magic' : list byte) (M M' : Main)
         (path relative_to relative_to' : list byte) (n : fsnode),
    debug_paths "Signing %s" (snd (Sign.sign ssl magic M path relative_to n))
    = walked_paths path n
    /\ debug_paths "Validating %s"
                   (snd (Validate.validate ssl' magic' M' path relative_to' n))
       = walked_paths path n.
Proof.
  intros. split; [apply sign_debug_paths|apply validate_debug_paths].
Qed.

(** X11.  The walk stays under its start: every path [sign] or
    [validate] is called on during a walk started at [path] is under
    [path] in the sense of [has_path_prefix]. *)
Theorem walk_stays_under_start :
  forall (ssl : OpenSSL) (magic : list byte) (M : Main)
         (path relative_to : list byte) (n : fsnode),
    Forall (fun p => has_path_prefix p path = Some true)
           (debug_paths "Signing %s"
                        (snd (Sign.sign ssl magic M path relative_to n)))
    /\ Forall (fun p => has_path_prefix p path = Some true)
              (debug_paths "Validating %s"
                           (snd (Validate.validate ssl magic M path
                                                   relative_to n))).
Proof.
  intros. rewrite sign_debug_paths, validate_debug_paths.
  split; apply walked_paths_under.
Qed.

End WalkedPaths.


(** ** The files signing writes *)

Section EnvelopeWrites.

Import Utils WalkSpec WalkObs.

(** A name made by adding a suffix has that suffix. *)
Lemma g_strconcat_has_suffix (a b : list byte) :
  g_str_has_suffix (g_strconcat a b) b = true.
Proof.
  unfold g_str_has_suffix, g_strconcat.
  assert (N : nul_free (c_str a ++ c_str b)).
  { apply nul_free_app. split; apply c_str_is_nul_free. }
  rewrite (strlen_nul_free _ N), (c_str_nul_free _ N).
  rewrite length_app, !length_c_str.
  replace (strlen a + strlen b <? strlen b) with false
    by (symmetry; apply Nat.ltb_ge; lia).
  replace (strlen a + strlen b - strlen b) with (length (c_str a) + 0)
    by (rewrite length_c_str; lia).
  rewrite skipn_app, Nat.add_comm, skipn_all2 by lia.
  replace (0 + length (c_str a) - length (c_str a)) with 0 by lia.
  apply bytes_eqb_refl.
Qed.

Lemma envelope_write_incl (magic : list byte) (ps ps' : list (list byte))
      (ev : event) :
  incl ps ps' -> envelope_write magic ps ev -> envelope_write magic ps' ev.
Proof.
  intros I. destruct ev; simpl; auto.
  intros (H1 & H2 & p & Hp & E). repeat split; auto.
  exists p. auto.
Qed.

Lemma sign_leaf_envelope_writes (ssl : OpenSSL) (magic : list byte)
      (M : Main) (path relative_to : list byte) (st_mode type : Z)
      (leaf : leaf_obs) :
  Forall (envelope_write magic [path])
         (snd (Sign.sign_leaf ssl magic M path relative_to st_mode type leaf)).
Proof.
  unfold Sign.sign_leaf.
  destruct (negb (opt_force M) && sig_exists leaf);
    [repeat constructor|].
  destruct (load_file_data_for_sign _ _ leaf) as [e|content];
    [repeat constructor|].
  destruct (opt_get_relative_path M path relative_to (opt_path_prefix M))
    as [rel_path|]; [|repeat constructor].
  destruct (sign_data ssl magic type rel_path content (opt_private_key M))
    as [e|signature] eqn:S; [repeat constructor|].
  destruct (set_contents leaf); [repeat constructor|].
  cbn [snd]. constructor; [|repeat constructor].
  destruct (sign_data_inr _ _ _ _ _ _ _ S) as (to_sign & s & k & _ & _ & ->).
  split; [apply g_strconcat_has_suffix|].
  split; [apply envelope_marker|].
  exists path. split; [now left|reflexivity].
Qed.

Lemma sign_envelope_writes (ssl : OpenSSL) (magic : list byte) (M : Main)
      (relative_to : list byte) (n : fsnode) :
  forall path,
    Forall (envelope_write magic (walked_paths path n))
           (snd (Sign.sign ssl magic M path relative_to n)).
Proof.
  induction n as [e|st_mode leaf dir_error children IH]
    using fsnode_induction; intros path; [repeat constructor|].
  rewrite walked_paths_inode.
  destruct (Z.eq_dec (Z.land st_mode S_IFMT) S_IFDIR) as [T|T].
  - rewrite T. cbn [Z.eqb S_IFDIR Pos.eqb].
    destruct dir_error as [e|].
    + rewrite (sign_unopened _ _ _ _ _ _ _ _ _ T).
      destruct (g_error_matches e G_FILE_ERROR_NOENT); repeat constructor.
    + rewrite (sign_directory_results _ _ _ _ _ _ _ _ T).
      cbn [snd]. constructor; [exact I|].
      unfold all_events, child_results, visited.
      induction IH as [|[name c] rest H _ IHrest]; [constructor|].
      cbn [filter fst walked_entries].
      destruct (is_envelope_name name); [exact IHrest|].
      cbn [negb map concat snd]. simpl in H.
      apply Forall_app. split.
      * eapply Forall_impl; [|apply (H (g_build_filename path name))].
        intros ev. apply envelope_write_incl.
        intros p Hp. right. apply in_or_app. now left.
      * eapply Forall_impl; [|exact IHrest].
        intros ev. apply envelope_write_incl.
        intros p [<-|Hp]; [now left|].
        right. apply in_or_app. now right.
  - cbn [Sign.sign]. apply Z.eqb_neq in T. rewrite T.
    destruct ((Z.land st_mode S_IFMT =? S_IFREG)%Z
              || (Z.land st_mode S_IFMT =? S_IFLNK)%Z);
      [|repeat constructor].
    pose proof (sign_leaf_envelope_writes ssl magic M path relative_to
                  st_mode (Z.land st_mode S_IFMT) leaf) as L.
    destruct (Sign.sign_leaf ssl magic M path relative_to st_mode
                             (Z.land st_mode S_IFMT) leaf) as [ok log].
    cbn [snd] in *. constructor; [exact I|exact L].
Qed.

(** X12.  Signing stores envelopes and nothing else: every file [sign]
    writes is named after a path of the walk with ".sig" added, so its
    name ends in ".sig", and what is written starts with the marker. *)
Theorem sign_writes_envelopes_only :
  forall (ssl : OpenSSL) (magic : list byte) (M : Main)
         (path relative_to : list byte) (n : fsnode)
         (filename contents : list byte),
    In (g_file_set_contents filename contents)
       (snd (Sign.sign ssl magic M path relative_to n)) ->
    g_str_has_suffix filename (lit ".sig") = true
    /\ firstn (length magic) contents = magic
    /\ exists p,
        In p (walked_paths path n) /\ filename = g_strconcat p (lit ".sig").
Proof.
  intros ssl magic M path relative_to n filename contents H.
  pose proof (sign_envelope_writes ssl magic M relative_to n path) as F.
  rewrite Forall_forall in F. exact (F _ H).
Qed.

Lemma sign_writes_envelopes_only_witness :
  g_str_has_suffix (lit "/t/c.sig") (lit ".sig") = true
  /\ exists p,
      In p (walked_paths (lit "/t") Examples.three_files)
      /\ lit "/t/c.sig" = g_strconcat p (lit ".sig").
Proof.
  destruct (sign_writes_envelopes_only
              Examples.ssl Examples.magic Examples.main (lit "/t") (lit "/t")
              Examples.three_files (lit "/t/c.sig")
              (Examples.magic
                 ++ Examples.toy_signature
                      3 ([x00] ++ lit "c" ++ [x00] ++ lit "C")))
    as (H1 & _ & H2).
  - vm_compute. auto 10.
  - split; [exact H1|exact H2].
Defined.

End EnvelopeWrites.

(** ** A refused root *)

Section RefusedRoot.

Import WalkSpec WalkObs.

Lemma cmd_sign_loop_refused (ssl : OpenSSL) (magic : list byte) (M : Main)
      (before after : list root) (r : root) :
  forallb (fun r => negb (refused M r)) before = true ->
  refused M r = true ->
  forall res,
    Sign.cmd_sign_loop ssl magic M (before ++ r :: after) res
    = (EXIT_FAILURE,
       concat (map (root_events (Sign.sign ssl magic M) M) before)
              ++ [checking r; refusal r]).
Proof.
  unfold root_events, visit_root, refused, relative_root, checking, refusal.
  intros B R. induction before as [|b before IH]; intros res.
  - cbn [app Sign.cmd_sign_loop map concat].
    apply andb_true_iff in R. destruct R as [-> ->]. reflexivity.
  - cbn [forallb] in B. apply andb_true_iff in B. destruct B as [Bb B].
    cbn [app Sign.cmd_sign_loop map concat].
    destruct (root_is_dir b); cbn [andb negb] in *.
    + destruct (opt_recursive M) eqn:Rec; [|discriminate]. cbn [negb].
      destruct (Sign.sign ssl magic M (root_path b) _ (root_node b))
        as [ok log].
      rewrite (IH B). cbn [snd]. now rewrite <- app_assoc.
    + destruct (Sign.sign ssl magic M (root_path b) _ (root_node b))
        as [ok log].
      rewrite (IH B). cbn [snd]. now rewrite <- app_assoc.
Qed.

Lemma cmd_validate_loop_refused (ssl : OpenSSL) (magic : list byte)
      (M : Main) (before after : list root) (r : root) :
  forallb (fun r => negb (refused M r)) before = true ->
  refused M r = true ->
  forall res,
    Validate.cmd_validate_loop ssl magic M (before ++ r :: after) res
    = (EXIT_FAILURE,
       concat (map (root_events (Validate.validate ssl magic M) M) before)
              ++ [checking r; refusal r]).
Proof.
  unfold root_events, visit_root, refused, relative_root, checking, refusal.
  intros B R. induction before as [|b before IH]; intros res.
  - cbn [app Validate.cmd_validate_loop map concat].
    apply andb_true_iff in R. destruct R as [-> ->]. reflexivity.
  - cbn [forallb] in B. apply andb_true_iff in B. destruct B as [Bb B].
    cbn [app Validate.cmd_validate_loop map concat].
    destruct (root_is_dir b); cbn [andb negb] in *.
    + destruct (opt_recursive M) eqn:Rec; [|discriminate]. cbn [negb].
      destruct (Validate.validate ssl magic M (root_path b) _ (root_node b))
        as [ok log].
      rewrite (IH B). cbn [snd]. now rewrite <- app_assoc.
    + destruct (Validate.validate ssl magic M (root_path b) _ (root_node b))
        as [ok log].
      rewrite (IH B). cbn [snd]. now rewrite <- app_assoc.
Qed.

(** X13.  A directory given without the recursive option ends the run
    there: [cmd_sign] and [cmd_validate] exit with failure after the line
    that says so, the arguments before it have been walked, and the
    arguments after it are not looked at, whatever they are. *)
Theorem refused_root_ends_run :
  forall (ssl : OpenSSL) (magic : list byte) (M : Main)
         (before after : list root) (r : root),
    forallb (fun r => negb (refused M r)) before = true ->
    refused M r = true ->
    Sign.cmd_sign ssl magic M (before ++ r :: after)
    = (EXIT_FAILURE,
       g_debug "Entering cmd_sign" []
               :: concat (map (root_events (Sign.sign ssl magic M) M) before)
               ++ [checking r; refusal r])
    /\ Validate.cmd_validate ssl magic M (before ++ r :: after)
       = (EXIT_FAILURE,
          g_debug "Entering cmd_validate" []
                  :: concat (map (root_events (Validate.validate ssl magic M)
                                              M) before)
                  ++ [checking r; refusal r]).
Proof.
  intros ssl magic M before after r B R. split.
  - unfold Sign.cmd_sign.
    rewrite (cmd_sign_loop_refused ssl magic M before after r B R true).
    destruct (before ++ r :: after) eqn:E; [|reflexivity].
    now destruct before.
  - unfold Validate.cmd_validate.
    rewrite (cmd_validate_loop_refused ssl magic M before after r B R true).
    destruct (before ++ r :: after) eqn:E; [|reflexivity].
    now destruct before.
Qed.

(** Without the recursive option: a file, then a directory, then a file
    that is not looked at. *)
Lemma refused_root_ends_run_witness :
  fst (Sign.cmd_sign Examples.ssl Examples.magic Samples.flat_main
                     [Samples.file_root; Samples.dir_root;
                      Examples.envelope_root]) = EXIT_FAILURE
  /\ In (refusal Samples.dir_root)
        (snd (Sign.cmd_sign Examples.ssl Examples.magic Samples.flat_main
                            [Samples.file_root; Samples.dir_root;
                             Examples.envelope_root])).
Proof.
  destruct (refused_root_ends_run
              Examples.ssl Examples.magic Samples.flat_main
              [Samples.file_root] [Examples.envelope_root] Samples.dir_root
              eq_refl eq_refl) as [H _].
  cbn [app] in H. rewrite H. split; [reflexivity|].
  cbn [snd]. right. apply in_or_app. right. right. now left.
Defined.

End RefusedRoot.

(** ** A leaf signed, then validated *)

Section LeafRoundTrip.

Import Utils Trials WalkObs.






End LeafRoundTrip.

(** ** The keys of a key directory *)

Section KeyMembership.

Import Utils KeySpec.

Lemma parsed_keys_In (files : list (list byte * key_file)) (pkey : EVP_PKEY) :
  In pkey (parsed_keys files) <-> exists name, In (name, PemKey pkey) files.
Proof.
  induction files as [|[name file] files IH]; simpl.
  - split; [contradiction|intros [_ []]].
  - destruct file as [e| |k]; simpl.
    + rewrite IH. split.
      * intros [n H]. exists n. now right.
      * intros [n [H|H]]; [discriminate|]. now exists n.
    + rewrite IH. split.
      * intros [n H]. exists n. now right.
      * intros [n [H|H]]; [discriminate|]. now exists n.
    + rewrite IH. split.
      * intros [<-|[n H]]; [exists name; now left|]. exists n. now right.
      * intros [n [H|H]]; [injection H as _ <-; now left|].
        right. now exists n.
Qed.

(** X15.  The trusted keys are those of the key files, no more and no
    less: when [load_pub_keys_from_dir] succeeds, a key is in the
    collection it returns exactly when some file of the directory parsed
    as that key, and the collection has one key for each file that
    parsed, so never more keys than the directory has files. *)
Theorem load_pub_keys_from_dir_membership :
  forall (files : list (list byte * key_file)) (keys : list EVP_PKEY),
    load_pub_keys_from_dir (inr files) = inr keys ->
    (forall pkey,
        In pkey keys <-> exists name, In (name, PemKey pkey) files)
    /\ length keys = length (parsed_keys files)
    /\ length keys <= length files.
Proof.
  intros files keys H. unfold load_pub_keys_from_dir in H.
  apply load_pub_keys_loop_inr in H. rewrite app_nil_r in H. subst keys.
  split; [|split].
  - intros pkey. rewrite <- in_rev. apply parsed_keys_In.
  - apply length_rev.
  - rewrite length_rev. clear.
    induction files as [|[name file] files IH]; simpl; [lia|].
    destruct (load_pub_key file); simpl; lia.
Qed.

Lemma load_pub_keys_from_dir_membership_witness :
  In 5 [7; 5]
  <-> exists name,
      In (name, PemKey 5)
         [(lit "a.pem", PemKey 5); (lit "sub", FopenFails EISDIR);
          (lit "b.pem", PemKey 7)].
Proof.
  apply (load_pub_keys_from_dir_membership
           [(lit "a.pem", PemKey 5); (lit "sub", FopenFails EISDIR);
            (lit "b.pem", PemKey 7)] [7; 5] eq_refl).
Defined.

End KeyMembership.

(** ** The error a failed load leaves *)

Section KeyDirError.

Import Utils.




End KeyDirError.

(** ** Writing to a descriptor *)

Section WriteToFd.

Import Io.

Lemma firstn_plus (a b : nat) (l : list byte) :
  firstn (a + b) l = firstn a l ++ firstn b (skipn a l).
Proof.
  revert l. induction a as [|a IH]; intros l; [reflexivity|].
  destruct l as [|x l]; simpl.
  - now rewrite firstn_nil.
  - now rewrite IH.
Qed.

(** One call of [write], the interrupted ones made again: it fails
    having written nothing, or it has written the first [n] bytes. *)
Lemma write_retry_spec (script : list write_step) (sofar content : list byte) :
  match write_retry script sofar content with
  | (inl _, fd') => written fd' = sofar
  | (inr n, fd') =>
      n <= length content /\ written fd' = sofar ++ firstn n content
  end.
Proof.
  induction script as [|[|e|k] script IH]; cbn [write_retry].
  - split; [lia|]. now rewrite firstn_all.
  - exact IH.
  - reflexivity.
  - split; [lia|reflexivity].
Qed.

Lemma write_to_fd_loop_spec (fuel : nat) :
  forall (fd : wfd) (content : list byte),
    length content <= fuel ->
    exists status err fd',
      write_to_fd_loop fuel fd content = Some (status, err, fd')
      /\ ((status = 0%Z /\ err = None
           /\ written fd' = written fd ++ content)
          \/ (status = (-1)%Z /\ err <> None
              /\ exists n, n < length content
                           /\ written fd' = written fd ++ firstn n content)).
Proof.
  induction fuel as [|fuel IH]; intros fd content L.
  - destruct content; [|simpl in L; lia].
    exists 0%Z, None, fd. split; [reflexivity|].
    left. now rewrite app_nil_r.
  - destruct content as [|x content].
    { exists 0%Z, None, fd. split; [reflexivity|].
      left. now rewrite app_nil_r. }
    cbn [write_to_fd_loop].
    pose proof (write_retry_spec (wscript fd) (written fd) (x :: content))
      as W.
    destruct (write_retry (wscript fd) (written fd) (x :: content))
      as [[e|[|res]] fd'].
    + exists (-1)%Z, (Some (FromWrite e)), fd'. split; [reflexivity|].
      right. repeat split; [discriminate|].
      exists 0. split; [simpl; lia|]. now rewrite app_nil_r.
    + exists (-1)%Z, (Some ENOSPC), fd'. split; [reflexivity|].
      right. repeat split; [discriminate|].
      exists 0. split; [simpl; lia|]. now destruct W.
    + destruct W as [Wn Ww].
      assert (Ls : length (skipn (S res) (x :: content)) <= fuel).
      { rewrite length_skipn. simpl in *. lia. }
      destruct (IH fd' _ Ls) as (status & err & fd'' & E & H).
      exists status, err, fd''. split; [exact E|].
      destruct H as [(-> & -> & H)|(-> & Herr & n & Hn & H)].
      * left. repeat split. rewrite H, Ww, <- app_assoc.
        now rewrite firstn_skipn.
      * right. repeat split; [exact Herr|].
        exists (S res + n). split.
        -- rewrite length_skipn in Hn. lia.
        -- rewrite H, Ww, <- app_assoc. now rewrite firstn_plus.
Qed.

(** X16.  [write_to_fd] always returns, 0 or -1.  When it returns 0 the
    descriptor has received exactly the bytes of the buffer, once and in
    order, after what it held, however the writes were cut short or
    interrupted; when it returns -1, [errno] is set and what the
    descriptor has received is a part of the buffer from its start,
    never all of it. *)
Theorem write_to_fd_exact :
  forall (fd : wfd) (content : list byte),
    exists status err fd',
      write_to_fd fd content = Some (status, err, fd')
      /\ ((status = 0%Z /\ err = None
           /\ written fd' = written fd ++ content)
          \/ (status = (-1)%Z /\ err <> None
              /\ exists n, n < length content
                           /\ written fd' = written fd ++ firstn n content)).
Proof.
  intros fd content. apply write_to_fd_loop_spec. unfold lt. lia.
Qed.

Lemma write_retry_progress (script : list write_step)
      (sofar content : list byte) :
  Forall makes_progress script ->
  content <> [] ->
  exists res fd',
    write_retry script sofar content = (inr (S res), fd')
    /\ Forall makes_progress (wscript fd').
Proof.
  intros P N. induction P as [|[|e|k] script H P IH]; cbn [write_retry].
  - destruct content as [|x content]; [contradiction|].
    exists (length content). eexists. split; [reflexivity|constructor].
  - exact IH.
  - contradiction.
  - simpl in H. destruct k as [|k]; [contradiction|].
    destruct content as [|x content]; [contradiction|].
    cbn [length Nat.min]. eexists. eexists. split; [reflexivity|exact P].
Qed.

Lemma write_to_fd_loop_progress (fuel : nat) :
  forall (fd : wfd) (content : list byte),
    length content <= fuel ->
    Forall makes_progress (wscript fd) ->
    exists fd',
      write_to_fd_loop fuel fd content = Some (0%Z, None, fd')
      /\ written fd' = written fd ++ content
      /\ Forall makes_progress (wscript fd').
Proof.
  induction fuel as [|fuel IH]; intros fd content L P.
  - destruct content; [|simpl in L; lia].
    exists fd. repeat split; [now rewrite app_nil_r|exact P].
  - destruct content as [|x content].
    { exists fd. repeat split; [now rewrite app_nil_r|exact P]. }
    cbn [write_to_fd_loop].
    destruct (write_retry_progress (wscript fd) (written fd) (x :: content) P)
      as (res & fd' & E & P'); [discriminate|].
    pose proof (write_retry_spec (wscript fd) (written fd) (x :: content))
      as W.
    rewrite E in *. destruct W as [Wn Ww].
    assert (Ls : length (skipn (S res) (x :: content)) <= fuel).
    { rewrite length_skipn. simpl in *. lia. }
    destruct (IH fd' _ Ls P') as (fd'' & E' & H & P'').
    exists fd''. split; [exact E'|]. split; [|exact P''].
    rewrite H, Ww, <- app_assoc. now rewrite firstn_skipn.
Qed.

(** X17.  Short and interrupted writes are resumed: on a descriptor of
    which no call of [write] fails or takes nothing, [write_to_fd]
    returns 0 and the descriptor has received the whole buffer. *)
Theorem write_to_fd_completes :
  forall (fd : wfd) (content : list byte),
    Forall makes_progress (wscript fd) ->
    exists fd',
      write_to_fd fd content = Some (0%Z, None, fd')
      /\ written fd' = written fd ++ content.
Proof.
  intros fd content P.
  destruct (write_to_fd_loop_progress (length content) fd content
                                      (Nat.le_refl _) P)
    as (fd' & E & H & _).
  exists fd'. now split.
Qed.

Lemma write_to_fd_completes_witness :
  exists fd',
    write_to_fd slow_sink (lit "hello") = Some (0%Z, None, fd')
    /\ written fd' = lit ">hello".
Proof.
  destruct (write_to_fd_completes slow_sink (lit "hello")) as (fd' & E & H).
  - repeat constructor; discriminate.
  - exists fd'. split; [exact E|exact H].
Defined.

End WriteToFd.

(** ** Copying a descriptor *)

Section CopyFd.

Import Io.

Lemma BUF_SIZE_pos : exists m, BUF_SIZE = S m.
Proof. exists (BUF_SIZE - 1). vm_compute. reflexivity. Qed.

Lemma no_read_failure_tail (c u c' u' : list byte) (step : read_step)
      (script : list read_step) :
  no_read_failure {| consumed := c; unread := u; rscript := step :: script |} ->
  no_read_failure {| consumed := c'; unread := u'; rscript := script |}.
Proof.
  unfold no_read_failure. cbn [rscript]. intros H e Hin.
  apply (H e). now right.
Qed.

(** One call of [read] with room for a byte at least. *)
Lemma read_spec (fd : rfd) (m : nat) :
  match read fd (S m) with
  | (RData buf, fd') =>
      consumed fd' = consumed fd ++ buf
      /\ unread fd = buf ++ unread fd'
      /\ (unread fd <> [] -> buf <> [])
      /\ length (rscript fd') <= length (rscript fd)
      /\ (no_read_failure fd -> no_read_failure fd')
  | (RIntr, fd') =>
      consumed fd' = consumed fd /\ unread fd' = unread fd
      /\ S (length (rscript fd')) = length (rscript fd)
      /\ (no_read_failure fd -> no_read_failure fd')
  | (RErr e, fd') =>
      consumed fd' = consumed fd /\ unread fd' = unread fd
      /\ ~ no_read_failure fd
  end.
Proof.
  destruct fd as [c u script]. unfold read. cbn [rscript].
  destruct script as [|[|e|k] script]; unfold deliver;
    cbn [consumed unread rscript].
  - repeat split; try (now rewrite firstn_skipn); try lia.
    + destruct u; [contradiction|discriminate].
    + intros _ e []. 
  - repeat split. apply no_read_failure_tail.
  - repeat split. intros H. apply (H e). now left.
  - repeat split; try (now rewrite firstn_skipn); try (simpl; lia).
    + destruct u; [contradiction|discriminate].
    + apply no_read_failure_tail.
Qed.

(** [read], the interrupted calls made again. *)
Lemma read_retry_spec (fuel : nat) :
  forall fd : rfd,
    length (rscript fd) < fuel ->
    exists r fd',
      read_retry fuel fd = Some (r, fd')
      /\ match r with
         | RData buf =>
             consumed fd' = consumed fd ++ buf
             /\ unread fd = buf ++ unread fd'
             /\ (unread fd <> [] -> buf <> [])
             /\ (no_read_failure fd -> no_read_failure fd')
         | RIntr => False
         | RErr e =>
             consumed fd' = consumed fd /\ unread fd' = unread fd
             /\ ~ no_read_failure fd
         end.
Proof.
  destruct BUF_SIZE_pos as [m B].
  induction fuel as [|fuel IH]; intros fd L; [lia|].
  cbn [read_retry]. rewrite B.
  pose proof (read_spec fd m) as R.
  destruct (read fd (S m)) as [[|e|buf] fd'].
  - destruct R as (Rc & Ru & Rs & Rn).
    destruct (IH fd' ltac:(lia)) as (r & fd'' & E & H).
    exists r, fd''. split; [exact E|].
    destruct r as [|e|buf]; [exact H| |].
    + destruct H as (H1 & H2 & H3). rewrite <- Rc, <- Ru.
      repeat split; try assumption. intros N. apply H3. now apply Rn.
    + destruct H as (H1 & H2 & H3 & H4). rewrite <- Rc, <- Ru.
      repeat split; try assumption. intros N. apply H4. now apply Rn.
  - exists (RErr e), fd'. split; [reflexivity|exact R].
  - exists (RData buf), fd'. split; [reflexivity|].
    destruct R as (R1 & R2 & R3 & _ & R5). auto.
Qed.

Lemma copy_fd_loop_spec (fuel : nat) :
  forall (from_fd : rfd) (to_fd : wfd),
    length (unread from_fd) < fuel ->
    exists status from_fd' to_fd',
      copy_fd_loop fuel from_fd to_fd = Some (status, from_fd', to_fd')
      /\ ((status = 0%Z
           /\ written to_fd' = written to_fd ++ unread from_fd
           /\ unread from_fd' = []
           /\ consumed from_fd' = consumed from_fd ++ unread from_fd)
          \/ (status = (-1)%Z
              /\ exists n,
                  n <= length (unread from_fd)
                  /\ written to_fd'
                     = written to_fd ++ firstn n (unread from_fd)))
      /\ (no_read_failure from_fd ->
          Forall makes_progress (wscript to_fd) ->
          status = 0%Z).
Proof.
  induction fuel as [|fuel IH]; intros from_fd to_fd L; [lia|].
  cbn [copy_fd_loop].
  destruct (read_retry_spec (S (length (rscript from_fd))) from_fd
                            (Nat.lt_succ_diag_r _))
    as (r & from_fd' & E & R).
  rewrite E. destruct r as [|e|buf]; [contradiction| |].
  - destruct R as (_ & _ & R).
    exists (-1)%Z, from_fd', to_fd. split; [reflexivity|]. split.
    + right. split; [reflexivity|]. exists 0. split; [lia|].
      now rewrite app_nil_r.
    + intros N. contradiction.
  - destruct R as (Rc & Ru & Rn & Rf).
    destruct buf as [|x buf].
    + assert (U : unread from_fd = []).
      { destruct (unread from_fd); [reflexivity|].
        exfalso. apply Rn; [discriminate|reflexivity]. }
      exists 0%Z, from_fd', to_fd. split; [reflexivity|]. split; [|auto].
      left. rewrite U in *. simpl in Ru.
      rewrite Rc, !app_nil_r. auto.
    + unfold write_to_fd.
      destruct (write_to_fd_loop_spec (length (x :: buf)) to_fd (x :: buf)
                                      (Nat.le_refl _))
        as (status & err & to_fd' & W & H).
      pose proof (write_to_fd_loop_progress (length (x :: buf)) to_fd
                                            (x :: buf) (Nat.le_refl _)) as P.
      rewrite W.
      destruct H as [(-> & -> & H)|(-> & _ & n & Hn & H)].
      * change (0 <? 0)%Z with false. cbv iota.
        assert (L' : length (unread from_fd') < fuel).
        { rewrite Ru, length_app in L. simpl in L. lia. }
        destruct (IH from_fd' to_fd' L')
          as (status & from_fd'' & to_fd'' & C & HC & HP).
        exists status, from_fd'', to_fd''. split; [exact C|]. split.
        -- destruct HC as [(-> & H1 & H2 & H3)|(-> & k & Hk & H1)].
           ++ left. rewrite H1, H, H2, H3, Rc, Ru, <- !app_assoc. auto.
           ++ right. split; [reflexivity|].
              exists (length (x :: buf) + k). split.
              ** rewrite Ru, length_app. lia.
              ** rewrite H1, H, Ru, <- app_assoc.
                 now rewrite firstn_app_2.
        -- intros N Pw. apply HP; [now apply Rf|].
           destruct (P Pw) as (fd2 & W2 & _ & P2).
           rewrite W in W2. now injection W2 as <-.
      * change (-1 <? 0)%Z with true. cbv iota.
        exists (-1)%Z, from_fd', to_fd'. split; [reflexivity|]. split.
        -- right. split; [reflexivity|]. exists n. split.
           ++ rewrite Ru, length_app. lia.
           ++ rewrite H, Ru. rewrite firstn_app.
              replace (n - length (x :: buf)) with 0 by lia.
              now rewrite app_nil_r.
        -- intros N Pw. destruct (P Pw) as (fd2 & W2 & _).
           rewrite W in W2. discriminate.
Qed.

(** X18.  [copy_fd] always returns, 0 or -1.  When it returns 0, the
    destination has received exactly the bytes that were left to read in
    the source, once and in order, and the source is at its end; when it
    returns -1, what the destination has received is a part of those
    bytes from their start.  It returns 0 whenever no [read] of the
    source fails and no [write] to the destination fails or takes
    nothing, however the reads and writes are cut short or interrupted. *)
Theorem copy_fd_exact :
  forall (from_fd : rfd) (to_fd : wfd),
    exists status from_fd' to_fd',
      copy_fd from_fd to_fd = Some (status, from_fd', to_fd')
      /\ ((status = 0%Z
           /\ written to_fd' = written to_fd ++ unread from_fd
           /\ unread from_fd' = []
           /\ consumed from_fd' = consumed from_fd ++ unread from_fd)
          \/ (status = (-1)%Z
              /\ exists n,
                  n <= length (unread from_fd)
                  /\ written to_fd'
                     = written to_fd ++ firstn n (unread from_fd)))
      /\ (no_read_failure from_fd ->
          Forall makes_progress (wscript to_fd) ->
          status = 0%Z).
Proof.
  intros from_fd to_fd. apply copy_fd_loop_spec. lia.
Qed.

(** A file read in pieces and copied to a descriptor written in
    pieces. *)
Lemma copy_fd_exact_witness :
  exists from_fd' to_fd',
    copy_fd slow_file slow_sink = Some (0%Z, from_fd', to_fd')
    /\ written to_fd' = lit ">hello, world".
Proof.
  destruct (copy_fd_exact slow_file slow_sink)
    as (status & from_fd' & to_fd' & E & H & S).
  assert (Z : status = 0%Z).
  { apply S.
    - intros e [H1|[H1|[H1|[H1|[H1|[]]]]]]; discriminate.
    - repeat constructor; discriminate. }
  subst status. exists from_fd', to_fd'. split; [exact E|].
  destruct H as [(_ & H & _)|(H & _)]; [exact H|discriminate].
Defined.

End CopyFd.

(** ** The digest of a file *)

Section Sha512File.

Import Io.

Context {ctx : Type}.
Variable md : Digest ctx.
Hypothesis md_streaming : streaming md.

(** Giving the digest the first bytes and then the rest is giving it
    all of them. *)
Lemma absorb_split (c : ctx) (buf rest : list byte) :
  buf <> [] ->
  absorb md c (buf ++ rest)
  = match EVP_DigestUpdate md c buf with
    | Some c' => absorb md c' rest
    | None => None
    end.
Proof.
  intros N. destruct rest as [|y rest].
  - rewrite app_nil_r. unfold absorb.
    destruct buf; [contradiction|].
    now destruct (EVP_DigestUpdate md c (b :: buf)).
  - unfold absorb at 1.
    destruct (buf ++ y :: rest) eqn:E.
    { now destruct buf. }
    rewrite <- E. rewrite md_streaming by (assumption || discriminate).
    reflexivity.
Qed.

Lemma sha512_file_loop_spec (fuel : nat) :
  forall (fd : rfd) (c : ctx),
    no_read_failure fd ->
    length (rscript fd) + length (unread fd) < fuel ->
    match absorb md c (unread fd) with
    | None => sha512_file_loop md fuel fd c = Some (inl G_FILE_ERROR_FAILED)
    | Some c' =>
        exists fd',
          sha512_file_loop md fuel fd c = Some (inr (c', fd'))
          /\ unread fd' = []
          /\ consumed fd' = consumed fd ++ unread fd
    end.
Proof.
  destruct BUF_SIZE_pos as [m B].
  induction fuel as [|fuel IH]; intros fd c N L; [lia|].
  cbn [sha512_file_loop]. rewrite B.
  pose proof (read_spec fd m) as R.
  destruct (read fd (S m)) as [[|e|buf] fd'].
  - destruct R as (Rc & Ru & Rs & Rn).
    rewrite <- Rc, <- Ru. apply IH; [now apply Rn|].
    rewrite Ru. lia.
  - destruct R as (_ & _ & R). contradiction.
  - destruct R as (Rc & Ru & Rne & Rs & Rn).
    destruct buf as [|x buf].
    + assert (U : unread fd = []).
      { destruct (unread fd); [reflexivity|].
        exfalso. apply Rne; [discriminate|reflexivity]. }
      rewrite U in *. cbn [absorb]. exists fd'.
      split; [reflexivity|]. simpl in Ru.
      rewrite Rc, !app_nil_r. auto.
    + rewrite Ru, absorb_split by discriminate.
      destruct (EVP_DigestUpdate md c (x :: buf)) as [c'|]; [|reflexivity].
      assert (L' : length (rscript fd') + length (unread fd') < fuel).
      { rewrite Ru, length_app in L. simpl in L. lia. }
      pose proof (IH fd' c' (Rn N) L') as H.
      destruct (absorb md c' (unread fd')) as [c''|]; [|exact H].
      destruct H as (fd'' & E & H1 & H2).
      exists fd''. split; [exact E|]. split; [exact H1|].
      now rewrite H2, Rc, <- app_assoc.
Qed.

(** X19.  [sha512_file] digests the bytes of the file, whatever way they
    come: when no [read] fails (reads may be interrupted and may give
    less than asked) and the digest is one that can be fed in pieces, the
    result is that of giving the digest all the bytes of the file at
    once; an interrupted read is made again and feeds nothing.  The
    descriptor handed back on request is set at the start of the file. *)
Theorem sha512_file_whole :
  forall (fd : rfd) (fd_out : bool),
    no_read_failure fd ->
    EVP_MD_CTX_new md = true ->
    match digest_of md (unread fd) with
    | inl e => sha512_file md (inr fd) fd_out = Some (inl e)
    | inr digest =>
        exists out,
          sha512_file md (inr fd) fd_out = Some (inr (digest, out))
          /\ (fd_out = false -> out = None)
          /\ (fd_out = true ->
              exists fd',
                out = Some fd'
                /\ consumed fd' = []
                /\ unread fd' = consumed fd ++ unread fd)
    end.
Proof.
  intros fd fd_out N A. unfold digest_of, sha512_file. rewrite A.
  cbn [negb].
  destruct (EVP_DigestInit_ex md) as [c|]; [|reflexivity].
  pose proof (sha512_file_loop_spec (sha512_fuel fd) fd c N
                                    (Nat.lt_succ_diag_r _)) as H.
  destruct (absorb md c (unread fd)) as [c'|]; [|now rewrite H].
  destruct H as (fd' & -> & U & C).
  destruct (EVP_DigestFinal_ex md c') as [digest|]; [|reflexivity].
  eexists. split; [reflexivity|]. split.
  - now intros ->.
  - intros ->. exists (rewind fd'). split; [reflexivity|].
    unfold rewind. cbn [consumed unread]. now rewrite U, C, app_nil_r.
Qed.

End Sha512File.

Section Sha512FileExample.

Import Io.

Lemma toy_digest_streaming : streaming toy_digest.
Proof.
  intros c a b _ _. cbn [EVP_DigestUpdate toy_digest].
  now rewrite app_assoc.
Qed.

(** The file of the examples, read in pieces with interruptions. *)
Lemma sha512_file_whole_witness :
  exists out,
    sha512_file toy_digest (inr slow_file) true
    = Some (inr (rev (lit "hello, world"), out)).
Proof.
  pose proof (sha512_file_whole toy_digest toy_digest_streaming slow_file
                                true) as H.
  cbn [digest_of toy_digest EVP_DigestInit_ex EVP_DigestFinal_ex] in H.
  destruct H as (out & E & _).
  - intros e [H1|[H1|[H1|[H1|[H1|[]]]]]]; discriminate.
  - reflexivity.
  - exists out. exact E.
Defined.

End Sha512FileExample.

(** ** What a successful walk has done *)

Section SuccessMeans.

Import Utils WalkSpec WalkObs.

Lemma walked_leaves_directory (path : list byte) (st_mode : Z)
      (leaf : leaf_obs) (children : list (list byte * fsnode)) :
  Z.land st_mode S_IFMT = S_IFDIR ->
  walked_leaves path (Inode st_mode leaf None children)
  = leaves_of_entries path children.
Proof. intros T. cbn [walked_leaves]. rewrite T. reflexivity. Qed.

Lemma has_envelope_after_incl (M : Main) (log log' : list event)
      (visit : list byte * Z * leaf_obs) :
  incl log log' ->
  has_envelope_after M log visit -> has_envelope_after M log' visit.
Proof.
  destruct visit as [[p m] leaf]. intros I [H|[envelope H]]; [now left|].
  right. exists envelope. now apply I.
Qed.

Lemma sign_leaf_true (ssl : OpenSSL) (magic : list byte) (M : Main)
      (path relative_to : list byte) (st_mode type : Z) (leaf : leaf_obs) :
  fst (Sign.sign_leaf ssl magic M path relative_to st_mode type leaf) = true ->
  has_envelope_after
    M (snd (Sign.sign_leaf ssl magic M path relative_to st_mode type leaf))
    (path, st_mode, leaf).
Proof.
  unfold Sign.sign_leaf, has_envelope_after.
  destruct (negb (opt_force M) && sig_exists leaf) eqn:F.
  { intros _. left. apply andb_true_iff in F. destruct F as [F1 F2].
    now apply negb_true_iff in F1. }
  destruct (load_file_data_for_sign _ _ leaf); [discriminate|].
  destruct (opt_get_relative_path M path relative_to (opt_path_prefix M));
    [|discriminate].
  destruct (sign_data ssl magic type _ _ (opt_private_key M)) as [e|envelope];
    [discriminate|].
  destruct (set_contents leaf); [discriminate|].
  intros _. right. exists envelope. now left.
Qed.

Lemma sign_true_leaves (ssl : OpenSSL) (magic : list byte) (M : Main)
      (relative_to : list byte) (n : fsnode) :
  forall path,
    fst (Sign.sign ssl magic M path relative_to n) = true ->
    Forall (has_envelope_after
              M (snd (Sign.sign ssl magic M path relative_to n)))
           (walked_leaves path n).
Proof.
  induction n as [e|st_mode leaf dir_error children IH]
    using fsnode_induction; intros path; [constructor|].
  destruct (Z.eq_dec (Z.land st_mode S_IFMT) S_IFDIR) as [T|T].
  - destruct dir_error as [e|].
    + intros _. cbn [walked_leaves]. rewrite T. constructor.
    + rewrite (walked_leaves_directory _ _ _ _ T).
      rewrite (sign_directory_results _ _ _ _ _ _ _ _ T). cbn [fst snd].
      unfold all_succeed, all_events, child_results, visited.
      induction IH as [|[name c] rest H _ IHrest]; [constructor|].
      cbn [filter fst leaves_of_entries].
      destruct (is_envelope_name name); [exact IHrest|].
      cbn [negb map forallb concat snd fst]. simpl in H.
      intros [S1 S2]%andb_true_iff.
      apply Forall_app. split.
      * eapply Forall_impl; [|apply (H _ S1)].
        intros v. apply has_envelope_after_incl.
        intros ev Hev. right. apply in_or_app. now left.
      * eapply Forall_impl; [|apply (IHrest S2)].
        intros v. apply has_envelope_after_incl.
        intros ev [<-|Hev]; [now left|].
        right. apply in_or_app. now right.
  - cbn [Sign.sign walked_leaves]. apply Z.eqb_neq in T. rewrite T.
    destruct ((Z.land st_mode S_IFMT =? S_IFREG)%Z
              || (Z.land st_mode S_IFMT =? S_IFLNK)%Z); [|discriminate].
    pose proof (sign_leaf_true ssl magic M path relative_to st_mode
                               (Z.land st_mode S_IFMT) leaf) as L.
    destruct (Sign.sign_leaf ssl magic M path relative_to st_mode
                             (Z.land st_mode S_IFMT) leaf) as [ok log].
    cbn [fst snd] in *. intros S. constructor; [|constructor].
    eapply has_envelope_after_incl; [|exact (L S)].
    intros ev Hev. now right.
Qed.

(** X20.  When [sign] returns TRUE, every regular file and symlink of the
    walk has an envelope: one was there and was left alone (the force
    option being off), or [sign] has written one for it, under its path
    with ".sig" added. *)
Theorem sign_success_covers_leaves :
  forall (ssl : OpenSSL) (magic : list byte) (M : Main)
         (path relative_to : list byte) (n : fsnode),
    fst (Sign.sign ssl magic M path relative_to n) = true ->
    Forall (has_envelope_after
              M (snd (Sign.sign ssl magic M path relative_to n)))
           (walked_leaves path n).
Proof. intros. now apply sign_true_leaves. Qed.

Lemma sign_success_covers_leaves_witness :
  Forall (has_envelope_after
            Examples.main
            (snd (Sign.sign Examples.ssl Examples.magic Examples.main
                            (lit "/t") (lit "/t") Samples.signed_tree)))
         (walked_leaves (lit "/t") Samples.signed_tree).
Proof.
  apply (sign_success_covers_leaves
           Examples.ssl Examples.magic Examples.main (lit "/t") (lit "/t")
           Samples.signed_tree).
  reflexivity.
Defined.

Lemma validate_leaf_true (ssl : OpenSSL) (magic : list byte) (M : Main)
      (path relative_to : list byte) (st_mode : Z) (leaf : leaf_obs) :
  fst (Validate.validate_leaf ssl magic M path relative_to st_mode
                              (Z.land st_mode S_IFMT) leaf) = true ->
  leaf_validates ssl magic M relative_to (path, st_mode, leaf).
Proof.
  unfold Validate.validate_leaf, leaf_validates.
  destruct (get_contents leaf) as [e|signature].
  { destruct (g_error_matches e G_FILE_ERROR_NOENT); discriminate. }
  destruct (load_file_data_for_sign _ _ leaf) as [e|content];
    [discriminate|].
  destruct (opt_get_relative_path M path relative_to (opt_path_prefix M))
    as [rel_path|]; [|discriminate].
  destruct (validate_data ssl magic rel_path (Z.land st_mode S_IFMT) content
                          signature (opt_public_keys M))
    as [[valid error] log] eqn:V.
  destruct valid; cbn [negb].
  - intros _. exists signature, content, rel_path.
    repeat split. now rewrite V.
  - destruct error; discriminate.
Qed.

Lemma validate_true_leaves (ssl : OpenSSL) (magic : list byte) (M : Main)
      (relative_to : list byte) (n : fsnode) :
  forall path,
    fst (Validate.validate ssl magic M path relative_to n) = true ->
    Forall (leaf_validates ssl magic M relative_to) (walked_leaves path n).
Proof.
  induction n as [e|st_mode leaf dir_error children IH]
    using fsnode_induction; intros path; [constructor|].
  destruct (Z.eq_dec (Z.land st_mode S_IFMT) S_IFDIR) as [T|T].
  - destruct dir_error as [e|].
    + intros _. cbn [walked_leaves]. rewrite T. constructor.
    + rewrite (walked_leaves_directory _ _ _ _ T).
      rewrite (validate_directory_results _ _ _ _ _ _ _ _ T). cbn [fst].
      unfold all_succeed, child_results, visited.
      induction IH as [|[name c] rest H _ IHrest]; [constructor|].
      cbn [filter fst leaves_of_entries].
      destruct (is_envelope_name name); [exact IHrest|].
      cbn [negb map forallb snd fst]. simpl in H.
      intros [S1 S2]%andb_true_iff.
      apply Forall_app. split; [apply (H _ S1)|apply (IHrest S2)].
  - cbn [Validate.validate walked_leaves]. apply Z.eqb_neq in T. rewrite T.
    destruct ((Z.land st_mode S_IFMT =? S_IFREG)%Z
              || (Z.land st_mode S_IFMT =? S_IFLNK)%Z); [|discriminate].
    pose proof (validate_leaf_true ssl magic M path relative_to st_mode leaf)
      as L.
    destruct (Validate.validate_leaf ssl magic M path relative_to st_mode
                                     (Z.land st_mode S_IFMT) leaf)
      as [ok log].
    cbn [fst] in *. intros S. constructor; [exact (L S)|constructor].
Qed.

(** X21.  When [validate] returns TRUE, every regular file and symlink
    of the walk has been validated: it has an envelope, its content could
    be read, its path could be made relative, and [validate_data]
    answered TRUE for them with the trusted keys.  No leaf is passed over
    in a successful validation. *)
Theorem validate_success_covers_leaves :
  forall (ssl : OpenSSL) (magic : list byte) (M : Main)
         (path relative_to : list byte) (n : fsnode),
    fst (Validate.validate ssl magic M path relative_to n) = true ->
    Forall (leaf_validates ssl magic M relative_to) (walked_leaves path n).
Proof. intros. now apply validate_true_leaves. Qed.

Lemma validate_success_covers_leaves_witness :
  Forall (leaf_validates Examples.ssl Examples.magic Examples.main (lit "/t"))
         (walked_leaves (lit "/t") Samples.valid_tree).
Proof.
  apply (validate_success_covers_leaves
           Examples.ssl Examples.magic Examples.main (lit "/t") (lit "/t")
           Samples.valid_tree).
  reflexivity.
Defined.

End SuccessMeans.
